(** * blockly-diff: the diff / highlight core of [editor.js]

    A shallow embedding of the functions of [src/editor.js] that compare the
    "mine" and the "previous" workspace and decorate the rendered blocks:
    [intersection], [difference], [get_ids], [get_connections], [scroll],
    [saveFields], [myMineSelection], [myPreviousSelection], [show_diffs],
    [apply_valid], [apply_invalid], [highlight_connections] and
    [unhighlight_connections].

    Conventions of the embedding:
    - a JavaScript [Set] of strings is the list of its elements in insertion
      order ([JsSet]); [has], [add] and [delete] are the methods of the
      prototype, and every set is built from the empty one with [add];
    - a JavaScript object used as a dictionary is a record of its own
      properties and of its prototype ([JsObject]);
    - the Blockly objects the code reads (workspace, block, connection, input,
      field) are records with the members the code uses;
    - code that mutates decorations or may raise a [TypeError] is written in a
      small state-and-exception monad ([Eff]). *)

From Stdlib Require Import Ascii.
From stdpp Require Import base strings list gmap sets.

Set Warnings "-register-all".

Open Scope string_scope.
Open Scope list_scope.

(** ** JavaScript [Set] of strings *)

Module JsSet.

(** Elements in insertion order. *)
Definition t := list string.

(** [new Set()] *)
Definition empty : t := [].

(** [s.has(x)] *)
Definition has (s : t) (x : string) : bool := bool_decide (x ∈ s).

(** [s.add(x)]: appended at the end unless already present. *)
Definition add (s : t) (x : string) : t :=
  if has s x then s else s ++ [x].

(** [s.delete(x)]: the occurrence of [x], if any, is taken out. *)
Fixpoint delete (s : t) (x : string) : t :=
  match s with
  | [] => []
  | y :: s' => if decide (x = y) then s' else y :: delete s' x
  end.

(** [new Set(iterable)]: every element of the iterable is added in turn. *)
Definition of_iterable (l : list string) : t := fold_left add l empty.

(** The mathematical set a [JsSet] stands for. *)
Definition to_gset (s : t) : gset string := list_to_set s.

End JsSet.

(** ** Set algebra (editor.js, [intersection] and [difference]) *)

(** [for (const elem of setB) if (setA.has(elem)) _intersection.add(elem)] *)
Definition intersection (setA setB : JsSet.t) : JsSet.t :=
  fold_left
    (fun _intersection elem =>
       if JsSet.has setA elem then JsSet.add _intersection elem
       else _intersection)
    setB JsSet.empty.

(** [_difference = new Set(setA); for (const elem of setB) _difference.delete(elem)] *)
Definition difference (setA setB : JsSet.t) : JsSet.t :=
  fold_left JsSet.delete setB (JsSet.of_iterable setA).

(** ** The Blockly objects read by the code *)

(** [Blockly.connectionTypes] *)
Inductive ConnectionType :=
  | INPUT_VALUE | OUTPUT_VALUE | NEXT_STATEMENT | PREVIOUS_STATEMENT.

Global Instance ConnectionType_eq_dec : EqDecision ConnectionType.
Proof. solve_decision. Defined.

(** A connection of a block: [connection.type], [connection.getParentInput()]
    (only the [name] of the input is ever read; [None] is [null]) and
    [connection.targetBlock()] (only the [id] of the target is ever read;
    [None] is [null], a dangling connection). *)
Record Connection := {
  conn_type : ConnectionType;
  getParentInput : option string;
  targetBlock : option string
}.

(** ** JavaScript values *)

(** The structure of a JSON document. *)
Inductive Json :=
  | JNull
  | JBool (b : bool)
  | JNumber (n : Z)
  | JString (s : string)
  | JArray (elems : list Json)
  | JObject (props : list (string * Json)).

(** What an object of the heap holds: the elements of an array or the
    properties of a plain object. *)
Inductive Compound :=
  | CArray (elems : list Json)
  | CObject (props : list (string * Json)).

(** A value as the code sees it. A primitive is its own identity. An object or
    array lives at an address of the JavaScript heap ([addr] is its identity)
    and holds [content]. [VFunction] is a built-in function, identified by its
    name. Numbers are abstracted to integers. *)
Inductive JsValue :=
  | VUndefined
  | VNull
  | VBool (b : bool)
  | VNumber (n : Z)
  | VString (s : string)
  | VObject (addr : nat) (content : Compound)
  | VFunction (name : string).

(** [a === b]: primitives by value, objects and functions by identity. *)
Definition strict_equals (a b : JsValue) : bool :=
  match a, b with
  | VUndefined, VUndefined => true
  | VNull, VNull => true
  | VBool x, VBool y => bool_decide (x = y)
  | VNumber x, VNumber y => bool_decide (x = y)
  | VString x, VString y => bool_decide (x = y)
  | VObject x _, VObject y _ => bool_decide (x = y)
  | VFunction x, VFunction y => bool_decide (x = y)
  | _, _ => false
  end.

(** Structural equality of two JSON documents. *)
Fixpoint json_eqb (a b : Json) : bool :=
  match a, b with
  | JNull, JNull => true
  | JBool x, JBool y => bool_decide (x = y)
  | JNumber x, JNumber y => bool_decide (x = y)
  | JString x, JString y => bool_decide (x = y)
  | JArray xs, JArray ys =>
      (fix all2 (xs ys : list Json) : bool :=
         match xs, ys with
         | [], [] => true
         | x :: xs', y :: ys' => json_eqb x y && all2 xs' ys'
         | _, _ => false
         end) xs ys
  | JObject ps, JObject qs =>
      (fix all2 (ps qs : list (string * Json)) : bool :=
         match ps, qs with
         | [], [] => true
         | (k, x) :: ps', (l, y) :: qs' =>
             bool_decide (k = l) && json_eqb x y && all2 ps' qs'
         | _, _ => false
         end) ps qs
  | _, _ => false
  end.

(** The JSON document a value serializes to, if it is JSON-compatible. *)
Definition json_of (v : JsValue) : option Json :=
  match v with
  | VNull => Some JNull
  | VBool b => Some (JBool b)
  | VNumber n => Some (JNumber n)
  | VString s => Some (JString s)
  | VObject _ (CArray elems) => Some (JArray elems)
  | VObject _ (CObject props) => Some (JObject props)
  | VUndefined | VFunction _ => None
  end.

Definition json_compatible (v : JsValue) : bool :=
  match json_of v with Some _ => true | None => false end.

(** Deep (structural) equality as the specification words it: two values are
    deep-equal when they serialize to the same document, whatever their
    identities. *)
Definition deep_equals (a b : JsValue) : bool :=
  match json_of a, json_of b with
  | Some x, Some y => json_eqb x y
  | _, _ => false
  end.

(** [v === undefined] *)
Definition is_undefined (v : JsValue) : bool :=
  match v with VUndefined => true | _ => false end.

(** [null], booleans, numbers and strings. *)
Definition is_primitive (v : JsValue) : bool :=
  match v with
  | VNull | VBool _ | VNumber _ | VString _ => true
  | _ => false
  end.

(** ** JavaScript objects used as dictionaries *)

(** An object: its prototype ([None] is [null]) and its own enumerable
    properties in the order they were created. *)
Inductive JsObject :=
  | mkObject (proto : option JsObject) (own : list (string * JsValue)).

Definition proto (o : JsObject) : option JsObject :=
  match o with mkObject p _ => p end.

Definition own (o : JsObject) : list (string * JsValue) :=
  match o with mkObject _ ps => ps end.

Fixpoint lookup_own (ps : list (string * JsValue)) (key : string) : option JsValue :=
  match ps with
  | [] => None
  | (k, v) :: ps' => if decide (k = key) then Some v else lookup_own ps' key
  end.

(** [Object.prototype.hasOwnProperty.call(o, key)] *)
Definition hasOwn (o : JsObject) (key : string) : bool :=
  match lookup_own (own o) key with Some _ => true | None => false end.

(** [o[key]]: own properties first, then the prototype chain, else
    [undefined]. *)
Fixpoint js_get (o : JsObject) (key : string) : JsValue :=
  match o with
  | mkObject p ps =>
      match lookup_own ps key with
      | Some v => v
      | None => match p with
                | Some p' => js_get p' key
                | None => VUndefined
                end
      end
  end.

(** [key in o] *)
Fixpoint js_in (key : string) (o : JsObject) : bool :=
  match o with
  | mkObject p ps =>
      match lookup_own ps key with
      | Some _ => true
      | None => match p with
                | Some p' => js_in key p'
                | None => false
                end
      end
  end.

Fixpoint update_own (ps : list (string * JsValue)) (key : string) (v : JsValue)
  : list (string * JsValue) :=
  match ps with
  | [] => [(key, v)]
  | (k, w) :: ps' =>
      if decide (k = key) then (k, v) :: ps' else (k, w) :: update_own ps' key v
  end.

(** [o[key] = v] on an object without setters on its prototype chain: the own
    property is overwritten in place, or created after the existing ones. *)
Definition js_set (o : JsObject) (key : string) (v : JsValue) : JsObject :=
  mkObject (proto o) (update_own (own o) key v).

(** [Object.prototype], as far as the names it defines matter. *)
Definition Object_prototype : JsObject :=
  mkObject None
    [("constructor", VFunction "Object");
     ("hasOwnProperty", VFunction "hasOwnProperty");
     ("isPrototypeOf", VFunction "isPrototypeOf");
     ("propertyIsEnumerable", VFunction "propertyIsEnumerable");
     ("toLocaleString", VFunction "toLocaleString");
     ("toString", VFunction "toString");
     ("valueOf", VFunction "valueOf")].

(** [Object.create(null)] *)
Definition Object_create_null : JsObject := mkObject None [].

(** The object literal [{}], for comparison. *)
Definition object_literal : JsObject := mkObject (Some Object_prototype) [].

(** *** Enumeration order of [Object.entries] *)

Definition is_digit (c : ascii) : bool :=
  let n := Ascii.nat_of_ascii c in (48 <=? n)%nat && (n <=? 57)%nat.

Fixpoint all_digits (s : string) : bool :=
  match s with
  | EmptyString => true
  | String c s' => is_digit c && all_digits s'
  end.

Fixpoint decimal_value (acc : N) (s : string) : N :=
  match s with
  | EmptyString => acc
  | String c s' =>
      decimal_value (10 * acc + N.of_nat (Ascii.nat_of_ascii c - 48))%N s'
  end.

(** A property key is an array index when it is the canonical decimal
    writing of an integer between 0 and 2^32 - 2. *)
Definition array_index (key : string) : option N :=
  match key with
  | EmptyString => None
  | String c rest =>
      if all_digits key
         && (negb (Ascii.eqb c "0"%char) || bool_decide (rest = ""))
         && (decimal_value 0 key <=? 4294967294)%N
      then Some (decimal_value 0 key)
      else None
  end.

Fixpoint insert_by_index (e : N * (string * JsValue))
    (l : list (N * (string * JsValue))) : list (N * (string * JsValue)) :=
  match l with
  | [] => [e]
  | e' :: l' =>
      if (e.1 <=? e'.1)%N then e :: l else e' :: insert_by_index e l'
  end.

Definition index_entries (ps : list (string * JsValue))
  : list (N * (string * JsValue)) :=
  omap (fun p => match array_index p.1 with
                 | Some n => Some (n, p)
                 | None => None
                 end) ps.

Definition named_entries (ps : list (string * JsValue))
  : list (string * JsValue) :=
  filter (fun p => array_index p.1 = None) ps.

(** [Object.entries(o)]: own properties, array-index keys first in ascending
    numeric order, then the other keys in creation order. *)
Definition Object_entries (o : JsObject) : list (string * JsValue) :=
  (foldr insert_by_index [] (index_entries (own o))).*2 ++ named_entries (own o).

(** A field of an input: [field.name], [field.isSerializable()] and the value
    that [field.saveState(true)] returns. *)
Record Field := {
  field_name : string;
  isSerializable : bool;
  saveState : JsValue
}.

(** An input of a block: [input.name] and [input.fieldRow]. *)
Record Input := {
  input_name : string;
  fieldRow : list Field
}.

(** A block: [block.id], [block.getConnections_()], [block.inputList] and
    [block.getRelativeToSurfaceXY()] as the pair [(x, y)]. *)
Record Block := {
  block_id : string;
  getConnections_ : list Connection;
  inputList : list Input;
  getRelativeToSurfaceXY : Z * Z
}.

(** The two workspaces of the page. *)
Inductive Side := Mine | Previous.

Global Instance Side_eq_dec : EqDecision Side.
Proof. solve_decision. Defined.

(** [workspace.getMetrics()] *)
Record Metrics := { scrollLeft : Z; scrollTop : Z }.

(** A workspace: which of the two it is, [workspace.id],
    [workspace.getAllBlocks()], [workspace.scrollY], [workspace.scale] and
    [workspace.getMetrics()]. *)
Record Workspace := {
  ws_side : Side;
  ws_id : string;
  getAllBlocks : list Block;
  scrollY : Z;
  scale : Z;
  getMetrics : Metrics
}.

(** [workspace.getBlockById(id)]; [None] is [null]. *)
Definition getBlockById (w : Workspace) (id : string) : option Block :=
  find (fun b => bool_decide (block_id b = id)) (getAllBlocks w).

(** [block.getField(name)]: the first field of that name over the inputs in
    order; [None] is [null]. *)
Definition getField (block : Block) (name : string) : option Field :=
  find (fun f => bool_decide (field_name f = name))
       (flat_map fieldRow (inputList block)).

(** An event of the workspace event bus: [event.type], [event.workspaceId],
    [event.blockId] and [event.newElementId] ([None] is [undefined]). *)
Record Event := {
  ev_type : string;
  workspaceId : string;
  blockId : option string;
  newElementId : option string
}.

(** Truthiness of an optional string: [undefined] and [""] are falsy. *)
Definition truthy (s : option string) : bool :=
  match s with
  | Some s' => negb (bool_decide (s' = ""))
  | None => false
  end.

(** ** Fingerprints *)

(** [get_ids(blocks)] *)
Definition get_ids (blocks : list Block) : JsSet.t :=
  fold_left (fun ids block => JsSet.add ids (block_id block)) blocks JsSet.empty.

(** [block.id + ' ' + name + ' ' + target_id] *)
Definition edge_key (source name target_id : string) : string :=
  source +:+ " " +:+ name +:+ " " +:+ target_id.

(** The key of one next-statement connection of the block with identity
    [source]: the name of the parent input or ['next'], the identity of the
    target or ['none']. *)
Definition connection_key (source : string) (connection : Connection) : string :=
  let name := match getParentInput connection with
              | Some input_name => input_name
              | None => "next"
              end in
  let target_id := match targetBlock connection with
                   | Some target => target
                   | None => "none"
                   end in
  edge_key source name target_id.

(** [get_connections(blocks)] *)
Definition get_connections (blocks : list Block) : JsSet.t :=
  fold_left
    (fun connections_set block =>
       fold_left
         (fun connections_set connection =>
            if decide (conn_type connection = NEXT_STATEMENT)
            then JsSet.add connections_set
                   (connection_key (block_id block) connection)
            else connections_set)
         (getConnections_ block) connections_set)
    blocks JsSet.empty.

(** [s.split(sep)] for a separator of one character. *)
Fixpoint split (sep : ascii) (s : string) : list string :=
  match s with
  | EmptyString => [""]
  | String c s' =>
      if Ascii.eqb c sep then "" :: split sep s'
      else match split sep s' with
           | w :: ws => String c w :: ws
           | [] => [String c ""]
           end
  end.

(** ** Field state *)

(** [saveFields(block)] *)
Definition saveFields (block : Block) : JsObject :=
  fold_left
    (fun fields input =>
       fold_left
         (fun fields field =>
            if isSerializable field
            then js_set fields (field_name field) (saveState field)
            else fields)
         (fieldRow input) fields)
    (inputList block) Object_create_null.

(** The test of the field loop of [show_diffs]:
    [previous_state[key] === value]. *)
Definition field_equal (previous_state : JsObject) (key : string) (value : JsValue)
  : bool :=
  strict_equals (js_get previous_state key) value.

(** The verdicts of one common block: for each entry of the mine-side state,
    in enumeration order, whether the valid ([true]) or the invalid ([false])
    branch is taken. *)
Definition field_verdicts (mine_block previous_block : Block)
  : list (string * bool) :=
  let mine_state := saveFields mine_block in
  let previous_state := saveFields previous_block in
  map (fun '(key, value) => (key, field_equal previous_state key value))
      (Object_entries mine_state).

(** ** Effects: mutable page state and exceptions *)

(** How a call ends: it returns a value or throws. *)
Inductive Outcome (A : Type) :=
  | Return (a : A)
  | Throw (error : string).

Arguments Return {A} a.
Arguments Throw {A} error.

Global Instance Outcome_eq_dec {A} `{EqDecision A} : EqDecision (Outcome A).
Proof. solve_decision. Defined.

(** A computation over the mutable state [S]. What was mutated before a
    [Throw] stays mutated. *)
Definition Eff (S A : Type) : Type := S → S * Outcome A.

Definition ret {S A} (a : A) : Eff S A := fun s => (s, Return a).

Definition throw {S A} (error : string) : Eff S A := fun s => (s, Throw error).

Definition bind {S A B} (m : Eff S A) (k : A → Eff S B) : Eff S B :=
  fun s =>
    match m s with
    | (s', Return a) => k a s'
    | (s', Throw error) => (s', Throw error)
    end.

Notation "'let*' x ':=' m 'in' k" := (bind m (fun x => k))
  (at level 10, x name, m at level 100, k at level 200, only parsing).
Notation "m >> k" := (bind m (fun _ => k))
  (at level 100, right associativity, only parsing).

(** [for (const x of xs) body(x)] and the counting loops over an array. *)
Fixpoint for_of {S A} (xs : list A) (body : A → Eff S unit) : Eff S unit :=
  match xs with
  | [] => ret tt
  | x :: xs' => body x >> for_of xs' body
  end.

(** Reading a member of [o]: a [TypeError] when [o] is [null] or
    [undefined]. *)
Definition TypeError : string := "TypeError".

Definition member_of {S A} (o : option A) : Eff S A :=
  match o with
  | Some a => ret a
  | None => throw TypeError
  end.

(** The state a computation leaves behind. *)
Definition final_state {S A} (m : Eff S A) (s : S) : S := (m s).1.

(** *** Decorations *)

(** The SVG elements that receive CSS classes: the path of a block
    ([block.pathObject.svgPath]) and the first child of the root of a field
    ([block.getField(name).getSvgRoot().children[0]]). *)
Inductive Element :=
  | BlockPath (w : Side) (block : string)
  | FieldRect (w : Side) (block : string) (field : string).

(** One bit of decoration: an element carries a class, or the connection
    number [j] of a block has a highlight path. *)
Inductive Mark :=
  | HasClass (e : Element) (cls : string)
  | Highlighted (w : Side) (block : string) (j : nat).

Global Instance Element_eq_dec : EqDecision Element.
Proof. solve_decision. Defined.

Global Instance Mark_eq_dec : EqDecision Mark.
Proof. solve_decision. Defined.

Definition Side_to_bool (w : Side) : bool :=
  match w with Mine => true | Previous => false end.

Definition Side_of_bool (b : bool) : Side := if b then Mine else Previous.

Global Instance Side_countable : Countable Side.
Proof. apply (inj_countable' Side_to_bool Side_of_bool). by intros []. Defined.

Definition Element_to_sum (e : Element) : Side * string + Side * string * string :=
  match e with
  | BlockPath w b => inl (w, b)
  | FieldRect w b f => inr (w, b, f)
  end.

Definition Element_of_sum (x : Side * string + Side * string * string) : Element :=
  match x with
  | inl (w, b) => BlockPath w b
  | inr (w, b, f) => FieldRect w b f
  end.

Global Instance Element_countable : Countable Element.
Proof. apply (inj_countable' Element_to_sum Element_of_sum). by intros []. Defined.

Definition Mark_to_sum (m : Mark) : Element * string + Side * string * nat :=
  match m with
  | HasClass e c => inl (e, c)
  | Highlighted w b j => inr (w, b, j)
  end.

Definition Mark_of_sum (x : Element * string + Side * string * nat) : Mark :=
  match x with
  | inl (e, c) => HasClass e c
  | inr (w, b, j) => Highlighted w b j
  end.

Global Instance Mark_countable : Countable Mark.
Proof. apply (inj_countable' Mark_to_sum Mark_of_sum). by intros []. Defined.

(** The decoration state of the page: the marks that are on. *)
Abbreviation Deco := (gset Mark).

(** [Blockly.utils.dom.addClass(element, cls)] *)
Definition addClass (e : Element) (cls : string) : Eff Deco unit :=
  fun d => ({[HasClass e cls]} ∪ d, Return tt).

(** [Blockly.utils.dom.removeClass(element, cls)] *)
Definition removeClass (e : Element) (cls : string) : Eff Deco unit :=
  fun d => (d ∖ {[HasClass e cls]}, Return tt).

(** [connection.highlightPath], as a truth value. *)
Definition highlightPath (w : Side) (block : string) (j : nat) : Eff Deco bool :=
  fun d => (d, Return (bool_decide (Highlighted w block j ∈ d))).

(** [connection.highlight()] *)
Definition highlight (w : Side) (block : string) (j : nat) : Eff Deco unit :=
  fun d => ({[Highlighted w block j]} ∪ d, Return tt).

(** [connection.unhighlight()] *)
Definition unhighlight (w : Side) (block : string) (j : nat) : Eff Deco unit :=
  fun d => (d ∖ {[Highlighted w block j]}, Return tt).

(** A block together with the workspace that owns it. *)
Definition BlockHandle : Type := Side * Block.

Definition blockById (w : Workspace) (id : string) : option BlockHandle :=
  match getBlockById w id with
  | Some b => Some (ws_side w, b)
  | None => None
  end.

(** [unhighlightCommon(currentBlock)] *)
Definition unhighlightCommon (currentBlock : option BlockHandle) : Eff Deco unit :=
  let* b := member_of currentBlock in
  let path := BlockPath b.1 (block_id b.2) in
  removeClass path "blockly-ws-merge-highlight-mine-added" >>
  removeClass path "blockly-ws-merge-highlight-mine-removed".

(** [highlightMineAdded(currentBlock)] *)
Definition highlightMineAdded (currentBlock : option BlockHandle) : Eff Deco unit :=
  let* b := member_of currentBlock in
  let path := BlockPath b.1 (block_id b.2) in
  addClass path "blockly-ws-merge-highlight-mine-added".

(** [highlightMineRemoved(currentBlock)] *)
Definition highlightMineRemoved (currentBlock : option BlockHandle) : Eff Deco unit :=
  let* b := member_of currentBlock in
  let path := BlockPath b.1 (block_id b.2) in
  addClass path "blockly-ws-merge-highlight-mine-removed".

(** [apply_valid(block, key)] *)
Definition apply_valid (block : option BlockHandle) (key : string) : Eff Deco unit :=
  let* b := member_of block in
  let* field := member_of (getField b.2 key) in
  removeClass (FieldRect b.1 (block_id b.2) (field_name field)) "blocklyInvalidInput".

(** [apply_invalid(block, key)] *)
Definition apply_invalid (block : option BlockHandle) (key : string) : Eff Deco unit :=
  let* b := member_of block in
  let* field := member_of (getField b.2 key) in
  addClass (FieldRect b.1 (block_id b.2) (field_name field)) "blocklyInvalidInput".

(** The connections of a block with their positions [j]. *)
Definition indexed {A} (l : list A) : list (nat * A) := imap (fun j a => (j, a)) l.

(** [sp[i]] as a block identity or input name; [None] is [undefined]. *)
Definition is_name (sp_i : option string) (name : string) : bool :=
  bool_decide (sp_i = Some name).

(** [unhighlight_connections(connections_same, this_workspace)] *)
Definition unhighlight_connections (connections_same : JsSet.t)
    (this_workspace : Workspace) : Eff Deco unit :=
  for_of connections_same (fun id =>
    let sp := split " " id in
    let from_id := sp !! 0%nat in
    let input_name := sp !! 1%nat in
    let target_id := sp !! 2%nat in
    let* block := member_of (from_id ≫= blockById this_workspace) in
    let connections := getConnections_ block.2 in
    for_of (indexed connections) (fun '(j, connection) =>
      if decide (conn_type connection = NEXT_STATEMENT) then
        match getParentInput connection with
        | Some input =>
            if is_name input_name input then
              let* lit := highlightPath block.1 (block_id block.2) j in
              if lit then unhighlight block.1 (block_id block.2) j else ret tt
            else ret tt
        | None =>
            if is_name input_name "next" then
              let* lit := highlightPath block.1 (block_id block.2) j in
              if lit then unhighlight block.1 (block_id block.2) j else ret tt
            else ret tt
        end
      else ret tt)).

(** [highlight_connections(connections_diff, this_workspace)] *)
Definition highlight_connections (connections_diff : JsSet.t)
    (this_workspace : Workspace) : Eff Deco unit :=
  for_of connections_diff (fun id =>
    let sp := split " " id in
    let from_id := sp !! 0%nat in
    let input_name := sp !! 1%nat in
    let target_id := sp !! 2%nat in
    let* block := member_of (from_id ≫= blockById this_workspace) in
    let connections := getConnections_ block.2 in
    for_of (indexed connections) (fun '(j, connection) =>
      if decide (conn_type connection = NEXT_STATEMENT) then
        match getParentInput connection with
        | Some input =>
            if is_name input_name input then
              let* lit := highlightPath block.1 (block_id block.2) j in
              if negb lit then highlight block.1 (block_id block.2) j else ret tt
            else ret tt
        | None =>
            if is_name input_name "next" then
              let* lit := highlightPath block.1 (block_id block.2) j in
              if negb lit then highlight block.1 (block_id block.2) j else ret tt
            else ret tt
        end
      else ret tt)).

(** [show_diffs(event)], over the two workspaces of the page. *)
Definition show_diffs (event : Event) (mine_workspace previous_workspace : Workspace)
  : Eff Deco unit :=
  let mine_blocks := getAllBlocks mine_workspace in
  let previous_blocks := getAllBlocks previous_workspace in
  let mine_ids := get_ids mine_blocks in
  let previous_ids := get_ids previous_blocks in
  let ids_added_mine := difference mine_ids previous_ids in
  let ids_removed_mine := difference previous_ids mine_ids in
  let ids_common := intersection mine_ids previous_ids in
  for_of ids_added_mine (fun id =>
    let mine_block := blockById mine_workspace id in
    highlightMineAdded mine_block) >>
  for_of ids_removed_mine (fun id =>
    let previous_block := blockById previous_workspace id in
    highlightMineRemoved previous_block) >>
  for_of ids_common (fun id =>
    let previous_block := blockById previous_workspace id in
    let mine_block := blockById mine_workspace id in
    unhighlightCommon previous_block >>
    unhighlightCommon mine_block) >>
  let mine_connections := get_connections mine_blocks in
  let previous_connections := get_connections previous_blocks in
  let connections_added_mine := difference mine_connections previous_connections in
  let connections_remove_mine := difference previous_connections mine_connections in
  let connections_common := intersection previous_connections mine_connections in
  highlight_connections connections_added_mine mine_workspace >>
  highlight_connections connections_remove_mine previous_workspace >>
  unhighlight_connections connections_common mine_workspace >>
  unhighlight_connections connections_common previous_workspace >>
  for_of ids_common (fun id =>
    let previous_block := blockById previous_workspace id in
    let mine_block := blockById mine_workspace id in
    let* mine_state := (let* b := member_of mine_block in ret (saveFields b.2)) in
    let* previous_state :=
      (let* b := member_of previous_block in ret (saveFields b.2)) in
    for_of (Object_entries mine_state) (fun '(key, value) =>
      if field_equal previous_state key value then
        apply_valid mine_block key >>
        apply_valid previous_block key
      else
        apply_invalid mine_block key >>
        apply_invalid previous_block key)).

(** ** Scroll synchronizer *)

(** One call [workspace.scrollbar.set(x, y)] on the workspace [target]. *)
Record ScrollbarSet := { target : Side; set_x : Z; set_y : Z }.

(** The state of the synchronizer: the global [busy] and the calls to
    [scrollbar.set] issued so far, latest first. *)
Record Sync := { busy : bool; scrollbar_calls : list ScrollbarSet }.

Definition set_busy (b : bool) : Eff Sync unit :=
  fun s => ({| busy := b; scrollbar_calls := scrollbar_calls s |}, Return tt).

Definition get_busy : Eff Sync bool := fun s => (s, Return (busy s)).

Definition scrollbar_set (w : Side) (x y : Z) : Eff Sync unit :=
  fun s =>
    ({| busy := busy s;
        scrollbar_calls := {| target := w; set_x := x; set_y := y |} :: scrollbar_calls s |},
     Return tt).

(** [scroll(event)], over the two workspaces of the page. The loop stops at
    the first block below the scroll offset; when there is none,
    [top_left_block_id] stays [undefined] and [getBlockById] answers
    [null]. *)
Definition scroll (event : Event) (mine_workspace previous_workspace : Workspace)
  : Eff Sync unit :=
  if bool_decide (ev_type event = "viewport_change") then
    let* is_busy := get_busy in
    if is_busy then
      set_busy false
    else
      set_busy true >>
      let '(other_workspace, this_workspace) :=
        if bool_decide (workspaceId event = ws_id mine_workspace)
        then (previous_workspace, mine_workspace)
        else (mine_workspace, previous_workspace) in
      let metrics := getMetrics other_workspace in
      let all_blocks := getAllBlocks this_workspace in
      let top_left_block :=
        find (fun block =>
                bool_decide ((getRelativeToSurfaceXY block).2 > - scrollY this_workspace)%Z)
             all_blocks in
      match top_left_block ≫= (fun block => getBlockById other_workspace (block_id block)),
            top_left_block with
      | Some corresponding_block, Some block =>
          let top_left_block_xy := getRelativeToSurfaceXY block in
          let left_xy := getRelativeToSurfaceXY corresponding_block in
          scrollbar_set (ws_side other_workspace)
            (left_xy.1 * scale other_workspace - scrollLeft metrics)%Z
            (left_xy.2 * scale other_workspace - scrollTop metrics
             - top_left_block_xy.2 - scrollY this_workspace)%Z
      | _, _ => ret tt
      end
  else ret tt.

(** ** Selection bridge *)

(** The state the workspace-search plugin acts on: the classes on the block
    paths and the blocks scrolled into view so far, latest first. *)
Record Search := { search_classes : Deco; scrolled_to : list (Side * string) }.

Definition on_classes {A} (m : Eff Deco A) : Eff Search A :=
  fun s =>
    let '(d, r) := m (search_classes s) in
    ({| search_classes := d; scrolled_to := scrolled_to s |}, r).

(** [workspaceSearch.unhighlightSearchGroup_(blocks)] *)
Definition unhighlightSearchGroup_ (blocks : list BlockHandle) : Eff Search unit :=
  for_of blocks (fun b =>
    on_classes (removeClass (BlockPath b.1 (block_id b.2)) "blockly-ws-search-highlight")).

(** [workspaceSearch.highlightSearchGroup_(blocks)] *)
Definition highlightSearchGroup_ (blocks : list BlockHandle) : Eff Search unit :=
  for_of blocks (fun b =>
    on_classes (addClass (BlockPath b.1 (block_id b.2)) "blockly-ws-search-highlight")).

(** [workspaceSearch.highlightCurrentSelection_(block)] *)
Definition highlightCurrentSelection_ (b : BlockHandle) : Eff Search unit :=
  on_classes (addClass (BlockPath b.1 (block_id b.2)) "blockly-ws-search-current").

(** [workspaceSearch.scrollToVisible_(block)] *)
Definition scrollToVisible_ (b : BlockHandle) : Eff Search unit :=
  fun s =>
    ({| search_classes := search_classes s;
        scrolled_to := (b.1, block_id b.2) :: scrolled_to s |}, Return tt).

(** The blocks of a workspace, each with its owner. *)
Definition allBlocks (w : Workspace) : list BlockHandle :=
  map (fun b => (ws_side w, b)) (getAllBlocks w).

(** [myMineSelection(event)], acting on the previous workspace;
    [block.workspace] is the workspace the block was looked up in. *)
Definition myMineSelection (event : Event) (previous_workspace : Workspace)
  : Eff Search unit :=
  (if bool_decide (ev_type event = "click") && negb (truthy (blockId event))
   then unhighlightSearchGroup_ (allBlocks previous_workspace)
   else ret tt) >>
  if bool_decide (ev_type event = "selected") then
    if truthy (newElementId event) then
      let block := newElementId event ≫= blockById previous_workspace in
      let* b := member_of block in
      unhighlightSearchGroup_ (allBlocks previous_workspace) >>
      highlightSearchGroup_ [b] >>
      highlightCurrentSelection_ b >>
      scrollToVisible_ b
    else ret tt
  else ret tt.

(** [myPreviousSelection(event)], acting on the mine workspace. *)
Definition myPreviousSelection (event : Event) (mine_workspace : Workspace)
  : Eff Search unit :=
  if bool_decide (ev_type event = "selected") then
    if truthy (newElementId event) then
      let block := newElementId event ≫= blockById mine_workspace in
      let* b := member_of block in
      unhighlightSearchGroup_ (allBlocks mine_workspace) >>
      highlightSearchGroup_ [b] >>
      highlightCurrentSelection_ b >>
      scrollToVisible_ b
    else ret tt
  else ret tt.

(** ** The specification's view of the edge keys *)

(** The next-statement connections of a list of blocks, each with the
    identity of the block it belongs to, in the order the loops meet them. *)
Definition next_statement_connections (blocks : list Block)
  : list (string * Connection) :=
  flat_map
    (fun block =>
       map (fun connection => (block_id block, connection))
           (filter (fun connection => conn_type connection = NEXT_STATEMENT)
                   (getConnections_ block)))
    blocks.

(** The edge key the specification gives a connection: source identity, name
    of the input slot or the sentinel "next", identity of the target or the
    sentinel "none", joined by single spaces. *)
Definition spec_edge_key (sc : string * Connection) : string :=
  sc.1 +:+ " " +:+ default "next" (getParentInput sc.2)
       +:+ " " +:+ default "none" (targetBlock sc.2).

(** Whether the character [c] occurs in [s]. *)
Fixpoint occurs (c : ascii) (s : string) : bool :=
  match s with
  | EmptyString => false
  | String c' s' => Ascii.eqb c' c || occurs c s'
  end.

(** The serializable fields of a block, inputs in order, fields in order. *)
Definition serializable_fields (block : Block) : list Field :=
  filter (fun field => isSerializable field = true)
         (flat_map fieldRow (inputList block)).

(** ** Decoration writes *)

(** Switching one mark on or off. *)
Definition Write : Type := Mark * bool.

Definition apply_write (d : Deco) (w : Write) : Deco :=
  if w.2 then {[w.1]} ∪ d else d ∖ {[w.1]}.

Definition apply_writes (ws : list Write) (d : Deco) : Deco :=
  fold_left apply_write ws d.

(** What a list of writes leaves in a mark: the value of the last write to
    it, if any. *)
Fixpoint last_write (ws : list Write) (m : Mark) : option bool :=
  match ws with
  | [] => None
  | w :: ws' =>
      match last_write ws' m with
      | Some b => Some b
      | None => if decide (w.1 = m) then Some w.2 else None
      end
  end.

(** A computation is scripted when its outcome and the writes it performs do
    not depend on the decoration it starts from. *)
Definition scripted {A} (m : Eff Deco A) : Prop :=
  ∃ (ws : list Write) (r : Outcome A), ∀ d, m d = (apply_writes ws d, r).

(** ** Further functions of [editor.js] *)

(** [highlightValueChanged(currentBlock)] *)
Definition highlightValueChanged (currentBlock : option BlockHandle) : Eff Deco unit :=
  let* b := member_of currentBlock in
  let path := BlockPath b.1 (block_id b.2) in
  addClass path "blockly-ws-merge-highlight-value-changed".

(** [highLight(event)], over the main workspace: every next-statement
    connection of every block is highlighted. *)
Definition highLight (event : Event) (main_workspace : Workspace) : Eff Deco unit :=
  let blocks := getAllBlocks main_workspace in
  for_of blocks (fun block =>
    let connections := getConnections_ block in
    for_of (indexed connections) (fun '(j, connection) =>
      if decide (conn_type connection = NEXT_STATEMENT)
      then highlight (ws_side main_workspace) (block_id block) j
      else ret tt)).

(** ** Properties of decorating computations *)

(** The computation changes no mark outside of [P]. *)
Definition changes_only {A} (P : Mark → Prop) (f : Eff Deco A) : Prop :=
  ∀ d m, ¬ P m → (m ∈ (f d).1 ↔ m ∈ d).

(** The computation returns, from every decoration. *)
Definition never_throws {A} (f : Eff Deco A) : Prop :=
  ∀ d, ∃ a, (f d).2 = Return a.

(** The classes of the highlight driver. *)
Definition mine_added : string := "blockly-ws-merge-highlight-mine-added".
Definition mine_removed : string := "blockly-ws-merge-highlight-mine-removed".
Definition invalid_input : string := "blocklyInvalidInput".

(** The marks [show_diffs] may change: the two merge classes on block paths,
    the invalid class on fields, and the connection highlights. *)
Definition driver_mark (m : Mark) : bool :=
  match m with
  | HasClass (BlockPath _ _) cls =>
      bool_decide (cls = mine_added) || bool_decide (cls = mine_removed)
  | HasClass (FieldRect _ _ _) cls => bool_decide (cls = invalid_input)
  | Highlighted _ _ _ => true
  end.

(** Among them, the marks that are not on a block path. *)
Definition field_or_connection_mark (m : Mark) : bool :=
  match m with
  | HasClass (BlockPath _ _) _ => false
  | HasClass (FieldRect _ _ _) cls => bool_decide (cls = invalid_input)
  | Highlighted _ _ _ => true
  end.

(** The marks the third loop of [show_diffs] clears for one identity. *)
Definition cleared_marks (mine previous : Side) (id : string) : list Mark :=
  [HasClass (BlockPath previous id) mine_added;
   HasClass (BlockPath previous id) mine_removed;
   HasClass (BlockPath mine id) mine_added;
   HasClass (BlockPath mine id) mine_removed].

(** The decoration after the three block loops of [show_diffs], from the
    decoration [d]. *)
Definition after_block_loops (mine previous : Workspace) (d : Deco) : Deco :=
  let mine_ids := get_ids (getAllBlocks mine) in
  let previous_ids := get_ids (getAllBlocks previous) in
  (list_to_set ((fun id => HasClass (BlockPath (ws_side previous) id) mine_removed)
                  <$> difference previous_ids mine_ids)
   ∪ (list_to_set ((fun id => HasClass (BlockPath (ws_side mine) id) mine_added)
                     <$> difference mine_ids previous_ids)
      ∪ d))
  ∖ list_to_set (intersection mine_ids previous_ids
                   ≫= cleared_marks (ws_side mine) (ws_side previous)).

(** No block of the workspace has a space in its identity. *)
Definition ids_without_space (w : Workspace) : bool :=
  forallb (fun block => negb (occurs " " (block_id block))) (getAllBlocks w).

(** Every name in the field state of a block of mine is the name of a field
    of the block of the same identity in previous, for the identities the two
    workspaces share. *)
Definition fields_resolve (mine previous : Workspace) : bool :=
  forallb
    (fun id =>
       match getBlockById mine id, getBlockById previous id with
       | Some mine_block, Some previous_block =>
           forallb
             (fun key => bool_decide (is_Some (getField previous_block key)))
             (own (saveFields mine_block)).*1
       | _, _ => true
       end)
    (intersection (get_ids (getAllBlocks mine)) (get_ids (getAllBlocks previous))).

(** The computation throws [e], from every decoration. *)
Definition always_throws {A} (e : string) (f : Eff Deco A) : Prop :=
  ∀ d, (f d).2 = Throw e.

(** The computation returns or throws [e], nothing else. *)
Definition throws_only {A} (e : string) (f : Eff Deco A) : Prop :=
  ∀ d, (∃ a, (f d).2 = Return a) ∨ (f d).2 = Throw e.

(** The computation leaves the mark [m] on exactly when [v] is true, whatever
    the decoration it starts from. *)
Definition assigns {A} (m : Mark) (v : bool) (f : Eff Deco A) : Prop :=
  ∀ d, m ∈ (f d).1 ↔ v = true.

(** The computation leaves the mark [m] as it was. *)
Definition preserves {A} (m : Mark) (f : Eff Deco A) : Prop :=
  ∀ d, m ∈ (f d).1 ↔ m ∈ d.

(** Two computations are mirrored when they end the same way, the first
    having switched on the marks that the second switches off. *)
Definition mirrored {A} (f g : Eff Deco A) : Prop :=
  ∃ (marks : gset Mark) (r : Outcome A),
    (∀ d, f d = (marks ∪ d, r)) ∧ (∀ d, g d = (d ∖ marks, r)).

(** The computation switches no mark off. *)
Definition only_adds {A} (f : Eff Deco A) : Prop :=
  ∀ d m, m ∈ d → m ∈ (f d).1.

(** The events the scroll listener receives one after the other, each with
    the two workspaces as they are when it arrives. *)
Definition scroll_all (steps : list (Event * Workspace * Workspace)) : Eff Sync unit :=
  for_of steps (fun '(event, mine_workspace, previous_workspace) =>
    scroll event mine_workspace previous_workspace).

(** The viewport changes among them. *)
Definition viewport_changes (steps : list (Event * Workspace * Workspace)) : nat :=
  length (filter (fun step => ev_type step.1.1 = "viewport_change") steps).

(** The block [scroll] aligns the other workspace on, as the handler of a
    viewport change looks it up: the counterpart of the first block of the
    event's workspace that lies below its scroll offset. *)
Definition scroll_counterpart (event : Event) (mine_workspace previous_workspace : Workspace)
  : option Block :=
  let '(other_workspace, this_workspace) :=
    if bool_decide (workspaceId event = ws_id mine_workspace)
    then (previous_workspace, mine_workspace)
    else (mine_workspace, previous_workspace) in
  find (fun block =>
          bool_decide ((getRelativeToSurfaceXY block).2 > - scrollY this_workspace)%Z)
       (getAllBlocks this_workspace)
  ≫= (fun block => getBlockById other_workspace (block_id block)).

(** The classes of the workspace search. *)
Definition search_highlight : string := "blockly-ws-search-highlight".
Definition search_current : string := "blockly-ws-search-current".

(** ** The mergeable format: [replace_blocks] *)

(** The objects [Blockly.serialization.blocks.save] builds, as
    [replace_blocks] meets them: plain data in which no object is reachable
    twice, so that changing an object in place is replacing a subtree. The
    properties of an object are in creation order. *)
Inductive JsTree :=
  | TUndefined
  | TNull
  | TBool (b : bool)
  | TNumber (n : Z)
  | TString (s : string)
  | TArray (elems : list JsTree)
  | TObject (props : list (string * JsTree)).

(** [typeof v == 'object'] *)
Definition typeof_object (v : JsTree) : bool :=
  match v with
  | TNull | TArray _ | TObject _ => true
  | _ => false
  end.

Fixpoint tree_lookup (props : list (string * JsTree)) (name : string) : option JsTree :=
  match props with
  | [] => None
  | (k, v) :: props' => if decide (k = name) then Some v else tree_lookup props' name
  end.

(** [v.id]: a TypeError on [null] and [undefined]; [undefined] when [v] has
    no such property, as for arrays, strings, numbers and booleans. *)
Definition property_id (v : JsTree) : Outcome JsTree :=
  match v with
  | TUndefined | TNull => Throw TypeError
  | TObject props => Return (default TUndefined (tree_lookup props "id"))
  | _ => Return TUndefined
  end.

(** The object literal [{ "id": id }]. *)
Definition id_stub (id : JsTree) : JsTree := TObject [("id", id)].

(** [replace_blocks(obj)], returning the object as the call leaves it. For
    each own property: one named "block" is deleted and created anew as the
    stub of its [id], which puts it after the other properties; any other
    property whose value has type 'object' ([null] included) is handed to the
    recursive call. The indices of an array are its properties; its [length]
    is a number. [Object.getOwnPropertyNames] throws on [null] and
    [undefined] and finds nothing to recurse into in a string, a number or a
    boolean. Every exception is a TypeError, so the outcome does not depend
    on the order in which the properties are visited. *)
Fixpoint replace_blocks (obj : JsTree) : Outcome JsTree :=
  match obj with
  | TUndefined | TNull => Throw TypeError
  | TBool _ | TNumber _ | TString _ => Return obj
  | TArray elems =>
      match
        (fix each (l : list JsTree) : Outcome (list JsTree) :=
           match l with
           | [] => Return []
           | v :: l' =>
               match (if typeof_object v then replace_blocks v else Return v) with
               | Throw e => Throw e
               | Return v' =>
                   match each l' with
                   | Throw e => Throw e
                   | Return l'' => Return (v' :: l'')
                   end
               end
           end) elems
      with
      | Throw e => Throw e
      | Return elems' => Return (TArray elems')
      end
  | TObject props =>
      match
        (fix each (l : list (string * JsTree))
           : Outcome (list (string * JsTree) * list (string * JsTree)) :=
           match l with
           | [] => Return ([], [])
           | (name, v) :: l' =>
               if decide (name = "block") then
                 match property_id v with
                 | Throw e => Throw e
                 | Return id =>
                     match each l' with
                     | Throw e => Throw e
                     | Return (kept, moved) =>
                         Return (kept, ("block", id_stub id) :: moved)
                     end
                 end
               else
                 match (if typeof_object v then replace_blocks v else Return v) with
                 | Throw e => Throw e
                 | Return v' =>
                     match each l' with
                     | Throw e => Throw e
                     | Return (kept, moved) => Return ((name, v') :: kept, moved)
                     end
                 end
           end) props
      with
      | Throw e => Throw e
      | Return (kept, moved) => Return (TObject (kept ++ moved))
      end
  end.

(** What [replace_blocks] leaves in place of a value: the recursive call is
    made on the values of type 'object'. *)
Definition replace_value (v : JsTree) : Outcome JsTree :=
  if typeof_object v then replace_blocks v else Return v.

(** The loop of [replace_blocks] over the elements of an array. *)
Fixpoint replace_elems (l : list JsTree) : Outcome (list JsTree) :=
  match l with
  | [] => Return []
  | v :: l' =>
      match replace_value v with
      | Throw e => Throw e
      | Return v' =>
          match replace_elems l' with
          | Throw e => Throw e
          | Return l'' => Return (v' :: l'')
          end
      end
  end.

(** The loop of [replace_blocks] over the properties of an object: the
    properties kept in place and the property "block" moved to the end. *)
Fixpoint replace_props (l : list (string * JsTree))
  : Outcome (list (string * JsTree) * list (string * JsTree)) :=
  match l with
  | [] => Return ([], [])
  | (name, v) :: l' =>
      if decide (name = "block") then
        match property_id v with
        | Throw e => Throw e
        | Return id =>
            match replace_props l' with
            | Throw e => Throw e
            | Return (kept, moved) => Return (kept, ("block", id_stub id) :: moved)
            end
        end
      else
        match replace_value v with
        | Throw e => Throw e
        | Return v' =>
            match replace_props l' with
            | Throw e => Throw e
            | Return (kept, moved) => Return ((name, v') :: kept, moved)
            end
        end
  end.

(** No [null] and no [undefined] anywhere in the tree. *)
Fixpoint null_free (t : JsTree) : bool :=
  match t with
  | TUndefined | TNull => false
  | TBool _ | TNumber _ | TString _ => true
  | TArray elems => forallb null_free elems
  | TObject props => forallb (fun p => null_free p.2) props
  end.

(** No property named "block" anywhere in the tree. *)
Fixpoint block_free (t : JsTree) : bool :=
  match t with
  | TArray elems => forallb block_free elems
  | TObject props =>
      forallb (fun p => negb (bool_decide (p.1 = "block")) && block_free p.2) props
  | _ => true
  end.

(** The values of the properties named "block" that [replace_blocks] meets:
    it looks into every object and array but the values of these properties
    themselves. *)
Fixpoint nested_blocks (t : JsTree) : list JsTree :=
  match t with
  | TArray elems => flat_map nested_blocks elems
  | TObject props =>
      flat_map
        (fun p => if decide (p.1 = "block") then [p.2] else nested_blocks p.2)
        props
  | _ => []
  end.

(** [v.id] where it is defined, [undefined] elsewhere. *)
Definition id_of (v : JsTree) : JsTree :=
  match property_id v with
  | Return id => id
  | Throw _ => TUndefined
  end.

(** A second call of [replace_blocks] on what a first call returned changes
    nothing. *)
Definition replace_stable (v : JsTree) : Prop :=
  ∀ r, replace_blocks v = Return r → replace_blocks r = Return r.

(** The value is a stub [{ "id": id }]. *)
Definition is_stub (v : JsTree) : Prop := ∃ id, v = id_stub id.

(** The nested blocks of [r] are stubs, and their identities are those of the
    nested blocks of [t]. *)
Definition stubs_of (t r : JsTree) : Prop :=
  Forall is_stub (nested_blocks r) ∧
  id_of <$> nested_blocks r ≡ₚ id_of <$> nested_blocks t.
(** ** Lemmas on [JsSet] *)

Section JsSetFacts.

Implicit Types (s : JsSet.t) (x y : string).

Lemma has_true s x : JsSet.has s x = true ↔ x ∈ s.
Proof. unfold JsSet.has. apply bool_decide_eq_true. Qed.

Lemma has_false s x : JsSet.has s x = false ↔ x ∉ s.
Proof. unfold JsSet.has. apply bool_decide_eq_false. Qed.

Lemma elem_of_add s x y : y ∈ JsSet.add s x ↔ y = x ∨ y ∈ s.
Proof.
  unfold JsSet.add. destruct (JsSet.has s x) eqn:E.
  - apply has_true in E. split; [by right | by intros [->|]].
  - rewrite elem_of_app, list_elem_of_singleton. tauto.
Qed.

Lemma NoDup_add s x : NoDup s → NoDup (JsSet.add s x).
Proof.
  intros Hs. unfold JsSet.add. destruct (JsSet.has s x) eqn:E; [done|].
  apply has_false in E. apply NoDup_app. split_and!; [done| |apply NoDup_singleton].
  intros z Hz Hz'. apply list_elem_of_singleton in Hz'. by subst.
Qed.

Lemma elem_of_delete_weak s x y : y ∈ JsSet.delete s x → y ∈ s.
Proof.
  induction s as [|z s IH]; simpl; [done|].
  case_decide; rewrite !elem_of_cons; [by right|]. intros [->|?]; auto.
Qed.

Lemma elem_of_delete s x y :
  NoDup s → y ∈ JsSet.delete s x ↔ y ∈ s ∧ y ≠ x.
Proof.
  induction 1 as [|z s Hz Hs IH]; simpl.
  - split; [by intros ?%elem_of_nil | by intros [?%elem_of_nil _]].
  - case_decide as Hx; subst; rewrite !elem_of_cons.
    + split.
      * intros Hy. split; [by right|]. by intros ->.
      * intros [[->|Hy] Hne]; done.
    + rewrite IH. split.
      * intros [->|[? ?]]; split; auto.
      * intros [[->|?] ?]; auto.
Qed.

Lemma NoDup_delete s x : NoDup s → NoDup (JsSet.delete s x).
Proof.
  induction 1 as [|z s Hz Hs IH]; simpl; [constructor|].
  case_decide; [done|]. constructor; [|done].
  intros Hin. by apply elem_of_delete_weak in Hin.
Qed.

(** Folding [add] over an iterable, from any duplicate-free start. *)
Lemma fold_add_spec (l : list string) s :
  NoDup s →
  NoDup (fold_left JsSet.add l s) ∧
  ∀ y, y ∈ fold_left JsSet.add l s ↔ y ∈ s ∨ y ∈ l.
Proof.
  revert s. induction l as [|x l IH]; intros s Hs; simpl.
  - split; [done|]. intros y. rewrite elem_of_nil. tauto.
  - destruct (IH (JsSet.add s x) (NoDup_add _ _ Hs)) as [Hnd Hel].
    split; [done|]. intros y. rewrite Hel, elem_of_add, elem_of_cons. tauto.
Qed.

Lemma NoDup_of_iterable (l : list string) : NoDup (JsSet.of_iterable l).
Proof. apply fold_add_spec. constructor. Qed.

Lemma elem_of_of_iterable (l : list string) y :
  y ∈ JsSet.of_iterable l ↔ y ∈ l.
Proof.
  unfold JsSet.of_iterable.
  destruct (fold_add_spec l JsSet.empty) as [_ H]; [constructor|].
  rewrite H. unfold JsSet.empty. rewrite elem_of_nil. tauto.
Qed.

Lemma elem_of_to_gset s x : x ∈ JsSet.to_gset s ↔ x ∈ s.
Proof. unfold JsSet.to_gset. apply elem_of_list_to_set. Qed.

(** The loop of [intersection], from any duplicate-free accumulator. *)
Lemma intersection_loop_spec setA (setB : list string) acc :
  NoDup acc →
  let r := fold_left
             (fun a elem => if JsSet.has setA elem then JsSet.add a elem else a)
             setB acc in
  NoDup r ∧ ∀ y, y ∈ r ↔ y ∈ acc ∨ (y ∈ setA ∧ y ∈ setB).
Proof.
  revert acc. induction setB as [|b setB IH]; intros acc Hacc; simpl.
  - split; [done|]. intros y. rewrite elem_of_nil. tauto.
  - destruct (JsSet.has setA b) eqn:E.
    + apply has_true in E.
      destruct (IH (JsSet.add acc b) (NoDup_add _ _ Hacc)) as [Hnd Hel].
      split; [done|]. intros y. rewrite Hel, elem_of_add, elem_of_cons.
      split; [intros [[->|?]|[? ?]]; auto | intros [?|[? [->|?]]]; auto].
    + apply has_false in E.
      destruct (IH acc Hacc) as [Hnd Hel].
      split; [done|]. intros y. rewrite Hel, elem_of_cons.
      split; [intros [?|[? ?]]; auto | intros [?|[? [->|?]]]; auto; done].
Qed.

Lemma elem_of_js_intersection setA setB y :
  y ∈ intersection setA setB ↔ y ∈ setA ∧ y ∈ setB.
Proof.
  unfold intersection.
  destruct (intersection_loop_spec setA setB JsSet.empty) as [_ H]; [constructor|].
  rewrite H. unfold JsSet.empty. rewrite elem_of_nil. tauto.
Qed.

Lemma NoDup_intersection setA setB : NoDup (intersection setA setB).
Proof.
  unfold intersection.
  by destruct (intersection_loop_spec setA setB JsSet.empty) as [H _]; [constructor|].
Qed.

(** The loop of [difference], from any duplicate-free accumulator. *)
Lemma difference_loop_spec (setB : list string) acc :
  NoDup acc →
  NoDup (fold_left JsSet.delete setB acc) ∧
  ∀ y, y ∈ fold_left JsSet.delete setB acc ↔ y ∈ acc ∧ y ∉ setB.
Proof.
  revert acc. induction setB as [|b setB IH]; intros acc Hacc; simpl.
  - split; [done|]. intros y. rewrite elem_of_nil. tauto.
  - destruct (IH (JsSet.delete acc b) (NoDup_delete _ _ Hacc)) as [Hnd Hel].
    split; [done|]. intros y.
    rewrite Hel, elem_of_delete, not_elem_of_cons by done. tauto.
Qed.

Lemma elem_of_difference_js setA setB y :
  y ∈ difference setA setB ↔ y ∈ setA ∧ y ∉ setB.
Proof.
  unfold difference.
  destruct (difference_loop_spec setB (JsSet.of_iterable setA)) as [_ H];
    [apply NoDup_of_iterable|].
  by rewrite H, elem_of_of_iterable.
Qed.

Lemma NoDup_difference setA setB : NoDup (difference setA setB).
Proof.
  unfold difference.
  by destruct (difference_loop_spec setB (JsSet.of_iterable setA)) as [H _];
    [apply NoDup_of_iterable|].
Qed.

End JsSetFacts.

(** ** Block identities and the three-way split (C1, C8) *)

Lemma elem_of_get_ids (blocks : list Block) (x : string) :
  x ∈ get_ids blocks ↔ ∃ block, block ∈ blocks ∧ block_id block = x.
Proof.
  unfold get_ids.
  assert (G : ∀ acc, x ∈ fold_left (fun ids block => JsSet.add ids (block_id block)) blocks acc
                     ↔ x ∈ acc ∨ ∃ block, block ∈ blocks ∧ block_id block = x).
  { induction blocks as [|b blocks IH]; intros acc; simpl.
    - split; [by left|]. intros [?|(b & Hb & _)]; [done|]. by apply elem_of_nil in Hb.
    - rewrite IH, elem_of_add. split.
      + intros [[->|?]|(b' & Hb' & Hx)]; [right|by left|right].
        * exists b. split; [left|done].
        * exists b'. split; [by right|done].
      + intros [?|(b' & Hb' & Hx)]; [by left; right|].
        apply elem_of_cons in Hb' as [->|Hb']; [left; left; done|].
        right. by exists b'. }
  rewrite G. unfold JsSet.empty. split; [intros [?%elem_of_nil|?]; done | by right].
Qed.

(** The scenario of the specification: mine has blocks 1, 2, 3 and previous
    has 2, 3, 4. *)
Example split_scenario :
  let mine_ids := JsSet.of_iterable ["1"; "2"; "3"] in
  let previous_ids := JsSet.of_iterable ["2"; "3"; "4"] in
  difference mine_ids previous_ids = ["1"] ∧
  difference previous_ids mine_ids = ["4"] ∧
  intersection mine_ids previous_ids = ["2"; "3"].
Proof. by vm_compute. Qed.

(** C1. For every pair of workspaces, the identities added in mine
    (mine minus previous), removed from mine (previous minus mine) and common
    (in both), computed as [show_diffs] does with [get_ids], [difference] and
    [intersection], are pairwise disjoint and together are exactly the
    identities of the blocks of the two workspaces. *)
Theorem block_ids_partition (mine_workspace previous_workspace : Workspace) :
  let mine_ids := get_ids (getAllBlocks mine_workspace) in
  let previous_ids := get_ids (getAllBlocks previous_workspace) in
  let ids_added_mine := JsSet.to_gset (difference mine_ids previous_ids) in
  let ids_removed_mine := JsSet.to_gset (difference previous_ids mine_ids) in
  let ids_common := JsSet.to_gset (intersection mine_ids previous_ids) in
  ids_added_mine ## ids_removed_mine ∧
  ids_added_mine ## ids_common ∧
  ids_removed_mine ## ids_common ∧
  ids_added_mine ∪ ids_removed_mine ∪ ids_common
    = JsSet.to_gset mine_ids ∪ JsSet.to_gset previous_ids ∧
  (∀ x, x ∈ JsSet.to_gset mine_ids ∪ JsSet.to_gset previous_ids ↔
        ∃ block, (block ∈ getAllBlocks mine_workspace
                  ∨ block ∈ getAllBlocks previous_workspace)
                 ∧ block_id block = x).
Proof.
  intros mine_ids previous_ids added removed common.
  assert (Ha : ∀ x, x ∈ added ↔ x ∈ mine_ids ∧ x ∉ previous_ids).
  { intros x. unfold added. by rewrite elem_of_to_gset, elem_of_difference_js. }
  assert (Hr : ∀ x, x ∈ removed ↔ x ∈ previous_ids ∧ x ∉ mine_ids).
  { intros x. unfold removed. by rewrite elem_of_to_gset, elem_of_difference_js. }
  assert (Hc : ∀ x, x ∈ common ↔ x ∈ mine_ids ∧ x ∈ previous_ids).
  { intros x. unfold common. by rewrite elem_of_to_gset, elem_of_js_intersection. }
  split_and!.
  - intros x [? ?]%Ha [? ?]%Hr. done.
  - intros x [? ?]%Ha [? ?]%Hc. done.
  - intros x [? ?]%Hr [? ?]%Hc. done.
  - apply set_eq. intros x.
    rewrite !elem_of_union, Ha, Hr, Hc, !elem_of_to_gset.
    destruct (decide (x ∈ mine_ids)), (decide (x ∈ previous_ids)); tauto.
  - intros x. rewrite elem_of_union, !elem_of_to_gset.
    unfold mine_ids, previous_ids. rewrite !elem_of_get_ids.
    split.
    + intros [(b & ? & ?)|(b & ? & ?)]; exists b; auto.
    + intros (b & [?|?] & ?); [left|right]; by exists b.
Qed.

(** C8. For all sets A and B of strings, also empty ones: [intersection A B]
    and [intersection B A] are the same set; [difference A B] has no element
    in common with B; and both operations return the empty set on empty
    inputs. *)
Theorem set_algebra_laws (A B : JsSet.t) :
  JsSet.to_gset (intersection A B) = JsSet.to_gset (intersection B A) ∧
  intersection A B ≡ₚ intersection B A ∧
  JsSet.to_gset (difference A B) ∩ JsSet.to_gset B = ∅ ∧
  intersection JsSet.empty B = JsSet.empty ∧
  intersection A JsSet.empty = JsSet.empty ∧
  difference JsSet.empty B = JsSet.empty ∧
  difference A JsSet.empty = JsSet.of_iterable A.
Proof.
  split_and!.
  - apply set_eq. intros x. rewrite !elem_of_to_gset, !elem_of_js_intersection. tauto.
  - apply NoDup_Permutation; [apply NoDup_intersection..|].
    intros x. rewrite !elem_of_js_intersection. tauto.
  - apply set_eq. intros x.
    rewrite elem_of_intersection, !elem_of_to_gset, elem_of_difference_js.
    split; [tauto|]. by intros ?%not_elem_of_empty.
  - unfold intersection. induction B as [|b B IH]; [done|]. simpl. exact IH.
  - done.
  - unfold difference. induction B as [|b B IH]; [done|]. simpl. exact IH.
  - done.
Qed.

(** ** Edge keys (C4, C9) *)

Lemma connection_key_spec (source : string) (connection : Connection) :
  connection_key source connection = spec_edge_key (source, connection).
Proof.
  unfold connection_key, spec_edge_key, edge_key. simpl.
  by destruct (getParentInput connection), (targetBlock connection).
Qed.

(** The inner loop of [get_connections] adds the keys of the next-statement
    connections of one block, in order. *)
Lemma get_connections_inner (source : string) (connections : list Connection)
    (acc : JsSet.t) :
  fold_left
    (fun connections_set connection =>
       if decide (conn_type connection = NEXT_STATEMENT)
       then JsSet.add connections_set (connection_key source connection)
       else connections_set)
    connections acc
  = fold_left JsSet.add
      (map (fun connection => spec_edge_key (source, connection))
           (filter (fun connection => conn_type connection = NEXT_STATEMENT)
                   connections))
      acc.
Proof.
  revert acc. induction connections as [|c cs IH]; intros acc; [done|].
  simpl. rewrite filter_cons. case_decide.
  - simpl. by rewrite IH, connection_key_spec.
  - by rewrite IH.
Qed.

Lemma get_connections_loop (blocks : list Block) (acc : JsSet.t) :
  fold_left
    (fun connections_set block =>
       fold_left
         (fun connections_set connection =>
            if decide (conn_type connection = NEXT_STATEMENT)
            then JsSet.add connections_set
                   (connection_key (block_id block) connection)
            else connections_set)
         (getConnections_ block) connections_set)
    blocks acc
  = fold_left JsSet.add (map spec_edge_key (next_statement_connections blocks)) acc.
Proof.
  revert acc. induction blocks as [|b blocks IH]; intros acc; [done|].
  simpl. rewrite IH, get_connections_inner, map_app, fold_left_app.
  by rewrite map_map.
Qed.

Lemma elem_of_next_statement_connections (blocks : list Block) source connection :
  (source, connection) ∈ next_statement_connections blocks ↔
  ∃ block, block ∈ blocks ∧ block_id block = source ∧
           connection ∈ getConnections_ block ∧
           conn_type connection = NEXT_STATEMENT.
Proof.
  unfold next_statement_connections. rewrite list_elem_of_In, in_flat_map. split.
  - intros (b & Hb & Hin). apply list_elem_of_In in Hb, Hin.
    apply list_elem_of_fmap in Hin as (c & [= -> ->] & Hc).
    apply list_elem_of_filter in Hc as [? ?]. by exists b.
  - intros (b & Hb & <- & Hc & Ht). exists b. rewrite <- !list_elem_of_In.
    split; [done|]. apply list_elem_of_fmap. exists connection.
    split; [done|]. by apply list_elem_of_filter.
Qed.

(** C4. For every list of blocks, [get_connections] returns the set of the
    keys of the next-statement connections, one key for each of them whether
    it is attached or dangling: the key of a connection is the identity of its
    block, then the name of its parent input or "next", then the identity of
    its target or "none", separated by single spaces. A block "a" with a
    connection to block "b" through the input "DO" yields "a DO b". *)
Theorem get_connections_keys (blocks : list Block) :
  get_connections blocks
    = JsSet.of_iterable (map spec_edge_key (next_statement_connections blocks)) ∧
  (∀ key, key ∈ get_connections blocks ↔
          ∃ block connection,
            block ∈ blocks ∧ connection ∈ getConnections_ block ∧
            conn_type connection = NEXT_STATEMENT ∧
            key = block_id block +:+ " "
                  +:+ default "next" (getParentInput connection) +:+ " "
                  +:+ default "none" (targetBlock connection)) ∧
  (∀ targets inputs xy,
     get_connections
       [{| block_id := "a";
           getConnections_ := [{| conn_type := NEXT_STATEMENT;
                                  getParentInput := Some "DO";
                                  targetBlock := Some "b" |}];
           inputList := inputs; getRelativeToSurfaceXY := xy |};
        {| block_id := "b"; getConnections_ := targets;
           inputList := []; getRelativeToSurfaceXY := xy |}]
     = JsSet.of_iterable
         ("a DO b" :: map (fun c => spec_edge_key ("b", c))
                          (filter (fun c => conn_type c = NEXT_STATEMENT) targets))).
Proof.
  assert (E : get_connections blocks
              = JsSet.of_iterable (map spec_edge_key (next_statement_connections blocks))).
  { unfold get_connections. by rewrite get_connections_loop. }
  split_and!; [done| |].
  - intros key. rewrite E, elem_of_of_iterable, list_elem_of_fmap. split.
    + intros ([source c] & -> & Hin).
      apply elem_of_next_statement_connections in Hin as (b & ? & <- & ? & ?).
      by exists b, c.
    + intros (b & c & Hb & Hc & Ht & ->). exists (block_id b, c).
      split; [done|]. apply elem_of_next_statement_connections. by exists b.
  - intros targets inputs xy. unfold get_connections.
    rewrite get_connections_loop. unfold next_statement_connections. simpl.
    by rewrite app_nil_r, map_map.
Qed.

(** The number of keys handed to the set is the number of next-statement
    connections; the set itself holds each distinct key once. *)
Lemma get_connections_count (blocks : list Block) :
  length (map spec_edge_key (next_statement_connections blocks))
    = length (next_statement_connections blocks) ∧
  NoDup (get_connections blocks) ∧
  (NoDup (map spec_edge_key (next_statement_connections blocks)) →
   length (get_connections blocks) = length (next_statement_connections blocks)).
Proof.
  assert (E : get_connections blocks
              = JsSet.of_iterable (map spec_edge_key (next_statement_connections blocks))).
  { unfold get_connections. by rewrite get_connections_loop. }
  split_and!.
  - apply length_map.
  - rewrite E. apply NoDup_of_iterable.
  - intros Hnd. rewrite E, <- (length_map spec_edge_key).
    apply Permutation_length, NoDup_Permutation; [apply NoDup_of_iterable|done|].
    intros x. apply elem_of_of_iterable.
Qed.

(** Two dangling next-statement connections of one block that share their
    slot name share their key: the set then holds one key for both. *)
Example get_connections_collision :
  get_connections
    [{| block_id := "a";
        getConnections_ := [{| conn_type := NEXT_STATEMENT;
                               getParentInput := Some "next";
                               targetBlock := None |};
                            {| conn_type := NEXT_STATEMENT;
                               getParentInput := None;
                               targetBlock := None |}];
        inputList := []; getRelativeToSurfaceXY := (0, 0)%Z |}]
  = ["a next none"].
Proof. by vm_compute. Qed.

Lemma split_no_sep (sep : ascii) (s : string) :
  occurs sep s = false → split sep s = [s].
Proof.
  induction s as [|c s IH]; simpl; [done|].
  intros [Hc Hs]%orb_false_iff. rewrite Hc, IH; done.
Qed.

Lemma split_append (sep : ascii) (s rest : string) :
  occurs sep s = false →
  split sep (s +:+ String sep rest) = s :: split sep rest.
Proof.
  induction s as [|c s IH]; simpl.
  - intros _. by rewrite Ascii.eqb_refl.
  - intros [Hc Hs]%orb_false_iff. rewrite Hc, IH; done.
Qed.

Lemma split_edge_key (source name target_id : string) :
  occurs " " source = false →
  occurs " " name = false →
  occurs " " target_id = false →
  split " " (edge_key source name target_id) = [source; name; target_id].
Proof.
  intros Hs Hn Ht. unfold edge_key.
  change (" " +:+ name +:+ " " +:+ target_id)
    with (String " " (name +:+ String " " target_id)).
  rewrite split_append by done.
  rewrite split_append by done.
  by rewrite split_no_sep.
Qed.

(** C9. When the identity of the source block, the name of the slot and the
    identity of the target hold no space, splitting the key that
    [get_connections] builds for a connection on single spaces gives back
    exactly these three components, which is how [highlight_connections] and
    [unhighlight_connections] read [sp[0]], [sp[1]] and [sp[2]]. *)
Theorem edge_key_split_roundtrip (source : string) (connection : Connection) :
  occurs " " source = false →
  (∀ input, getParentInput connection = Some input → occurs " " input = false) →
  (∀ target, targetBlock connection = Some target → occurs " " target = false) →
  let sp := split " " (connection_key source connection) in
  sp = [source; default "next" (getParentInput connection);
        default "none" (targetBlock connection)] ∧
  sp !! 0%nat = Some source ∧
  sp !! 1%nat = Some (default "next" (getParentInput connection)) ∧
  sp !! 2%nat = Some (default "none" (targetBlock connection)).
Proof.
  intros Hs Hi Ht sp.
  assert (E : sp = [source; default "next" (getParentInput connection);
                    default "none" (targetBlock connection)]).
  { unfold sp, connection_key.
    destruct (getParentInput connection) as [input|],
             (targetBlock connection) as [tgt|]; simpl;
      apply split_edge_key; auto. }
  by rewrite E.
Qed.

Lemma edge_key_split_roundtrip_witness :
  split " " (connection_key "a" {| conn_type := NEXT_STATEMENT;
                                   getParentInput := Some "DO";
                                   targetBlock := Some "b" |})
  = ["a"; "DO"; "b"].
Proof.
  apply (edge_key_split_roundtrip "a"
           {| conn_type := NEXT_STATEMENT; getParentInput := Some "DO";
              targetBlock := Some "b" |}).
  - reflexivity.
  - simpl. intros input [= <-]. reflexivity.
  - simpl. intros tgt [= <-]. reflexivity.
Defined.

(** An identity with a space does not survive the split. *)
Example split_with_space :
  split " " (edge_key "a b" "next" "c") = ["a"; "b"; "next"; "c"].
Proof. reflexivity. Qed.

(** ** Objects as dictionaries *)

Lemma lookup_update_own ps (k k' : string) (v : JsValue) :
  lookup_own (update_own ps k v) k'
  = if decide (k = k') then Some v else lookup_own ps k'.
Proof.
  induction ps as [|[k0 v0] ps IH]; simpl.
  - done.
  - destruct (decide (k0 = k)) as [->|Hne]; simpl; [|rewrite IH];
      repeat case_decide; congruence.
Qed.

Lemma keys_update_own ps (k : string) (v : JsValue) :
  (update_own ps k v).*1 = if decide (k ∈ ps.*1) then ps.*1 else ps.*1 ++ [k].
Proof.
  induction ps as [|[k0 v0] ps IH].
  - done.
  - cbn [update_own]. rewrite fmap_cons. cbn [fst].
    destruct (decide (k0 = k)) as [->|Hne].
    + rewrite fmap_cons. cbn [fst]. rewrite decide_True by left. done.
    + rewrite fmap_cons, IH. cbn [fst].
      destruct (decide (k ∈ ps.*1)) as [Hin|Hnin].
      * rewrite decide_True by (by right). done.
      * rewrite decide_False; [done|]. rewrite not_elem_of_cons. split; congruence.
Qed.

Lemma NoDup_keys_update_own ps (k : string) (v : JsValue) :
  NoDup ps.*1 → NoDup (update_own ps k v).*1.
Proof.
  intros Hnd. rewrite keys_update_own. case_decide; [done|].
  apply NoDup_app. split_and!; [done| |apply NoDup_singleton].
  intros x Hx ->%list_elem_of_singleton. done.
Qed.

Lemma lookup_own_Some ps (k : string) (v : JsValue) :
  NoDup ps.*1 → lookup_own ps k = Some v ↔ (k, v) ∈ ps.
Proof.
  induction ps as [|[k0 v0] ps IH]; simpl; intros Hnd.
  - split; [done|]. by intros ?%elem_of_nil.
  - apply NoDup_cons in Hnd as [Hk0 Hnd]. rewrite elem_of_cons.
    destruct (decide (k0 = k)) as [->|Hne].
    + split; [intros [= ->]; by left|].
      intros [[= ->]|Hin]; [done|]. exfalso. apply Hk0.
      apply list_elem_of_fmap. by exists (k, v).
    + rewrite IH by done. split; [by right|]. intros [[= -> ->]|?]; done.
Qed.

Lemma lookup_own_None ps (k : string) : lookup_own ps k = None ↔ k ∉ ps.*1.
Proof.
  induction ps as [|[k0 v0] ps IH]; simpl.
  - split; [intros _; apply not_elem_of_nil|done].
  - rewrite not_elem_of_cons. destruct (decide (k0 = k)) as [->|Hne].
    + split; [done|]. by intros [? _].
    + rewrite IH. split; [by split|by intros [_ ?]].
Qed.

Lemma js_get_null_proto (o : JsObject) (key : string) :
  proto o = None → js_get o key = default VUndefined (lookup_own (own o) key).
Proof. destruct o as [p ps]. simpl. intros ->. by destruct (lookup_own ps key). Qed.

Lemma js_in_null_proto (o : JsObject) (key : string) :
  proto o = None → js_in key o = hasOwn o key.
Proof.
  destruct o as [p ps]. unfold hasOwn. simpl. intros ->.
  by destruct (lookup_own ps key).
Qed.

(** *** Enumeration *)

Lemma insert_by_index_perm e l : insert_by_index e l ≡ₚ e :: l.
Proof.
  induction l as [|e' l IH]; simpl; [done|].
  destruct (e.1 <=? e'.1)%N; [done|]. rewrite IH. apply Permutation_swap.
Qed.

Lemma sort_by_index_perm l : foldr insert_by_index [] l ≡ₚ l.
Proof.
  induction l as [|e l IH]; simpl; [done|].
  by rewrite insert_by_index_perm, IH.
Qed.

Lemma index_entries_snd ps :
  (index_entries ps).*2 = filter (fun p => ¬ array_index p.1 = None) ps.
Proof.
  unfold index_entries. induction ps as [|p ps IH]; [done|].
  rewrite filter_cons. cbn [omap list_omap].
  destruct (array_index p.1) eqn:E.
  - rewrite decide_True by done. rewrite fmap_cons. by rewrite IH.
  - rewrite decide_False by (intros H; by apply H). done.
Qed.

(** [Object.entries] lists every own property once. *)
Lemma Object_entries_perm (o : JsObject) : Object_entries o ≡ₚ own o.
Proof.
  unfold Object_entries, named_entries.
  rewrite sort_by_index_perm, index_entries_snd.
  rewrite Permutation_app_comm. apply filter_app_complement.
Qed.

Lemma elem_of_Object_entries (o : JsObject) (e : string * JsValue) :
  e ∈ Object_entries o ↔ e ∈ own o.
Proof. by rewrite Object_entries_perm. Qed.

(** ** Field state *)

Lemma saveFields_inner (fields : list Field) (o : JsObject) :
  fold_left
    (fun fields field =>
       if isSerializable field
       then js_set fields (field_name field) (saveState field)
       else fields)
    fields o
  = fold_left
      (fun fields field => js_set fields (field_name field) (saveState field))
      (filter (fun field => isSerializable field = true) fields) o.
Proof.
  revert o. induction fields as [|f fields IH]; intros o; [done|].
  simpl. rewrite filter_cons. destruct (isSerializable f) eqn:E.
  - rewrite decide_True by done. simpl. apply IH.
  - rewrite decide_False by done. apply IH.
Qed.

(** [saveFields] assigns the serializable fields one after the other. *)
Lemma saveFields_fold (block : Block) :
  saveFields block
  = fold_left
      (fun fields field => js_set fields (field_name field) (saveState field))
      (serializable_fields block) Object_create_null.
Proof.
  unfold saveFields, serializable_fields.
  generalize Object_create_null.
  induction (inputList block) as [|input inputs IH]; intros o; [done|].
  simpl. rewrite IH, saveFields_inner, filter_app, fold_left_app. done.
Qed.

Lemma assign_fields_spec (fields : list Field) (o : JsObject) :
  let o' := fold_left
              (fun fields field => js_set fields (field_name field) (saveState field))
              fields o in
  proto o' = proto o ∧
  (NoDup (own o).*1 → NoDup (own o').*1) ∧
  (∀ name, lookup_own (own o') name = None ↔
           lookup_own (own o) name = None ∧
           ∀ field, field ∈ fields → field_name field ≠ name).
Proof.
  revert o. induction fields as [|f fields IH]; intros o; simpl.
  - split_and!; [done..|]. intros name. split; [|by intros [? _]].
    intros H. split; [done|]. by intros ? ?%elem_of_nil.
  - destruct (IH (js_set o (field_name f) (saveState f))) as (Hp & Hnd & Hl).
    split_and!.
    + rewrite Hp. by destruct o.
    + intros H. apply Hnd. destruct o as [p ps]. simpl in *.
      by apply NoDup_keys_update_own.
    + intros name. rewrite Hl. destruct o as [p ps]. simpl.
      rewrite lookup_update_own. destruct (decide (field_name f = name)) as [E|E].
      * split; [by intros [? _]|]. intros [_ H]. exfalso.
        apply (H f); [left|done].
      * split.
        -- intros [? H]. split; [done|]. intros g [->|?]%elem_of_cons; auto.
        -- intros [? H]. split; [done|]. intros g ?. apply H. by right.
Qed.

Lemma proto_saveFields (block : Block) : proto (saveFields block) = None.
Proof.
  rewrite saveFields_fold.
  by destruct (assign_fields_spec (serializable_fields block) Object_create_null)
    as (-> & _ & _).
Qed.

Lemma NoDup_keys_saveFields (block : Block) : NoDup (own (saveFields block)).*1.
Proof.
  rewrite saveFields_fold.
  destruct (assign_fields_spec (serializable_fields block) Object_create_null)
    as (_ & H & _).
  apply H. constructor.
Qed.

Lemma lookup_saveFields_None (block : Block) (name : string) :
  lookup_own (own (saveFields block)) name = None ↔
  ∀ field, field ∈ serializable_fields block → field_name field ≠ name.
Proof.
  rewrite saveFields_fold.
  destruct (assign_fields_spec (serializable_fields block) Object_create_null)
    as (_ & _ & H).
  rewrite H. simpl. split; [by intros [_ ?]|by split].
Qed.

Lemma strict_equals_undefined (value : JsValue) :
  is_undefined value = false → strict_equals VUndefined value = false.
Proof. by destruct value. Qed.

(** A JSON-compatible value, the kind a field captures, is never
    [undefined]. *)
Lemma json_compatible_defined (value : JsValue) :
  json_compatible value = true → is_undefined value = false.
Proof. by destruct value. Qed.

(** C10. For every block, the object [saveFields] returns has a null
    prototype, so a name that is not the name of a serializable field of the
    block is absent from it: [in] is false and reading it gives [undefined],
    also for the names [Object.prototype] defines such as "toString" and
    "constructor"; the test of the field loop of [show_diffs] is then false
    (unequal) against every value but [undefined]. *)
Theorem saveFields_no_inherited (block : Block) (name : string) :
  (∀ field, field ∈ flat_map fieldRow (inputList block) →
            isSerializable field = true → field_name field ≠ name) →
  proto (saveFields block) = None ∧
  hasOwn (saveFields block) name = false ∧
  js_in name (saveFields block) = false ∧
  js_get (saveFields block) name = VUndefined ∧
  (∀ value, is_undefined value = false →
            field_equal (saveFields block) name value = false).
Proof.
  intros Hname.
  assert (Hnone : lookup_own (own (saveFields block)) name = None).
  { apply lookup_saveFields_None. intros f [Hs Hf]%list_elem_of_filter. auto. }
  assert (Hown : hasOwn (saveFields block) name = false).
  { unfold hasOwn. by rewrite Hnone. }
  assert (Hget : js_get (saveFields block) name = VUndefined).
  { rewrite js_get_null_proto by apply proto_saveFields. by rewrite Hnone. }
  split_and!; [apply proto_saveFields|done| |done|].
  - by rewrite js_in_null_proto by apply proto_saveFields.
  - intros value Hv. unfold field_equal. rewrite Hget.
    by apply strict_equals_undefined.
Qed.

Lemma saveFields_no_inherited_witness :
  let block := {| block_id := "2"; getConnections_ := [];
                  inputList := [{| input_name := "IN";
                                   fieldRow := [{| field_name := "NAME";
                                                   isSerializable := true;
                                                   saveState := VString "x" |};
                                                {| field_name := "toString";
                                                   isSerializable := false;
                                                   saveState := VString "label" |}] |}];
                  getRelativeToSurfaceXY := (0, 0)%Z |} in
  js_get (saveFields block) "toString" = VUndefined ∧
  js_get (saveFields block) "constructor" = VUndefined ∧
  js_get (saveFields block) "NAME" = VString "x".
Proof.
  intros block. split_and!.
  - apply (saveFields_no_inherited block "toString").
    intros f Hf Hs. simpl in Hf.
    apply elem_of_cons in Hf as [->|Hf]; [done|].
    apply elem_of_cons in Hf as [->|Hf]; [done|].
    by apply elem_of_nil in Hf.
  - apply (saveFields_no_inherited block "constructor").
    intros f Hf Hs. simpl in Hf.
    apply elem_of_cons in Hf as [->|Hf]; [done|].
    apply elem_of_cons in Hf as [->|Hf]; [done|].
    by apply elem_of_nil in Hf.
  - reflexivity.
Defined.

(** On an object literal, whose prototype is [Object.prototype], the same
    names would be found. *)
Example object_literal_inherits :
  js_in "toString" object_literal = true ∧
  js_get object_literal "constructor" = VFunction "Object" ∧
  js_in "toString" Object_create_null = false.
Proof. by vm_compute. Qed.

(** ** Field verdicts (C2, C6) *)

Lemma for_of_map {S A B} (f : A → B) (xs : list A) (body : B → Eff S unit) :
  for_of (map f xs) body = for_of xs (fun x => body (f x)).
Proof. induction xs as [|x xs IH]; simpl; [done|]. by rewrite IH. Qed.

Lemma for_of_ext {S A} (xs : list A) (body body' : A → Eff S unit) :
  (∀ x, body x = body' x) → for_of xs body = for_of xs body'.
Proof. intros H. induction xs as [|x xs IH]; simpl; [done|]. by rewrite H, IH. Qed.

(** The field loop of [show_diffs] takes, for each entry of the mine-side
    state, the branch that [field_verdicts] records. *)
Lemma field_loop_verdicts (mine_block previous_block : Block)
    (valid invalid : string → Eff Deco unit) :
  for_of (Object_entries (saveFields mine_block))
    (fun '(key, value) =>
       if field_equal (saveFields previous_block) key value
       then valid key else invalid key)
  = for_of (field_verdicts mine_block previous_block)
      (fun '(key, verdict) => if verdict then valid key else invalid key).
Proof.
  unfold field_verdicts. rewrite for_of_map. apply for_of_ext. by intros [key value].
Qed.

Lemma elem_of_field_verdicts (mine_block previous_block : Block) key verdict :
  (key, verdict) ∈ field_verdicts mine_block previous_block ↔
  ∃ value, lookup_own (own (saveFields mine_block)) key = Some value ∧
           verdict = field_equal (saveFields previous_block) key value.
Proof.
  unfold field_verdicts. rewrite list_elem_of_fmap. split.
  - intros ([k v] & [= -> ->] & Hin). exists v. split; [|done].
    apply lookup_own_Some; [apply NoDup_keys_saveFields|].
    by apply elem_of_Object_entries.
  - intros (v & Hl & ->). exists (key, v). split; [done|].
    apply elem_of_Object_entries.
    by apply lookup_own_Some; [apply NoDup_keys_saveFields|].
Qed.

(** C6. For a common block, a field name that is present in the mine-side
    field state (with a value other than [undefined], which the state-capture
    contract of a field, a JSON-compatible value, never gives) but absent from
    the previous-side field state gets the unequal verdict: the test of the
    field loop is false, and the only verdict recorded for the name is the
    invalid one. *)
Theorem absent_field_unequal (mine_block previous_block : Block)
    (key : string) (value : JsValue) :
  lookup_own (own (saveFields mine_block)) key = Some value →
  is_undefined value = false →
  hasOwn (saveFields previous_block) key = false →
  (key, value) ∈ Object_entries (saveFields mine_block) ∧
  field_equal (saveFields previous_block) key value = false ∧
  (∀ verdict, (key, verdict) ∈ field_verdicts mine_block previous_block
              ↔ verdict = false).
Proof.
  intros Hmine Hjson Habsent.
  assert (Hf : field_equal (saveFields previous_block) key value = false).
  { unfold field_equal. rewrite js_get_null_proto by apply proto_saveFields.
    unfold hasOwn in Habsent.
    destruct (lookup_own (own (saveFields previous_block)) key); [done|].
    by apply strict_equals_undefined. }
  split_and!; [|done|].
  - apply elem_of_Object_entries.
    by apply lookup_own_Some; [apply NoDup_keys_saveFields|].
  - intros verdict. rewrite elem_of_field_verdicts. split.
    + intros (v & Hv & ->). rewrite Hmine in Hv. by injection Hv as <-.
    + intros ->. by exists value.
Qed.

Lemma absent_field_unequal_witness :
  let field name state :=
    {| field_name := name; isSerializable := true; saveState := state |} in
  let block fields :=
    {| block_id := "2"; getConnections_ := [];
       inputList := [{| input_name := "IN"; fieldRow := fields |}];
       getRelativeToSurfaceXY := (0, 0)%Z |} in
  let mine_block := block [field "NAME" (VString "x"); field "toString" (VNumber 1)] in
  let previous_block := block [field "NAME" (VString "x")] in
  field_equal (saveFields previous_block) "toString" (VNumber 1) = false ∧
  (∀ verdict, ("toString", verdict) ∈ field_verdicts mine_block previous_block
              ↔ verdict = false).
Proof.
  intros field block mine_block previous_block.
  exact (proj2 (absent_field_unequal mine_block previous_block
                  "toString" (VNumber 1) eq_refl eq_refl eq_refl)).
Defined.

(** With [undefined] as the mine-side value, which no state-capture returns,
    the test would hold for an absent name. *)
Example undefined_state_equal :
  field_equal Object_create_null "NAME" VUndefined = true.
Proof. reflexivity. Qed.

Lemma strict_equals_primitive (a b : JsValue) :
  is_primitive a = true ∨ is_primitive b = true →
  strict_equals a b = deep_equals a b.
Proof.
  intros [H|H]; destruct a as [| | | | |? []|], b as [| | | | |? []|];
    try done.
Qed.

(** C2, as the code has it. For a common block and a field name present in
    the mine-side state, the verdict is the strict equality [===] of the
    previous-side and the mine-side value. When one of the two is a primitive
    (null, boolean, number, string) this is deep equality; when both are
    objects the verdict is equal exactly when they are one and the same
    object, whatever they hold. *)
Theorem field_verdict_strict (mine_block previous_block : Block)
    (key : string) (value : JsValue) :
  (key, value) ∈ Object_entries (saveFields mine_block) →
  let previous_value := js_get (saveFields previous_block) key in
  let verdict := field_equal (saveFields previous_block) key value in
  (key, verdict) ∈ field_verdicts mine_block previous_block ∧
  (is_primitive value = true ∨ is_primitive previous_value = true →
   (verdict = true ↔ deep_equals previous_value value = true)) ∧
  (∀ a c b d, previous_value = VObject a c → value = VObject b d →
              (verdict = true ↔ a = b)).
Proof.
  intros Hin previous_value verdict. split_and!.
  - apply elem_of_field_verdicts. exists value. split; [|done].
    apply lookup_own_Some; [apply NoDup_keys_saveFields|].
    by apply elem_of_Object_entries.
  - intros Hp. unfold verdict, field_equal. fold previous_value.
    rewrite strict_equals_primitive; [done|]. tauto.
  - intros a c b d Hp ->. unfold verdict, field_equal. fold previous_value.
    rewrite Hp. simpl. apply bool_decide_eq_true.
Qed.

Lemma field_verdict_strict_witness :
  let block state :=
    {| block_id := "2"; getConnections_ := [];
       inputList := [{| input_name := "IN";
                        fieldRow := [{| field_name := "NAME";
                                        isSerializable := true;
                                        saveState := state |}] |}];
       getRelativeToSurfaceXY := (0, 0)%Z |} in
  ("NAME", false) ∈ field_verdicts (block (VString "x")) (block (VString "y")).
Proof.
  intros block.
  assert (Hin : ("NAME", VString "x") ∈ Object_entries (saveFields (block (VString "x")))).
  { vm_compute. left. }
  exact (proj1 (field_verdict_strict (block (VString "x")) (block (VString "y"))
                  "NAME" (VString "x") Hin)).
Defined.

(** C2 fails as stated. The block "2" is in both workspaces and its field
    "VAR" holds the same variable on both sides; the state each side captures
    is an object of its own, {"id": "v1"}. The two states are deep-equal, yet
    the verdict is unequal. *)
Lemma deep_equal_states_unequal_verdict :
  let block addr :=
    {| block_id := "2"; getConnections_ := [];
       inputList := [{| input_name := "IN";
                        fieldRow := [{| field_name := "VAR";
                                        isSerializable := true;
                                        saveState :=
                                          VObject addr (CObject [("id", JString "v1")]) |}] |}];
       getRelativeToSurfaceXY := (0, 0)%Z |} in
  let mine_block := block 1%nat in
  let previous_block := block 2%nat in
  let value := VObject 1 (CObject [("id", JString "v1")]) in
  intersection (get_ids [mine_block]) (get_ids [previous_block]) = ["2"] ∧
  Object_entries (saveFields mine_block) = [("VAR", value)] ∧
  deep_equals (js_get (saveFields previous_block) "VAR") value = true ∧
  field_equal (saveFields previous_block) "VAR" value = false ∧
  field_verdicts mine_block previous_block = [("VAR", false)].
Proof. by vm_compute. Qed.

(** ** Selection bridge (C3) *)

(** A "selected" event whose block has no counterpart in the other workspace
    makes either handler throw, at [block.workspace], before any effect. *)
Lemma selection_missing_block (event : Event) (other_workspace : Workspace)
    (s : Search) :
  ev_type event = "selected" →
  truthy (newElementId event) = true →
  newElementId event ≫= blockById other_workspace = None →
  myMineSelection event other_workspace s = (s, Throw TypeError) ∧
  myPreviousSelection event other_workspace s = (s, Throw TypeError).
Proof.
  intros Ht Hn Hb. unfold myMineSelection, myPreviousSelection.
  rewrite Ht, Hn, Hb. by vm_compute.
Qed.

(** C3 does not hold of the code. Block "x" is selected in one workspace and
    the other workspace only has block "y": both handlers throw a TypeError
    where the specification asks for no action and no exception. When the
    block is there, it is highlighted and scrolled to. *)
Theorem selection_missing_block_throws :
  let event := {| ev_type := "selected"; workspaceId := "mine";
                  blockId := None; newElementId := Some "x" |} in
  let block id := {| block_id := id; getConnections_ := []; inputList := [];
                     getRelativeToSurfaceXY := (0, 0)%Z |} in
  let workspace side id blocks :=
    {| ws_side := side; ws_id := id; getAllBlocks := blocks; scrollY := 0;
       scale := 1; getMetrics := {| scrollLeft := 0; scrollTop := 0 |} |} in
  let start := {| search_classes := ∅; scrolled_to := [] |} in
  getBlockById (workspace Previous "previous" [block "y"]) "x" = None ∧
  myMineSelection event (workspace Previous "previous" [block "y"]) start
    = (start, Throw TypeError) ∧
  myPreviousSelection event (workspace Mine "mine" [block "y"]) start
    = (start, Throw TypeError) ∧
  (myMineSelection event (workspace Previous "previous" [block "x"]) start).2
    = Return tt ∧
  scrolled_to
    (myMineSelection event (workspace Previous "previous" [block "x"]) start).1
    = [(Previous, "x")].
Proof.
  intros event block workspace start. split_and!.
  - reflexivity.
  - by apply selection_missing_block.
  - by apply selection_missing_block.
  - reflexivity.
  - reflexivity.
Qed.

(** ** Scroll synchronizer (C7) *)

Lemma scroll_when_busy (event : Event) (mine_workspace previous_workspace : Workspace)
    (s : Sync) :
  ev_type event = "viewport_change" →
  busy s = true →
  scroll event mine_workspace previous_workspace s
  = ({| busy := false; scrollbar_calls := scrollbar_calls s |}, Return tt).
Proof.
  intros Ht Hb. unfold scroll, bind, get_busy, set_busy.
  rewrite Ht. simpl. by rewrite Hb.
Qed.

Lemma scroll_when_idle (event : Event) (mine_workspace previous_workspace : Workspace)
    (s : Sync) :
  ev_type event = "viewport_change" →
  busy s = false →
  let s' := (scroll event mine_workspace previous_workspace s).1 in
  busy s' = true ∧
  (scrollbar_calls s' = scrollbar_calls s ∨
   ∃ call, scrollbar_calls s' = call :: scrollbar_calls s).
Proof.
  intros Ht Hb. unfold scroll, bind, get_busy, set_busy.
  rewrite Ht. simpl. rewrite Hb.
  destruct (bool_decide (workspaceId event = ws_id mine_workspace));
    (match goal with
     | |- context [find ?p ?l] => destruct (find p l) as [block|]
     end; simpl; [|by auto]);
    (match goal with
     | |- context [getBlockById ?w ?i] => destruct (getBlockById w i) as [other|]
     end; simpl; [|by auto]);
    split; [done|right; by eexists| done|right; by eexists].
Qed.

(** Other events leave the synchronizer alone. *)
Lemma scroll_other_event (event : Event) (mine_workspace previous_workspace : Workspace)
    (s : Sync) :
  ev_type event ≠ "viewport_change" →
  scroll event mine_workspace previous_workspace s = (s, Return tt).
Proof.
  intros Ht. unfold scroll. by rewrite bool_decide_eq_false_2.
Qed.

(** C7. With the flag false, a viewport change on one workspace sets the flag
    and issues at most one scroll command, on the other workspace. The next
    viewport change, the echo of that command, whatever the workspaces then
    look like, issues no command and clears the flag; so the flag suppresses
    exactly one event, and the one after the echo is handled like the
    first. *)
Theorem scroll_echo_suppressed (first echo : Event)
    (mine_workspace previous_workspace mine_workspace' previous_workspace' : Workspace)
    (calls : list ScrollbarSet) :
  ev_type first = "viewport_change" →
  ev_type echo = "viewport_change" →
  let start := {| busy := false; scrollbar_calls := calls |} in
  let after_first := (scroll first mine_workspace previous_workspace start).1 in
  let after_echo := (scroll echo mine_workspace' previous_workspace' after_first).1 in
  busy after_first = true ∧
  scrollbar_calls after_echo = scrollbar_calls after_first ∧
  busy after_echo = false ∧
  (∀ next mine_workspace'' previous_workspace'',
     ev_type next = "viewport_change" →
     busy (scroll next mine_workspace'' previous_workspace'' after_echo).1 = true).
Proof.
  intros Hf He start after_first after_echo.
  destruct (scroll_when_idle first mine_workspace previous_workspace start Hf eq_refl)
    as [Hbusy _].
  fold after_first in Hbusy.
  assert (Hecho : scroll echo mine_workspace' previous_workspace' after_first
                  = ({| busy := false; scrollbar_calls := scrollbar_calls after_first |},
                     Return tt))
    by by apply scroll_when_busy.
  unfold after_echo. rewrite Hecho. simpl. split_and!; [done..|].
  intros next m p Hn. by apply scroll_when_idle.
Qed.

Lemma scroll_echo_suppressed_witness :
  let block id y := {| block_id := id; getConnections_ := []; inputList := [];
                       getRelativeToSurfaceXY := (10, y)%Z |} in
  let workspace side id y :=
    {| ws_side := side; ws_id := id; getAllBlocks := [block "1" y];
       scrollY := 0; scale := 1;
       getMetrics := {| scrollLeft := 0; scrollTop := 0 |} |} in
  let event id := {| ev_type := "viewport_change"; workspaceId := id;
                     blockId := None; newElementId := None |} in
  let start := {| busy := false; scrollbar_calls := [] |} in
  let after_first :=
    (scroll (event "A") (workspace Mine "A" 5%Z) (workspace Previous "B" 7%Z) start).1 in
  let after_echo :=
    (scroll (event "B") (workspace Mine "A" 5%Z) (workspace Previous "B" 7%Z)
            after_first).1 in
  scrollbar_calls after_first = [{| target := Previous; set_x := 10; set_y := 2 |}] ∧
  scrollbar_calls after_echo = scrollbar_calls after_first.
Proof.
  intros block workspace event start after_first after_echo.
  split; [reflexivity|].
  exact (proj1 (proj2 (scroll_echo_suppressed (event "A") (event "B")
                         (workspace Mine "A" 5%Z) (workspace Previous "B" 7%Z)
                         (workspace Mine "A" 5%Z) (workspace Previous "B" 7%Z)
                         [] eq_refl eq_refl))).
Defined.

(** ** Idempotence of the highlight driver (C5) *)

Lemma elem_of_apply_write (d : Deco) (w : Write) (m : Mark) :
  m ∈ apply_write d w ↔ (w.1 = m ∧ w.2 = true) ∨ (w.1 ≠ m ∧ m ∈ d).
Proof.
  unfold apply_write. destruct w as [m' []]; simpl.
  - rewrite elem_of_union, elem_of_singleton.
    destruct (decide (m' = m)); intuition congruence.
  - rewrite elem_of_difference, elem_of_singleton. intuition congruence.
Qed.

Lemma elem_of_apply_writes (ws : list Write) (d : Deco) (m : Mark) :
  m ∈ apply_writes ws d ↔
  last_write ws m = Some true ∨ (last_write ws m = None ∧ m ∈ d).
Proof.
  unfold apply_writes. revert d. induction ws as [|w ws IH]; intros d; simpl.
  - intuition congruence.
  - rewrite IH, elem_of_apply_write.
    destruct (last_write ws m) as [[]|]; [intuition congruence..|].
    destruct (decide (w.1 = m)), w as [m' []]; simpl in *; intuition congruence.
Qed.

Lemma apply_writes_idempotent (ws : list Write) (d : Deco) :
  apply_writes ws (apply_writes ws d) = apply_writes ws d.
Proof.
  apply set_eq. intros m. rewrite !elem_of_apply_writes. intuition congruence.
Qed.

Lemma apply_writes_app (ws ws' : list Write) (d : Deco) :
  apply_writes (ws ++ ws') d = apply_writes ws' (apply_writes ws d).
Proof. unfold apply_writes. apply fold_left_app. Qed.

Lemma scripted_ret {A} (a : A) : scripted (ret a).
Proof. by exists [], (Return a). Qed.

Lemma scripted_throw {A} (e : string) : scripted (throw (A:=A) e).
Proof. by exists [], (Throw e). Qed.

Lemma scripted_member_of {A} (o : option A) : scripted (member_of o).
Proof. destruct o; [apply scripted_ret|apply scripted_throw]. Qed.

Lemma scripted_bind {A B} (m : Eff Deco A) (k : A → Eff Deco B) :
  scripted m → (∀ a, scripted (k a)) → scripted (bind m k).
Proof.
  intros (ws & [a|e] & Hm) Hk.
  - destruct (Hk a) as (ws' & r & Hka). exists (ws ++ ws'), r. intros d.
    unfold bind. by rewrite Hm, Hka, apply_writes_app.
  - exists ws, (Throw e). intros d. unfold bind. by rewrite Hm.
Qed.

Lemma scripted_for_of {A} (xs : list A) (body : A → Eff Deco unit) :
  (∀ x, scripted (body x)) → scripted (for_of xs body).
Proof.
  intros Hbody. induction xs as [|x xs IH]; simpl.
  - apply scripted_ret.
  - apply scripted_bind; [apply Hbody|]. by intros _.
Qed.

(** Run twice, a scripted computation ends as it did the first time. *)
Lemma scripted_idempotent {A} (m : Eff Deco A) (d : Deco) :
  scripted m → m (m d).1 = m d.
Proof.
  intros (ws & r & Hm). rewrite !Hm. simpl. by rewrite apply_writes_idempotent.
Qed.

Lemma scripted_addClass (e : Element) (cls : string) : scripted (addClass e cls).
Proof. by exists [(HasClass e cls, true)], (Return tt). Qed.

Lemma scripted_removeClass (e : Element) (cls : string) : scripted (removeClass e cls).
Proof. by exists [(HasClass e cls, false)], (Return tt). Qed.

(** [if (!connection.highlightPath) connection.highlight()] switches the
    highlight on, whatever it was. *)
Lemma scripted_highlight_guarded (w : Side) (block : string) (j : nat) :
  scripted (let* lit := highlightPath w block j in
            if negb lit then highlight w block j else ret tt).
Proof.
  exists [(Highlighted w block j, true)], (Return tt). intros d.
  unfold bind, highlightPath, highlight, ret, apply_writes. simpl.
  unfold apply_write. simpl. case_bool_decide as H; simpl; [|done].
  f_equal. apply set_eq. intros m. rewrite elem_of_union, elem_of_singleton.
  intuition congruence.
Qed.

(** [if (connection.highlightPath) connection.unhighlight()] switches the
    highlight off, whatever it was. *)
Lemma scripted_unhighlight_guarded (w : Side) (block : string) (j : nat) :
  scripted (let* lit := highlightPath w block j in
            if lit then unhighlight w block j else ret tt).
Proof.
  exists [(Highlighted w block j, false)], (Return tt). intros d.
  unfold bind, highlightPath, unhighlight, ret, apply_writes. simpl.
  unfold apply_write. simpl. case_bool_decide as H; simpl; [done|].
  f_equal. apply set_eq. intros m. rewrite elem_of_difference, elem_of_singleton.
  intuition congruence.
Qed.

Create HintDb scripted.
#[local] Hint Resolve scripted_ret scripted_throw scripted_member_of
  scripted_addClass scripted_removeClass scripted_highlight_guarded
  scripted_unhighlight_guarded : scripted.

(** One step of a proof that a computation is scripted. *)
Ltac scripted_step :=
  match goal with
  | |- scripted _ => solve [auto with scripted]
  | |- scripted (bind _ _) => apply scripted_bind; [|intros ?]
  | |- scripted (for_of _ _) => apply scripted_for_of; intros ?
  | |- scripted (if ?c then _ else _) => destruct c
  | |- scripted (match ?o with Some _ => _ | None => _ end) => destruct o
  | |- scripted (let '(_, _) := ?p in _) => destruct p
  end.

Lemma scripted_unhighlightCommon b : scripted (unhighlightCommon b).
Proof. unfold unhighlightCommon. repeat scripted_step. Qed.

Lemma scripted_highlightMineAdded b : scripted (highlightMineAdded b).
Proof. unfold highlightMineAdded. repeat scripted_step. Qed.

Lemma scripted_highlightMineRemoved b : scripted (highlightMineRemoved b).
Proof. unfold highlightMineRemoved. repeat scripted_step. Qed.

Lemma scripted_apply_valid b key : scripted (apply_valid b key).
Proof. unfold apply_valid. repeat scripted_step. Qed.

Lemma scripted_apply_invalid b key : scripted (apply_invalid b key).
Proof. unfold apply_invalid. repeat scripted_step. Qed.

Lemma scripted_highlight_connections keys w : scripted (highlight_connections keys w).
Proof. unfold highlight_connections. repeat scripted_step. Qed.

Lemma scripted_unhighlight_connections keys w :
  scripted (unhighlight_connections keys w).
Proof. unfold unhighlight_connections. repeat scripted_step. Qed.

#[local] Hint Resolve scripted_unhighlightCommon scripted_highlightMineAdded
  scripted_highlightMineRemoved scripted_apply_valid scripted_apply_invalid
  scripted_highlight_connections scripted_unhighlight_connections : scripted.

Lemma scripted_show_diffs event mine_workspace previous_workspace :
  scripted (show_diffs event mine_workspace previous_workspace).
Proof. unfold show_diffs. repeat scripted_step. Qed.

(** C5. Applying [show_diffs] a second time to the same two workspaces, from
    the decoration the first application left, changes nothing: block
    classes, connection highlights and field marks are those of the first
    application, and the call ends the same way. *)
Theorem show_diffs_idempotent (event event' : Event)
    (mine_workspace previous_workspace : Workspace) (d : Deco) :
  let once := show_diffs event mine_workspace previous_workspace d in
  let twice := show_diffs event' mine_workspace previous_workspace once.1 in
  twice.1 = once.1 ∧ twice.2 = once.2.
Proof.
  intros once twice.
  assert (E : show_diffs event' mine_workspace previous_workspace
              = show_diffs event mine_workspace previous_workspace) by done.
  unfold twice. rewrite E. unfold once.
  by rewrite scripted_idempotent by apply scripted_show_diffs.
Qed.

(** ** The scenarios of the specification, run through [show_diffs] *)

(** [Object.entries] lists array-index keys first, in ascending order. *)
Example Object_entries_order :
  (Object_entries
     (mkObject None [("b", VNull); ("10", VNull); ("2", VNull); ("a", VNull);
                     ("01", VNull)])).*1
  = ["2"; "10"; "b"; "a"; "01"].
Proof. reflexivity. Qed.

(** Mine has the blocks 1, 2, 3 and previous has 2, 3, 4; the field NAME of
    block 2 is "x" in mine and "y" in previous. From a clean page, block 1 is
    marked added in mine, block 4 removed in previous, and the field is marked
    invalid on both sides. *)
Example show_diffs_scenario :
  let block id fields :=
    {| block_id := id; getConnections_ := [];
       inputList := [{| input_name := "IN"; fieldRow := fields |}];
       getRelativeToSurfaceXY := (0, 0)%Z |} in
  let name state :=
    [{| field_name := "NAME"; isSerializable := true; saveState := VString state |}] in
  let workspace side id blocks :=
    {| ws_side := side; ws_id := id; getAllBlocks := blocks; scrollY := 0;
       scale := 1; getMetrics := {| scrollLeft := 0; scrollTop := 0 |} |} in
  let event := {| ev_type := "change"; workspaceId := "mine";
                  blockId := Some "2"; newElementId := None |} in
  let mine := workspace Mine "mine" [block "1" []; block "2" (name "x"); block "3" []] in
  let previous :=
    workspace Previous "previous" [block "2" (name "y"); block "3" []; block "4" []] in
  show_diffs event mine previous ∅
  = ({[ HasClass (BlockPath Mine "1") "blockly-ws-merge-highlight-mine-added";
        HasClass (BlockPath Previous "4") "blockly-ws-merge-highlight-mine-removed";
        HasClass (FieldRect Mine "2" "NAME") "blocklyInvalidInput";
        HasClass (FieldRect Previous "2" "NAME") "blocklyInvalidInput" ]},
     Return tt).
Proof.
  intros block name workspace event mine previous.
  apply (bool_decide_unpack _). by vm_compute.
Qed.

(** The same variable on both sides of block 2: each side captures an object
    of its own, and the field is marked invalid on both sides. *)
Example show_diffs_object_state :
  let block addr :=
    {| block_id := "2"; getConnections_ := [];
       inputList := [{| input_name := "IN";
                        fieldRow := [{| field_name := "VAR";
                                        isSerializable := true;
                                        saveState :=
                                          VObject addr (CObject [("id", JString "v1")]) |}] |}];
       getRelativeToSurfaceXY := (0, 0)%Z |} in
  let workspace side id blocks :=
    {| ws_side := side; ws_id := id; getAllBlocks := blocks; scrollY := 0;
       scale := 1; getMetrics := {| scrollLeft := 0; scrollTop := 0 |} |} in
  let event := {| ev_type := "change"; workspaceId := "mine";
                  blockId := Some "2"; newElementId := None |} in
  show_diffs event (workspace Mine "mine" [block 1%nat])
             (workspace Previous "previous" [block 2%nat]) ∅
  = ({[ HasClass (FieldRect Mine "2" "VAR") "blocklyInvalidInput";
        HasClass (FieldRect Previous "2" "VAR") "blocklyInvalidInput" ]},
     Return tt).
Proof.
  intros block workspace event.
  apply (bool_decide_unpack _). by vm_compute.
Qed.

(** A serializable field that only the mine side of block 2 has: the mine
    side is marked invalid, then [apply_invalid] finds no such field on the
    previous side and the call ends in a TypeError. *)
Example show_diffs_absent_field :
  let block fields :=
    {| block_id := "2"; getConnections_ := [];
       inputList := [{| input_name := "IN"; fieldRow := fields |}];
       getRelativeToSurfaceXY := (0, 0)%Z |} in
  let workspace side id blocks :=
    {| ws_side := side; ws_id := id; getAllBlocks := blocks; scrollY := 0;
       scale := 1; getMetrics := {| scrollLeft := 0; scrollTop := 0 |} |} in
  let event := {| ev_type := "change"; workspaceId := "mine";
                  blockId := Some "2"; newElementId := None |} in
  show_diffs event
    (workspace Mine "mine"
       [block [{| field_name := "NAME"; isSerializable := true;
                  saveState := VString "x" |}]])
    (workspace Previous "previous" [block []]) ∅
  = ({[ HasClass (FieldRect Mine "2" "NAME") "blocklyInvalidInput" ]},
     Throw TypeError).
Proof.
  intros block workspace event.
  apply (bool_decide_unpack _). by vm_compute.
Qed.

(** The edge scenario: mine has the edge from "a" to "b" through the input
    "DO", previous has the two blocks unconnected. *)
Example edge_scenario :
  let block id connections :=
    {| block_id := id; getConnections_ := connections; inputList := [];
       getRelativeToSurfaceXY := (0, 0)%Z |} in
  let statement target :=
    {| conn_type := NEXT_STATEMENT; getParentInput := Some "DO";
       targetBlock := target |} in
  let previous_of target :=
    {| conn_type := PREVIOUS_STATEMENT; getParentInput := None;
       targetBlock := target |} in
  let mine_connections :=
    get_connections [block "a" [statement (Some "b")];
                     block "b" [previous_of (Some "a")]] in
  let previous_connections :=
    get_connections [block "a" [statement None]; block "b" [previous_of None]] in
  mine_connections = ["a DO b"] ∧
  previous_connections = ["a DO none"] ∧
  difference mine_connections previous_connections = ["a DO b"] ∧
  difference previous_connections mine_connections = ["a DO none"] ∧
  intersection previous_connections mine_connections = [].
Proof. by vm_compute. Qed.

(** ** More on the set algebra: order and size *)

Lemma fold_add_fresh (l : list string) (acc : JsSet.t) :
  NoDup (acc ++ l) → fold_left JsSet.add l acc = acc ++ l.
Proof.
  revert acc. induction l as [|x l IH]; intros acc Hnd; simpl.
  - by rewrite app_nil_r.
  - assert (Hx : JsSet.has acc x = false).
    { apply has_false. apply NoDup_app in Hnd as (_ & Hdisj & _).
      intros Hin. apply (Hdisj x Hin). left. }
    unfold JsSet.add at 2. rewrite Hx.
    rewrite IH; rewrite <- app_assoc; done.
Qed.

Lemma of_iterable_NoDup (l : list string) : NoDup l → JsSet.of_iterable l = l.
Proof. intros Hnd. unfold JsSet.of_iterable. by rewrite fold_add_fresh. Qed.

Lemma filter_all {A} (P : A → Prop) `{∀ x, Decision (P x)} (l : list A) :
  (∀ x, x ∈ l → P x) → filter P l = l.
Proof.
  induction l as [|a l IH]; intros HP; [done|].
  rewrite filter_cons_True by (apply HP; left).
  f_equal. apply IH. intros x Hx. apply HP. by right.
Qed.

Lemma delete_filter (s : list string) (x : string) :
  NoDup s → JsSet.delete s x = filter (fun y => y ≠ x) s.
Proof.
  induction 1 as [|y s Hy Hs IH]; [done|].
  cbn [JsSet.delete]. rewrite filter_cons. destruct (decide (x = y)) as [->|Hne].
  - rewrite decide_False by (intros H; by apply H).
    symmetry. apply filter_all. intros z Hz ->. done.
  - rewrite decide_True by congruence. by rewrite IH.
Qed.

Lemma difference_loop_filter (setB acc : list string) :
  NoDup acc →
  fold_left JsSet.delete setB acc = filter (fun x => x ∉ setB) acc.
Proof.
  revert acc. induction setB as [|b setB IH]; intros acc Hacc; simpl.
  - symmetry. apply filter_all. intros x _. apply not_elem_of_nil.
  - rewrite IH by by apply NoDup_delete.
    rewrite delete_filter by done. rewrite list_filter_filter.
    apply list_filter_iff. intros x. rewrite not_elem_of_cons. tauto.
Qed.

Lemma intersection_loop_filter (setA setB acc : list string) :
  NoDup (acc ++ setB) →
  fold_left
    (fun a elem => if JsSet.has setA elem then JsSet.add a elem else a)
    setB acc
  = acc ++ filter (fun x => x ∈ setA) setB.
Proof.
  revert acc. induction setB as [|b setB IH]; intros acc Hnd; simpl.
  - by rewrite filter_nil, app_nil_r.
  - assert (Hb : JsSet.has acc b = false).
    { apply has_false. apply NoDup_app in Hnd as (_ & Hdisj & _).
      intros Hin. apply (Hdisj b Hin). left. }
    rewrite filter_cons. destruct (JsSet.has setA b) eqn:E.
    + apply has_true in E. rewrite decide_True by done.
      unfold JsSet.add. rewrite Hb.
      rewrite IH; rewrite <- app_assoc; done.
    + apply has_false in E. rewrite decide_False by done.
      apply IH. apply NoDup_app in Hnd as (Ha & Hdisj & Hbs).
      apply NoDup_cons in Hbs as [_ Hbs].
      apply NoDup_app. split_and!; [done| |done].
      intros x Hx Hx'. apply (Hdisj x Hx). by right.
Qed.

(** X1. On duplicate-free sets, [difference A B] lists the elements of A that
    are not in B in the insertion order of A, and [intersection A B] lists the
    elements of B that are in A in the insertion order of B: the loops of
    [show_diffs] visit them in that order. *)
Theorem set_algebra_order (A B : list string) :
  NoDup A → NoDup B →
  difference A B = filter (fun x => x ∉ B) A ∧
  intersection A B = filter (fun x => x ∈ A) B.
Proof.
  intros HA HB. split.
  - unfold difference. rewrite of_iterable_NoDup by done.
    by apply difference_loop_filter.
  - unfold intersection. rewrite intersection_loop_filter; [done|].
    by rewrite app_nil_l.
Qed.

Lemma set_algebra_order_witness :
  difference ["1"; "2"; "3"] ["3"; "4"; "2"] = ["1"] ∧
  intersection ["1"; "2"; "3"] ["3"; "4"; "2"] = ["3"; "2"].
Proof.
  assert (H1 : NoDup ["1"; "2"; "3"]) by (by apply (bool_decide_unpack _)).
  assert (H2 : NoDup ["3"; "4"; "2"]) by (by apply (bool_decide_unpack _)).
  exact (set_algebra_order ["1"; "2"; "3"] ["3"; "4"; "2"] H1 H2).
Defined.

(** X2. On a duplicate-free set A, the elements [difference A B] keeps and
    the elements [intersection A B] finds add up to the size of A, whatever B
    is: in [show_diffs] every identity of mine is counted once, as added or as
    common. *)
Theorem difference_intersection_size (A B : list string) :
  NoDup A →
  length (difference A B) + length (intersection A B) = length A.
Proof.
  intros HA.
  assert (Hd : difference A B = filter (fun x => x ∉ B) A).
  { unfold difference. rewrite of_iterable_NoDup by done.
    apply difference_loop_filter, HA. }
  assert (Hi : intersection A B ≡ₚ filter (fun x => x ∈ B) A).
  { apply NoDup_Permutation; [apply NoDup_intersection|by apply NoDup_filter|].
    intros x. rewrite elem_of_js_intersection, list_elem_of_filter. tauto. }
  rewrite Hd, Hi, <- length_app.
  rewrite (Permutation_app_comm _ _). by rewrite filter_app_complement.
Qed.

Lemma difference_intersection_size_witness :
  length (difference ["1"; "2"; "3"] ["3"; "4"; "2"; "3"])
  + length (intersection ["1"; "2"; "3"] ["3"; "4"; "2"; "3"]) = 3.
Proof.
  assert (H1 : NoDup ["1"; "2"; "3"]) by (by apply (bool_decide_unpack _)).
  exact (difference_intersection_size ["1"; "2"; "3"] ["3"; "4"; "2"; "3"] H1).
Defined.

(** ** More on block identities and lookups *)

Lemma get_ids_of_iterable (blocks : list Block) :
  get_ids blocks = JsSet.of_iterable (map block_id blocks).
Proof.
  unfold get_ids, JsSet.of_iterable. generalize JsSet.empty.
  induction blocks as [|b blocks IH]; intros acc; [done|]. simpl. apply IH.
Qed.

(** X3. [get_ids] never holds an identity twice and never holds more
    identities than there are blocks; it is empty only for an empty list. *)
Theorem get_ids_no_duplicates (blocks : list Block) :
  NoDup (get_ids blocks) ∧
  (length (get_ids blocks) ≤ length blocks)%nat ∧
  (get_ids blocks = [] ↔ blocks = []).
Proof.
  rewrite get_ids_of_iterable. split_and!.
  - apply NoDup_of_iterable.
  - rewrite <- (length_map block_id blocks). apply submseteq_length.
    apply NoDup_submseteq; [apply NoDup_of_iterable|].
    intros x. by rewrite elem_of_of_iterable.
  - split.
    + intros E. destruct blocks as [|b blocks]; [done|]. exfalso.
      assert (Hin : block_id b ∈ JsSet.of_iterable (map block_id (b :: blocks))).
      { apply elem_of_of_iterable. left. }
      rewrite E in Hin. by apply elem_of_nil in Hin.
    + by intros ->.
Qed.

(** X4. When the blocks of a workspace have distinct identities, [get_ids]
    is the list of their identities in workspace order, one per block. *)
Theorem get_ids_distinct (blocks : list Block) :
  NoDup (map block_id blocks) →
  get_ids blocks = map block_id blocks.
Proof. intros Hnd. rewrite get_ids_of_iterable. by apply of_iterable_NoDup. Qed.

Lemma get_ids_distinct_witness :
  let block id := {| block_id := id; getConnections_ := []; inputList := [];
                     getRelativeToSurfaceXY := (0, 0)%Z |} in
  get_ids [block "b"; block "a"; block "c"] = ["b"; "a"; "c"].
Proof.
  intros block.
  assert (H : NoDup (map block_id [block "b"; block "a"; block "c"]))
    by (by apply (bool_decide_unpack _)).
  exact (get_ids_distinct [block "b"; block "a"; block "c"] H).
Defined.

Lemma getBlockById_Some (w : Workspace) (id : string) (b : Block) :
  getBlockById w id = Some b → b ∈ getAllBlocks w ∧ block_id b = id.
Proof.
  unfold getBlockById. intros H. apply find_some in H as [Hin Hid].
  split; [by apply list_elem_of_In|]. by apply bool_decide_eq_true in Hid.
Qed.

Lemma getBlockById_None (w : Workspace) (id : string) :
  getBlockById w id = None ↔ ∀ b, b ∈ getAllBlocks w → block_id b ≠ id.
Proof.
  unfold getBlockById. split.
  - intros H b Hb. apply list_elem_of_In in Hb.
    apply (find_none _ _ H) in Hb. by apply bool_decide_eq_false in Hb.
  - intros H. destruct (find _ _) as [b|] eqn:E; [|done].
    apply find_some in E as [Hin Hid]. apply list_elem_of_In in Hin.
    apply bool_decide_eq_true in Hid. by destruct (H b Hin).
Qed.

(** X5. Looking a block up by identity answers a block of exactly that
    identity when the identity is in [get_ids] of the workspace, and [null]
    otherwise: the lookups [show_diffs] makes with the identities it
    extracted never come back empty. *)
Theorem getBlockById_get_ids (w : Workspace) (id : string) :
  block_id <$> getBlockById w id
  = if decide (id ∈ get_ids (getAllBlocks w)) then Some id else None.
Proof.
  destruct (getBlockById w id) as [b|] eqn:E; simpl.
  - apply getBlockById_Some in E as [Hin <-].
    rewrite decide_True; [done|]. apply elem_of_get_ids. by exists b.
  - rewrite decide_False; [done|]. intros (b & Hb & Hid)%elem_of_get_ids.
    by apply (proj1 (getBlockById_None w id) E b).
Qed.

(** ** More on the field state *)

Lemma assign_fields_lookup (fields : list Field) (o : JsObject) (name : string) :
  lookup_own
    (own (fold_left
            (fun fields field => js_set fields (field_name field) (saveState field))
            fields o)) name
  = match last (filter (fun field => field_name field = name) fields) with
    | Some field => Some (saveState field)
    | None => lookup_own (own o) name
    end.
Proof.
  revert o. induction fields as [|f fields IH]; intros o; [done|].
  cbn [fold_left]. rewrite IH, filter_cons. destruct o as [p ps].
  cbn [js_set own proto]. rewrite lookup_update_own.
  destruct (decide (field_name f = name)) as [E|E].
  - rewrite last_cons. by destruct (last _).
  - done.
Qed.

Lemma assign_fields_keys (fields : list Field) (o : JsObject) :
  (own (fold_left
          (fun fields field => js_set fields (field_name field) (saveState field))
          fields o)).*1
  = fold_left JsSet.add (map field_name fields) (own o).*1.
Proof.
  revert o. induction fields as [|f fields IH]; intros o; [done|].
  cbn [fold_left map]. rewrite IH. destruct o as [p ps]. cbn [js_set own proto].
  rewrite keys_update_own. unfold JsSet.add, JsSet.has.
  destruct (decide (field_name f ∈ ps.*1)) as [Hin|Hnin].
  - by rewrite bool_decide_eq_true_2.
  - by rewrite bool_decide_eq_false_2.
Qed.

(** X6. The state [saveFields] records under a name is the state of the last
    serializable field of that name, inputs and fields taken in order, and
    [undefined] when there is none; fields that are not serializable never
    show. The names are kept once each, in the order they first occur. *)
Theorem saveFields_last_wins (block : Block) (name : string) :
  js_get (saveFields block) name
  = from_option saveState VUndefined
      (last (filter (fun field => field_name field = name)
                    (serializable_fields block))) ∧
  (own (saveFields block)).*1
  = JsSet.of_iterable (map field_name (serializable_fields block)).
Proof.
  split.
  - rewrite js_get_null_proto by apply proto_saveFields.
    rewrite saveFields_fold, assign_fields_lookup. by destruct (last _).
  - rewrite saveFields_fold, assign_fields_keys. done.
Qed.

Lemma getField_of_saved_name (block : Block) (key : string) :
  hasOwn (saveFields block) key = true →
  ∃ field, getField block key = Some field ∧ field_name field = key.
Proof.
  intros Hown. unfold hasOwn in Hown.
  destruct (lookup_own (own (saveFields block)) key) eqn:E; [|done].
  assert (Hex : ∃ f, f ∈ flat_map fieldRow (inputList block) ∧ field_name f = key).
  { destruct (decide (Exists (fun f => field_name f = key)
                             (serializable_fields block))) as [Hex|Hno].
    - apply Exists_exists in Hex as (f & Hf & Hk).
      apply list_elem_of_filter in Hf as [_ Hf]. by exists f.
    - exfalso. assert (Hnone : lookup_own (own (saveFields block)) key = None).
      { apply lookup_saveFields_None. intros f Hf Hk. apply Hno.
        apply Exists_exists. by exists f. }
      congruence. }
  destruct Hex as (f & Hf & Hk). unfold getField.
  destruct (find _ _) as [g|] eqn:Hfind.
  - exists g. split; [done|]. apply find_some in Hfind as [_ Hg].
    by apply bool_decide_eq_true in Hg.
  - apply list_elem_of_In in Hf. apply (find_none _ _ Hfind) in Hf.
    apply bool_decide_eq_false in Hf. done.
Qed.

(** X7. Every name [saveFields] records for a block is found again by
    [getField] on that block, as a field of that name: [apply_valid] and
    [apply_invalid] cannot fail on the block the state was taken from. *)
Theorem saveFields_getField (block : Block) (key : string) :
  hasOwn (saveFields block) key = true →
  ∃ field, getField block key = Some field ∧ field_name field = key.
Proof. apply getField_of_saved_name. Qed.

Lemma saveFields_getField_witness :
  let block :=
    {| block_id := "2"; getConnections_ := [];
       inputList := [{| input_name := "A";
                        fieldRow := [{| field_name := "NAME"; isSerializable := false;
                                        saveState := VString "label" |}] |};
                     {| input_name := "B";
                        fieldRow := [{| field_name := "NAME"; isSerializable := true;
                                        saveState := VString "x" |}] |}];
       getRelativeToSurfaceXY := (0, 0)%Z |} in
  ∃ field, getField block "NAME" = Some field ∧ field_name field = "NAME".
Proof.
  intros block. exact (saveFields_getField block "NAME" eq_refl).
Defined.

(** ** What [show_diffs] changes and what it leaves alone *)

Lemma bind_Return {S A B} (f : Eff S A) (k : A → Eff S B) (s s' : S) (a : A) :
  f s = (s', Return a) → bind f k s = k a s'.
Proof. intros H. unfold bind. by rewrite H. Qed.

Lemma bind_Throw {S A B} (f : Eff S A) (k : A → Eff S B) (s s' : S) (e : string) :
  f s = (s', Throw e) → bind f k s = (s', Throw e).
Proof. intros H. unfold bind. by rewrite H. Qed.

Lemma changes_only_weaken {A} (P Q : Mark → Prop) (f : Eff Deco A) :
  (∀ m, P m → Q m) → changes_only P f → changes_only Q f.
Proof. intros HPQ Hf d m Hm. apply Hf. intros HP. apply Hm, HPQ, HP. Qed.

Lemma changes_only_ret {A} (P : Mark → Prop) (a : A) : changes_only P (ret a).
Proof. by intros d m _. Qed.

Lemma changes_only_throw {A} (P : Mark → Prop) (e : string) :
  changes_only P (throw (A:=A) e).
Proof. by intros d m _. Qed.

Lemma changes_only_member_of {A} (P : Mark → Prop) (o : option A) :
  changes_only P (member_of o).
Proof. destruct o; [apply changes_only_ret|apply changes_only_throw]. Qed.

Lemma changes_only_bind {A B} (P : Mark → Prop) (f : Eff Deco A) (k : A → Eff Deco B) :
  changes_only P f → (∀ a, changes_only P (k a)) → changes_only P (bind f k).
Proof.
  intros Hf Hk d m Hm. unfold bind. specialize (Hf d m Hm).
  destruct (f d) as [d' [a|e]]; simpl in *; [|done].
  by rewrite (Hk a d' m Hm).
Qed.

Lemma changes_only_for_of {A} (P : Mark → Prop) (xs : list A)
    (body : A → Eff Deco unit) :
  (∀ x, x ∈ xs → changes_only P (body x)) → changes_only P (for_of xs body).
Proof.
  induction xs as [|x xs IH]; intros Hbody; simpl.
  - apply changes_only_ret.
  - apply changes_only_bind; [apply Hbody; left|]. intros _.
    apply IH. intros y Hy. apply Hbody. by right.
Qed.

Lemma changes_only_addClass (P : Mark → Prop) (e : Element) (cls : string) :
  P (HasClass e cls) → changes_only P (addClass e cls).
Proof.
  intros HP d m Hm. unfold addClass. simpl.
  rewrite elem_of_union, elem_of_singleton. split; [|by right].
  intros [->|?]; done.
Qed.

Lemma changes_only_removeClass (P : Mark → Prop) (e : Element) (cls : string) :
  P (HasClass e cls) → changes_only P (removeClass e cls).
Proof.
  intros HP d m Hm. unfold removeClass. simpl.
  rewrite elem_of_difference, elem_of_singleton. split; [by intros [? _]|].
  intros Hin. split; [done|]. by intros ->.
Qed.

Lemma changes_only_highlightPath (P : Mark → Prop) w block j :
  changes_only P (highlightPath w block j).
Proof. by intros d m _. Qed.

Lemma changes_only_highlight (P : Mark → Prop) w block j :
  P (Highlighted w block j) → changes_only P (highlight w block j).
Proof.
  intros HP d m Hm. unfold highlight. simpl.
  rewrite elem_of_union, elem_of_singleton. split; [|by right].
  intros [->|?]; done.
Qed.

Lemma changes_only_unhighlight (P : Mark → Prop) w block j :
  P (Highlighted w block j) → changes_only P (unhighlight w block j).
Proof.
  intros HP d m Hm. unfold unhighlight. simpl.
  rewrite elem_of_difference, elem_of_singleton. split; [by intros [? _]|].
  intros Hin. split; [done|]. by intros ->.
Qed.

(** One step of a proof that a computation changes only the marks of a
    decidable kind [k]. *)
Ltac changes_only_step :=
  match goal with
  | |- changes_only _ (ret _) => apply changes_only_ret
  | |- changes_only _ (throw _) => apply changes_only_throw
  | |- changes_only _ (member_of _) => apply changes_only_member_of
  | |- changes_only _ (highlightPath _ _ _) => apply changes_only_highlightPath
  | |- changes_only _ (addClass _ _) => apply changes_only_addClass; reflexivity
  | |- changes_only _ (removeClass _ _) => apply changes_only_removeClass; reflexivity
  | |- changes_only _ (highlight _ _ _) => apply changes_only_highlight; reflexivity
  | |- changes_only _ (unhighlight _ _ _) => apply changes_only_unhighlight; reflexivity
  | |- changes_only _ (bind _ _) => apply changes_only_bind; [|intros ?]
  | |- changes_only _ (for_of _ _) => apply changes_only_for_of; intros ? _
  | |- changes_only _ (if ?c then _ else _) => destruct c
  | |- changes_only _ (match ?o with Some _ => _ | None => _ end) => destruct o
  | |- changes_only _ (let '(_, _) := ?p in _) => destruct p
  | |- changes_only _ _ => progress cbv zeta
  end.

Lemma changes_only_highlight_connections keys w :
  changes_only (fun m => field_or_connection_mark m = true)
               (highlight_connections keys w).
Proof. unfold highlight_connections. repeat changes_only_step. Qed.

Lemma changes_only_unhighlight_connections keys w :
  changes_only (fun m => field_or_connection_mark m = true)
               (unhighlight_connections keys w).
Proof. unfold unhighlight_connections. repeat changes_only_step. Qed.

Lemma changes_only_apply_valid b key :
  changes_only (fun m => field_or_connection_mark m = true) (apply_valid b key).
Proof. unfold apply_valid. repeat changes_only_step. Qed.

Lemma changes_only_apply_invalid b key :
  changes_only (fun m => field_or_connection_mark m = true) (apply_invalid b key).
Proof. unfold apply_invalid. repeat changes_only_step. Qed.

Lemma field_or_connection_driver (m : Mark) :
  field_or_connection_mark m = true → driver_mark m = true.
Proof. by destruct m as [[]|]. Qed.

Lemma blockById_of_id (w : Workspace) (id : string) :
  id ∈ get_ids (getAllBlocks w) →
  ∃ b, blockById w id = Some (ws_side w, b) ∧ block_id b = id ∧ b ∈ getAllBlocks w.
Proof.
  intros (b0 & Hb0 & Hid)%elem_of_get_ids. unfold blockById.
  destruct (getBlockById w id) as [b|] eqn:E.
  - apply getBlockById_Some in E as [? ?]. by exists b.
  - by destruct (proj1 (getBlockById_None w id) E b0 Hb0).
Qed.

(** The first loop of [show_diffs]. *)
Lemma loop_added (w : Workspace) (ids : list string) (d : Deco) :
  (∀ id, id ∈ ids → id ∈ get_ids (getAllBlocks w)) →
  for_of ids (fun id =>
    let mine_block := blockById w id in highlightMineAdded mine_block) d
  = (list_to_set ((fun id => HasClass (BlockPath (ws_side w) id) mine_added) <$> ids) ∪ d,
     Return tt).
Proof.
  revert d. induction ids as [|id ids IH]; intros d Hids.
  - simpl. unfold ret. f_equal. set_solver.
  - cbn [for_of]. destruct (blockById_of_id w id) as (b & Hb & Hid & _).
    { apply Hids. left. }
    erewrite bind_Return; last first.
    { cbv zeta. rewrite Hb. unfold highlightMineAdded, member_of.
      erewrite bind_Return by reflexivity. simpl. rewrite Hid. reflexivity. }
    rewrite IH by (intros ? ?; apply Hids; by right).
    f_equal. rewrite fmap_cons, list_to_set_cons. set_solver.
Qed.

(** The second loop of [show_diffs]. *)
Lemma loop_removed (w : Workspace) (ids : list string) (d : Deco) :
  (∀ id, id ∈ ids → id ∈ get_ids (getAllBlocks w)) →
  for_of ids (fun id =>
    let previous_block := blockById w id in highlightMineRemoved previous_block) d
  = (list_to_set ((fun id => HasClass (BlockPath (ws_side w) id) mine_removed) <$> ids) ∪ d,
     Return tt).
Proof.
  revert d. induction ids as [|id ids IH]; intros d Hids.
  - simpl. unfold ret. f_equal. set_solver.
  - cbn [for_of]. destruct (blockById_of_id w id) as (b & Hb & Hid & _).
    { apply Hids. left. }
    erewrite bind_Return; last first.
    { cbv zeta. rewrite Hb. unfold highlightMineRemoved, member_of.
      erewrite bind_Return by reflexivity. simpl. rewrite Hid. reflexivity. }
    rewrite IH by (intros ? ?; apply Hids; by right).
    f_equal. rewrite fmap_cons, list_to_set_cons. set_solver.
Qed.

(** The third loop of [show_diffs]. *)
Lemma loop_common (mine previous : Workspace) (ids : list string) (d : Deco) :
  (∀ id, id ∈ ids → id ∈ get_ids (getAllBlocks mine)) →
  (∀ id, id ∈ ids → id ∈ get_ids (getAllBlocks previous)) →
  for_of ids (fun id =>
    let previous_block := blockById previous id in
    let mine_block := blockById mine id in
    unhighlightCommon previous_block >>
    unhighlightCommon mine_block) d
  = (d ∖ list_to_set (ids ≫= cleared_marks (ws_side mine) (ws_side previous)),
     Return tt).
Proof.
  revert d. induction ids as [|id ids IH]; intros d Hm Hp.
  - simpl. unfold ret. f_equal. set_solver.
  - cbn [for_of].
    destruct (blockById_of_id mine id) as (bm & Hbm & Hidm & _); [apply Hm; left|].
    destruct (blockById_of_id previous id) as (bp & Hbp & Hidp & _); [apply Hp; left|].
    erewrite bind_Return; last first.
    { cbv zeta. rewrite Hbm, Hbp.
      unfold unhighlightCommon, member_of, bind, ret, removeClass.
      cbn [fst snd]. rewrite Hidm, Hidp. reflexivity. }
    rewrite IH by (intros ? ?; (apply Hm || apply Hp); by right).
    f_equal. rewrite bind_cons, list_to_set_app_L. unfold cleared_marks at 2.
    set_solver.
Qed.

Lemma elem_of_cleared (mine previous : Side) (ids : list string) (m : Mark) :
  m ∈ (list_to_set (ids ≫= cleared_marks mine previous) : gset Mark) ↔
  ∃ id, id ∈ ids ∧ m ∈ cleared_marks mine previous id.
Proof. rewrite elem_of_list_to_set, list_elem_of_bind. naive_solver. Qed.

Lemma changes_only_show_diffs_tail (mine previous : Workspace) (ids : list string) :
  changes_only (fun m => field_or_connection_mark m = true)
    (for_of ids (fun id =>
       let previous_block := blockById previous id in
       let mine_block := blockById mine id in
       let* mine_state := (let* b := member_of mine_block in ret (saveFields b.2)) in
       let* previous_state :=
         (let* b := member_of previous_block in ret (saveFields b.2)) in
       for_of (Object_entries mine_state) (fun '(key, value) =>
         if field_equal previous_state key value then
           apply_valid mine_block key >>
           apply_valid previous_block key
         else
           apply_invalid mine_block key >>
           apply_invalid previous_block key))).
Proof.
  repeat first [ apply changes_only_apply_valid | apply changes_only_apply_invalid
               | changes_only_step ].
Qed.

(** After the block loops, [show_diffs] only touches fields and
    connections. *)
Lemma show_diffs_block_marks (event : Event) (mine previous : Workspace)
    (d : Deco) (m : Mark) :
  field_or_connection_mark m = false →
  m ∈ (show_diffs event mine previous d).1 ↔ m ∈ after_block_loops mine previous d.
Proof.
  intros Hm. unfold show_diffs, after_block_loops. cbv zeta.
  erewrite bind_Return; last first.
  { apply loop_added. intros id Hid. by apply elem_of_difference_js in Hid as [? _]. }
  erewrite bind_Return; last first.
  { apply loop_removed. intros id Hid. by apply elem_of_difference_js in Hid as [? _]. }
  erewrite bind_Return; last first.
  { apply loop_common; intros id Hid; by apply elem_of_js_intersection in Hid as [? ?]. }
  match goal with
  | |- _ ∈ (?t _).1 ↔ _ =>
      assert (Ht : changes_only (fun m => field_or_connection_mark m = true) t)
  end.
  { repeat first [ apply changes_only_highlight_connections
                 | apply changes_only_unhighlight_connections
                 | apply changes_only_show_diffs_tail
                 | changes_only_step ]. }
  apply Ht. by rewrite Hm.
Qed.

Lemma elem_of_after_block_loops (mine previous : Workspace) (d : Deco) (m : Mark) :
  let mine_ids := get_ids (getAllBlocks mine) in
  let previous_ids := get_ids (getAllBlocks previous) in
  m ∈ after_block_loops mine previous d ↔
  ((∃ id, id ∈ previous_ids ∧ id ∉ mine_ids ∧
          m = HasClass (BlockPath (ws_side previous) id) mine_removed) ∨
   (∃ id, id ∈ mine_ids ∧ id ∉ previous_ids ∧
          m = HasClass (BlockPath (ws_side mine) id) mine_added) ∨
   m ∈ d) ∧
  ¬ (∃ id, id ∈ mine_ids ∧ id ∈ previous_ids ∧
           m ∈ cleared_marks (ws_side mine) (ws_side previous) id).
Proof.
  intros mine_ids previous_ids. unfold after_block_loops.
  rewrite elem_of_difference, elem_of_cleared, !elem_of_union,
    !elem_of_list_to_set, !list_elem_of_fmap.
  fold mine_ids previous_ids.
  setoid_rewrite elem_of_difference_js. setoid_rewrite elem_of_js_intersection.
  naive_solver.
Qed.

(** X8. [show_diffs] changes nothing but the two merge classes on block
    paths, the invalid class on fields and the connection highlights: every
    other class on every element is as it was, whether the call returns or
    throws. In particular it never applies the value-changed class of
    [highlightValueChanged], nor the classes of the workspace search. *)
Theorem show_diffs_changes_only (event : Event) (mine previous : Workspace)
    (d : Deco) (m : Mark) :
  driver_mark m = false →
  m ∈ (show_diffs event mine previous d).1 ↔ m ∈ d.
Proof.
  intros Hm.
  assert (Hfc : field_or_connection_mark m = false).
  { destruct (field_or_connection_mark m) eqn:E; [|done].
    apply field_or_connection_driver in E. congruence. }
  rewrite show_diffs_block_marks by done.
  rewrite elem_of_after_block_loops. split.
  - intros [[(id & _ & _ & ->)|[(id & _ & _ & ->)|?]] _]; done.
  - intros Hd. split; [by right; right|].
    intros (id & _ & _ & Hin). unfold cleared_marks in Hin.
    repeat (apply elem_of_cons in Hin as [->|Hin]; [done|]).
    by apply elem_of_nil in Hin.
Qed.

Lemma show_diffs_changes_only_witness :
  let block id := {| block_id := id; getConnections_ := []; inputList := [];
                     getRelativeToSurfaceXY := (0, 0)%Z |} in
  let workspace side id blocks :=
    {| ws_side := side; ws_id := id; getAllBlocks := blocks; scrollY := 0;
       scale := 1; getMetrics := {| scrollLeft := 0; scrollTop := 0 |} |} in
  let event := {| ev_type := "change"; workspaceId := "mine";
                  blockId := Some "1"; newElementId := None |} in
  let m := HasClass (BlockPath Mine "1") "blockly-ws-merge-highlight-value-changed" in
  m ∈ (show_diffs event (workspace Mine "mine" [block "1"])
                  (workspace Previous "previous" [block "2"]) {[m]}).1.
Proof.
  intros block workspace event m.
  apply (show_diffs_changes_only event (workspace Mine "mine" [block "1"])
           (workspace Previous "previous" [block "2"]) {[m]} m eq_refl).
  by apply elem_of_singleton.
Defined.

(** X9. After [show_diffs], whether it returns or throws in its later
    parts: a block that only mine has carries the mine-added class on the
    mine side; a block that only previous has carries the mine-removed class
    on the previous side; a block that both have carries neither class on
    either side. *)
Theorem show_diffs_block_classes (event : Event) (mine previous : Workspace)
    (d : Deco) (id : string) :
  let mine_ids := get_ids (getAllBlocks mine) in
  let previous_ids := get_ids (getAllBlocks previous) in
  let final := (show_diffs event mine previous d).1 in
  (id ∈ mine_ids → id ∉ previous_ids →
   HasClass (BlockPath (ws_side mine) id) mine_added ∈ final) ∧
  (id ∈ previous_ids → id ∉ mine_ids →
   HasClass (BlockPath (ws_side previous) id) mine_removed ∈ final) ∧
  (id ∈ mine_ids → id ∈ previous_ids →
   HasClass (BlockPath (ws_side mine) id) mine_added ∉ final ∧
   HasClass (BlockPath (ws_side mine) id) mine_removed ∉ final ∧
   HasClass (BlockPath (ws_side previous) id) mine_added ∉ final ∧
   HasClass (BlockPath (ws_side previous) id) mine_removed ∉ final).
Proof.
  intros mine_ids previous_ids final. unfold final.
  assert (Hnot : ∀ m id', m ∈ cleared_marks (ws_side mine) (ws_side previous) id' →
                          ∃ s cls, m = HasClass (BlockPath s id') cls).
  { intros m id' Hin. unfold cleared_marks in Hin.
    repeat (apply elem_of_cons in Hin as [->|Hin]; [by eexists _, _|]).
    by apply elem_of_nil in Hin. }
  split_and!.
  - intros Hm Hp. rewrite show_diffs_block_marks by done.
    apply elem_of_after_block_loops. split.
    + right; left. by exists id.
    + intros (id' & _ & Hp' & Hin). apply Hnot in Hin as (s & cls & [= _ <- _]). done.
  - intros Hp Hm. rewrite show_diffs_block_marks by done.
    apply elem_of_after_block_loops. split.
    + left. by exists id.
    + intros (id' & Hm' & _ & Hin). apply Hnot in Hin as (s & cls & [= _ <- _]). done.
  - intros Hm Hp.
    assert (Hc : ∀ m, m ∈ cleared_marks (ws_side mine) (ws_side previous) id →
                      m ∉ (show_diffs event mine previous d).1).
    { intros m Hin. destruct (Hnot m id Hin) as (s & cls & ->).
      rewrite show_diffs_block_marks by done.
      rewrite elem_of_after_block_loops. intros [_ Hno]. apply Hno. by exists id. }
    split_and!; apply Hc; unfold cleared_marks; set_solver.
Qed.

Lemma show_diffs_block_classes_witness :
  let block id := {| block_id := id; getConnections_ := []; inputList := [];
                     getRelativeToSurfaceXY := (0, 0)%Z |} in
  let workspace side id blocks :=
    {| ws_side := side; ws_id := id; getAllBlocks := blocks; scrollY := 0;
       scale := 1; getMetrics := {| scrollLeft := 0; scrollTop := 0 |} |} in
  let event := {| ev_type := "change"; workspaceId := "mine";
                  blockId := Some "1"; newElementId := None |} in
  let mine := workspace Mine "mine" [block "1"; block "2"] in
  let previous := workspace Previous "previous" [block "2"; block "4"] in
  let stale := {[ HasClass (BlockPath Mine "2") mine_added ]} in
  HasClass (BlockPath Mine "1") mine_added ∈ (show_diffs event mine previous stale).1 ∧
  HasClass (BlockPath Mine "2") mine_added ∉ (show_diffs event mine previous stale).1.
Proof.
  intros block workspace event mine previous stale.
  pose proof (show_diffs_block_classes event mine previous stale "1") as (H1 & _ & _).
  pose proof (show_diffs_block_classes event mine previous stale "2") as (_ & _ & H2).
  split.
  - apply H1; by apply (bool_decide_unpack _).
  - apply H2; by apply (bool_decide_unpack _).
Defined.

(** ** When [show_diffs] returns *)

Lemma never_throws_ret {A} (a : A) : never_throws (ret a).
Proof. intros d. by exists a. Qed.

Lemma never_throws_member_of {A} (o : option A) :
  is_Some o → never_throws (member_of o).
Proof. intros [a ->]. apply never_throws_ret. Qed.

Lemma never_throws_bind {A B} (f : Eff Deco A) (k : A → Eff Deco B) :
  never_throws f → (∀ a, never_throws (k a)) → never_throws (bind f k).
Proof.
  intros Hf Hk d. unfold bind. destruct (Hf d) as [a Ha].
  destruct (f d) as [d' r]. simpl in Ha. subst r. apply Hk.
Qed.

Lemma never_throws_for_of {A} (xs : list A) (body : A → Eff Deco unit) :
  (∀ x, x ∈ xs → never_throws (body x)) → never_throws (for_of xs body).
Proof.
  induction xs as [|x xs IH]; intros Hbody; simpl.
  - apply never_throws_ret.
  - apply never_throws_bind; [apply Hbody; left|]. intros _.
    apply IH. intros y Hy. apply Hbody. by right.
Qed.

Lemma never_throws_step {A} (f : Eff Deco A) :
  (∀ d, ∃ d' a, f d = (d', Return a)) → never_throws f.
Proof. intros H d. destruct (H d) as (d' & a & ->). by exists a. Qed.

(** One step of a proof that a computation returns. *)
Ltac never_throws_step :=
  match goal with
  | |- never_throws (ret _) => apply never_throws_ret
  | |- never_throws (addClass _ _) => apply never_throws_step; intros ?; by eexists _, _
  | |- never_throws (removeClass _ _) => apply never_throws_step; intros ?; by eexists _, _
  | |- never_throws (highlightPath _ _ _) => apply never_throws_step; intros ?; by eexists _, _
  | |- never_throws (highlight _ _ _) => apply never_throws_step; intros ?; by eexists _, _
  | |- never_throws (unhighlight _ _ _) => apply never_throws_step; intros ?; by eexists _, _
  | |- never_throws (member_of (Some _)) => apply never_throws_member_of; by eexists
  | |- never_throws (bind _ _) => apply never_throws_bind; [|intros ?]
  | |- never_throws (for_of _ _) => apply never_throws_for_of; intros ? ?
  | |- never_throws (if ?c then _ else _) => destruct c
  | |- never_throws (match ?o with Some _ => _ | None => _ end) => destruct o
  | |- never_throws (let '(_, _) := ?p in _) => destruct p
  | |- never_throws _ => progress cbv zeta
  end.

Lemma elem_of_get_connections (blocks : list Block) (key : string) :
  key ∈ get_connections blocks ↔
  ∃ block connection,
    block ∈ blocks ∧ connection ∈ getConnections_ block ∧
    conn_type connection = NEXT_STATEMENT ∧
    key = connection_key (block_id block) connection.
Proof.
  unfold get_connections.
  rewrite get_connections_loop. fold (JsSet.of_iterable
    (map spec_edge_key (next_statement_connections blocks))).
  rewrite elem_of_of_iterable, list_elem_of_fmap. split.
  - intros ([source c] & -> & Hin).
    apply elem_of_next_statement_connections in Hin as (b & ? & <- & ? & ?).
    exists b, c. by rewrite connection_key_spec.
  - intros (b & c & Hb & Hc & Ht & ->). exists (block_id b, c).
    split; [by rewrite connection_key_spec|].
    apply elem_of_next_statement_connections. by exists b.
Qed.

Lemma split_head (source rest : string) :
  occurs " " source = false →
  split " " (source +:+ String " " rest) !! 0%nat = Some source.
Proof. intros H. by rewrite split_append. Qed.

Lemma connection_key_head (source : string) (connection : Connection) :
  occurs " " source = false →
  split " " (connection_key source connection) !! 0%nat = Some source.
Proof. intros H. unfold connection_key, edge_key. by apply split_head. Qed.

Lemma ids_without_space_elem (w : Workspace) (b : Block) :
  ids_without_space w = true → b ∈ getAllBlocks w →
  occurs " " (block_id b) = false.
Proof.
  unfold ids_without_space. rewrite forallb_forall. intros H Hb.
  apply list_elem_of_In in Hb. apply H in Hb. by apply negb_true_iff in Hb.
Qed.

(** The keys taken from a workspace lead back to its blocks. *)
Lemma key_block_found (w : Workspace) (key : string) :
  ids_without_space w = true →
  key ∈ get_connections (getAllBlocks w) →
  is_Some (split " " key !! 0%nat ≫= blockById w).
Proof.
  intros Hw (b & c & Hb & _ & _ & ->)%elem_of_get_connections.
  rewrite connection_key_head by by apply (ids_without_space_elem w).
  simpl. destruct (blockById_of_id w (block_id b)) as (b' & -> & _).
  { apply elem_of_get_ids. by exists b. }
  by eexists.
Qed.

Lemma never_throws_highlight_connections (keys : list string) (w : Workspace) :
  ids_without_space w = true →
  (∀ key, key ∈ keys → key ∈ get_connections (getAllBlocks w)) →
  never_throws (highlight_connections keys w).
Proof.
  intros Hw Hkeys. unfold highlight_connections.
  apply never_throws_for_of. intros key Hkey. cbv zeta.
  destruct (key_block_found w key Hw (Hkeys key Hkey)) as [b ->].
  repeat never_throws_step.
Qed.

Lemma never_throws_unhighlight_connections (keys : list string) (w : Workspace) :
  ids_without_space w = true →
  (∀ key, key ∈ keys → key ∈ get_connections (getAllBlocks w)) →
  never_throws (unhighlight_connections keys w).
Proof.
  intros Hw Hkeys. unfold unhighlight_connections.
  apply never_throws_for_of. intros key Hkey. cbv zeta.
  destruct (key_block_found w key Hw (Hkeys key Hkey)) as [b ->].
  repeat never_throws_step.
Qed.

Lemma bind_ret {S A B} (a : A) (k : A → Eff S B) : bind (ret a) k = k a.
Proof. reflexivity. Qed.

Lemma bind_member_of {S A B} (a : A) (k : A → Eff S B) :
  bind (member_of (Some a)) k = k a.
Proof. reflexivity. Qed.

Lemma never_throws_apply_valid (b : BlockHandle) (key : string) :
  is_Some (getField b.2 key) → never_throws (apply_valid (Some b) key).
Proof.
  intros [f Hf]. unfold apply_valid. rewrite bind_member_of, Hf, bind_member_of.
  never_throws_step.
Qed.

Lemma never_throws_apply_invalid (b : BlockHandle) (key : string) :
  is_Some (getField b.2 key) → never_throws (apply_invalid (Some b) key).
Proof.
  intros [f Hf]. unfold apply_invalid. rewrite bind_member_of, Hf, bind_member_of.
  never_throws_step.
Qed.

Lemma entry_key_saved (block : Block) (key : string) (value : JsValue) :
  (key, value) ∈ Object_entries (saveFields block) →
  key ∈ (own (saveFields block)).*1 ∧ hasOwn (saveFields block) key = true.
Proof.
  intros Hin%elem_of_Object_entries.
  assert (Hk : key ∈ (own (saveFields block)).*1).
  { apply list_elem_of_fmap. by exists (key, value). }
  split; [done|]. unfold hasOwn.
  destruct (lookup_own (own (saveFields block)) key) eqn:E; [done|].
  by apply lookup_own_None in E.
Qed.

Lemma fields_resolve_elem (mine previous : Workspace) (id key : string)
    (mine_block previous_block : Block) :
  fields_resolve mine previous = true →
  id ∈ intersection (get_ids (getAllBlocks mine)) (get_ids (getAllBlocks previous)) →
  getBlockById mine id = Some mine_block →
  getBlockById previous id = Some previous_block →
  key ∈ (own (saveFields mine_block)).*1 →
  is_Some (getField previous_block key).
Proof.
  unfold fields_resolve. rewrite forallb_forall. intros H Hid Hm Hp Hkey.
  apply list_elem_of_In in Hid. apply H in Hid. rewrite Hm, Hp in Hid.
  rewrite forallb_forall in Hid. apply list_elem_of_In in Hkey.
  apply Hid in Hkey. by apply bool_decide_eq_true in Hkey.
Qed.

Lemma blockById_getBlockById (w : Workspace) (id : string) (s : Side) (b : Block) :
  blockById w id = Some (s, b) → getBlockById w id = Some b.
Proof. unfold blockById. destruct (getBlockById w id); [|done]. by intros [= _ ->]. Qed.

(** The parts of [show_diffs] before the field loop return. *)
Ltac in_left_of lem :=
  let H := fresh "Hin" in intros ? H; by apply lem in H as [? _].

Ltac in_both_of lem :=
  let H := fresh "Hin" in intros ? H; by apply lem in H as [? ?].

Ltac show_diffs_prefix bind_lemma Hm Hp :=
  unfold show_diffs; cbv zeta;
  apply bind_lemma; [|intros _];
  [ apply never_throws_step; intros ?; eexists _, _; apply loop_added;
    in_left_of elem_of_difference_js |];
  apply bind_lemma; [|intros _];
  [ apply never_throws_step; intros ?; eexists _, _; apply loop_removed;
    in_left_of elem_of_difference_js |];
  apply bind_lemma; [|intros _];
  [ apply never_throws_step; intros ?; eexists _, _;
    apply loop_common; in_both_of elem_of_js_intersection |];
  apply bind_lemma; [|intros _];
  [ apply never_throws_highlight_connections; [exact Hm|];
    in_left_of elem_of_difference_js |];
  apply bind_lemma; [|intros _];
  [ apply never_throws_highlight_connections; [exact Hp|];
    in_left_of elem_of_difference_js |];
  apply bind_lemma; [|intros _];
  [ apply never_throws_unhighlight_connections; [exact Hm|];
    in_both_of elem_of_js_intersection |];
  apply bind_lemma; [|intros _];
  [ apply never_throws_unhighlight_connections; [exact Hp|];
    in_both_of elem_of_js_intersection |].

Lemma show_diffs_never_throws (event : Event) (mine previous : Workspace) :
  ids_without_space mine = true →
  ids_without_space previous = true →
  fields_resolve mine previous = true →
  never_throws (show_diffs event mine previous).
Proof.
  intros Hm Hp Hf. show_diffs_prefix (@never_throws_bind unit unit) Hm Hp.
  apply never_throws_for_of. intros id Hid.
  pose proof Hid as [Him Hip]%elem_of_js_intersection.
  destruct (blockById_of_id mine id Him) as (bm & Hbm & _).
  destruct (blockById_of_id previous id Hip) as (bp & Hbp & _).
  rewrite Hbm, Hbp, !bind_member_of, !bind_ret. cbn [snd].
  apply never_throws_for_of. intros [key value] Hentry.
  apply entry_key_saved in Hentry as [Hkey Hown].
  assert (Hkm : is_Some (getField bm key)).
  { destruct (getField_of_saved_name bm key Hown) as (f & -> & _). by eexists. }
  assert (Hkp : is_Some (getField bp key)).
  { apply (fields_resolve_elem mine previous id key bm bp); try done;
      by eapply blockById_getBlockById. }
  destruct (field_equal (saveFields bp) key value);
    (apply never_throws_bind; [|intros _]);
    first [ by apply (never_throws_apply_valid (_, _))
          | by apply (never_throws_apply_invalid (_, _)) ].
Qed.

(** ** When [show_diffs] throws *)

Lemma throws_only_ret {A} (e : string) (a : A) : throws_only e (ret a).
Proof. intros d. left. by exists a. Qed.

Lemma throws_only_member_of {A} (o : option A) : throws_only TypeError (member_of o).
Proof. intros d. destruct o as [a|]; [left; by exists a|by right]. Qed.

Lemma throws_only_bind {A B} (e : string) (f : Eff Deco A) (k : A → Eff Deco B) :
  throws_only e f → (∀ a, throws_only e (k a)) → throws_only e (bind f k).
Proof.
  intros Hf Hk d. unfold bind. destruct (Hf d) as [[a Ha]|He];
    destruct (f d) as [d' r]; simpl in *; subst r; [apply Hk|by right].
Qed.

Lemma throws_only_for_of {A} (e : string) (xs : list A) (body : A → Eff Deco unit) :
  (∀ x, throws_only e (body x)) → throws_only e (for_of xs body).
Proof.
  intros Hbody. induction xs as [|x xs IH]; simpl.
  - apply throws_only_ret.
  - apply throws_only_bind; [apply Hbody|]. by intros _.
Qed.

Lemma never_throws_only {A} (e : string) (f : Eff Deco A) :
  never_throws f → throws_only e f.
Proof. intros H d. left. apply H. Qed.

(** One step of a proof that a computation only throws TypeErrors. *)
Ltac throws_only_step :=
  match goal with
  | |- throws_only _ (ret _) => apply throws_only_ret
  | |- throws_only _ (member_of _) => apply throws_only_member_of
  | |- throws_only _ (addClass _ _) => apply never_throws_only; never_throws_step
  | |- throws_only _ (removeClass _ _) => apply never_throws_only; never_throws_step
  | |- throws_only _ (bind _ _) => apply throws_only_bind; [|intros ?]
  | |- throws_only _ (for_of _ _) => apply throws_only_for_of; intros ?
  | |- throws_only _ (if ?c then _ else _) => destruct c
  | |- throws_only _ (match ?o with Some _ => _ | None => _ end) => destruct o
  | |- throws_only _ (let '(_, _) := ?p in _) => destruct p
  | |- throws_only _ _ => progress cbv zeta
  end.

Lemma throws_only_apply_valid b key : throws_only TypeError (apply_valid b key).
Proof. unfold apply_valid. repeat throws_only_step. Qed.

Lemma throws_only_apply_invalid b key : throws_only TypeError (apply_invalid b key).
Proof. unfold apply_invalid. repeat throws_only_step. Qed.

Lemma always_throws_bind_l {A B} (e : string) (f : Eff Deco A) (k : A → Eff Deco B) :
  always_throws e f → always_throws e (bind f k).
Proof.
  intros Hf d. unfold bind. specialize (Hf d).
  destruct (f d) as [d' r]. simpl in *. by subst r.
Qed.

Lemma always_throws_bind_r {A B} (e : string) (f : Eff Deco A) (k : A → Eff Deco B) :
  never_throws f → (∀ a, always_throws e (k a)) → always_throws e (bind f k).
Proof.
  intros Hf Hk d. unfold bind. destruct (Hf d) as [a Ha].
  destruct (f d) as [d' r]. simpl in *. subst r. apply Hk.
Qed.

Lemma always_throws_for_of {A} (e : string) (xs : list A) (body : A → Eff Deco unit)
    (x : A) :
  x ∈ xs → always_throws e (body x) → (∀ y, throws_only e (body y)) →
  always_throws e (for_of xs body).
Proof.
  intros Hx Hthrow Honly. induction xs as [|y xs IH]; [by apply elem_of_nil in Hx|].
  intros d. simpl. unfold bind.
  destruct (Honly y d) as [[[] Ha]|He]; destruct (body y d) as [d' r] eqn:E;
    simpl in *; subst r; [|done].
  apply elem_of_cons in Hx as [->|Hx].
  - specialize (Hthrow d). rewrite E in Hthrow. done.
  - by apply IH.
Qed.

Lemma forallb_false {A} (f : A → bool) (l : list A) :
  forallb f l = false → ∃ x, x ∈ l ∧ f x = false.
Proof.
  induction l as [|a l IH]; simpl; [done|].
  destruct (f a) eqn:E; simpl.
  - intros (x & Hx & Hf)%IH. exists x. split; [by right|done].
  - intros _. exists a. split; [left|done].
Qed.

Lemma always_throws_apply (b : BlockHandle) (key : string) (valid : bool) :
  getField b.2 key = None →
  always_throws TypeError
    (if valid then apply_valid (Some b) key else apply_invalid (Some b) key).
Proof.
  intros Hf d. destruct valid; unfold apply_valid, apply_invalid;
    by rewrite bind_member_of, Hf.
Qed.

(** The field loop of [show_diffs] for the common identities [ids]. *)
Lemma field_loop_outcome (mine previous : Workspace) (ids : list string) :
  (∀ id, id ∈ ids →
         id ∈ intersection (get_ids (getAllBlocks mine))
                           (get_ids (getAllBlocks previous))) →
  let loop :=
    for_of ids (fun id =>
      let previous_block := blockById previous id in
      let mine_block := blockById mine id in
      let* mine_state := (let* b := member_of mine_block in ret (saveFields b.2)) in
      let* previous_state :=
        (let* b := member_of previous_block in ret (saveFields b.2)) in
      for_of (Object_entries mine_state) (fun '(key, value) =>
        if field_equal previous_state key value then
          apply_valid mine_block key >>
          apply_valid previous_block key
        else
          apply_invalid mine_block key >>
          apply_invalid previous_block key)) in
  throws_only TypeError loop ∧
  (∀ id mine_block previous_block key,
     id ∈ ids →
     getBlockById mine id = Some mine_block →
     getBlockById previous id = Some previous_block →
     key ∈ (own (saveFields mine_block)).*1 →
     getField previous_block key = None →
     always_throws TypeError loop).
Proof.
  intros Hids loop. split.
  - unfold loop. repeat first [ apply throws_only_apply_valid
                              | apply throws_only_apply_invalid
                              | throws_only_step ].
  - intros id bm bp key Hid Hbm Hbp Hkey Hnone. unfold loop.
    apply (always_throws_for_of _ _ _ id Hid).
    + cbv zeta. unfold blockById. rewrite Hbm, Hbp, !bind_member_of, !bind_ret.
      cbn [snd].
      apply list_elem_of_fmap in Hkey as ([key' value] & -> & Hentry).
      apply elem_of_Object_entries in Hentry. simpl in Hnone.
      apply (always_throws_for_of _ _ _ (key', value) Hentry).
      * assert (Hown : hasOwn (saveFields bm) key' = true)
          by (by destruct (entry_key_saved bm key' value Hentry)).
        destruct (getField_of_saved_name bm key' Hown) as (f & Hf & _).
        destruct (field_equal (saveFields bp) key' value);
          (apply always_throws_bind_r;
           [first [ apply (never_throws_apply_valid (_, _))
                  | apply (never_throws_apply_invalid (_, _)) ];
            simpl; rewrite Hf; by eexists|]);
          intros _.
        -- by apply (always_throws_apply (_, _) key' true).
        -- by apply (always_throws_apply (_, _) key' false).
      * intros [k v]. repeat first [ apply throws_only_apply_valid
                                   | apply throws_only_apply_invalid
                                   | throws_only_step ].
    + intros id'. repeat first [ apply throws_only_apply_valid
                               | apply throws_only_apply_invalid
                               | throws_only_step ].
Qed.

Lemma show_diffs_always_throws (event : Event) (mine previous : Workspace) :
  ids_without_space mine = true →
  ids_without_space previous = true →
  fields_resolve mine previous = false →
  always_throws TypeError (show_diffs event mine previous).
Proof.
  intros Hm Hp Hf.
  show_diffs_prefix (@always_throws_bind_r unit unit TypeError) Hm Hp.
  apply forallb_false in Hf as (id & Hid & Hf).
  destruct (getBlockById mine id) as [bm|] eqn:Hbm; [|done].
  destruct (getBlockById previous id) as [bp|] eqn:Hbp; [|done].
  apply forallb_false in Hf as (key & Hkey & Hf).
  apply bool_decide_eq_false in Hf.
  eapply (proj2 (field_loop_outcome mine previous _ (fun _ H => H))); try done.
  destruct (getField bp key); [|done]. destruct Hf. by eexists.
Qed.

(** X10. When no block identity of either workspace holds a space,
    [show_diffs] returns exactly when, for every block the two workspaces
    share, each name in the field state of the mine side is the name of a
    field of the previous side; otherwise it ends in a TypeError. *)
Theorem show_diffs_outcome (event : Event) (mine previous : Workspace) (d : Deco) :
  ids_without_space mine = true →
  ids_without_space previous = true →
  (show_diffs event mine previous d).2
  = if fields_resolve mine previous then Return tt else Throw TypeError.
Proof.
  intros Hm Hp. destruct (fields_resolve mine previous) eqn:Hf.
  - destruct (show_diffs_never_throws event mine previous Hm Hp Hf d) as [[] H].
    exact H.
  - by apply show_diffs_always_throws.
Qed.

Lemma show_diffs_outcome_witness :
  let block fields :=
    {| block_id := "2"; getConnections_ := [];
       inputList := [{| input_name := "IN"; fieldRow := fields |}];
       getRelativeToSurfaceXY := (0, 0)%Z |} in
  let name state :=
    {| field_name := "NAME"; isSerializable := true; saveState := VString state |} in
  let workspace side id blocks :=
    {| ws_side := side; ws_id := id; getAllBlocks := blocks; scrollY := 0;
       scale := 1; getMetrics := {| scrollLeft := 0; scrollTop := 0 |} |} in
  let event := {| ev_type := "change"; workspaceId := "mine";
                  blockId := Some "2"; newElementId := None |} in
  (show_diffs event (workspace Mine "mine" [block [name "x"]])
              (workspace Previous "previous" [block [name "y"]]) ∅).2 = Return tt ∧
  (show_diffs event (workspace Mine "mine" [block [name "x"]])
              (workspace Previous "previous" [block []]) ∅).2 = Throw TypeError.
Proof.
  intros block name workspace event. split.
  - exact (show_diffs_outcome event (workspace Mine "mine" [block [name "x"]])
             (workspace Previous "previous" [block [name "y"]]) ∅ eq_refl eq_refl).
  - exact (show_diffs_outcome event (workspace Mine "mine" [block [name "x"]])
             (workspace Previous "previous" [block []]) ∅ eq_refl eq_refl).
Defined.

(** ** The field marks [show_diffs] leaves *)

Lemma preserves_bind {A B} (m : Mark) (f : Eff Deco A) (k : A → Eff Deco B) :
  preserves m f → (∀ a, preserves m (k a)) → preserves m (bind f k).
Proof.
  intros Hf Hk d. unfold bind. specialize (Hf d).
  destruct (f d) as [d' [a|e]]; simpl in *; [|done]. by rewrite (Hk a d').
Qed.

Lemma preserves_for_of {A} (m : Mark) (xs : list A) (body : A → Eff Deco unit) :
  (∀ x, x ∈ xs → preserves m (body x)) → preserves m (for_of xs body).
Proof.
  induction xs as [|x xs IH]; intros Hbody; simpl; [done|].
  apply preserves_bind; [apply Hbody; left|]. intros _.
  apply IH. intros y Hy. apply Hbody. by right.
Qed.

Lemma changes_only_preserves {A} (P : Mark → Prop) (m : Mark) (f : Eff Deco A) :
  changes_only P f → ¬ P m → preserves m f.
Proof. intros Hf Hm d. by apply Hf. Qed.

Lemma assigns_bind_r {A B} (m : Mark) (v : bool) (f : Eff Deco A) (k : A → Eff Deco B) :
  never_throws f → (∀ a, assigns m v (k a)) → assigns m v (bind f k).
Proof.
  intros Hf Hk d. unfold bind. destruct (Hf d) as [a Ha].
  destruct (f d) as [d' r]. simpl in *. subst r. apply Hk.
Qed.

Lemma assigns_bind_l {A B} (m : Mark) (v : bool) (f : Eff Deco A) (k : A → Eff Deco B) :
  assigns m v f → (∀ a, preserves m (k a) ∨ assigns m v (k a)) →
  assigns m v (bind f k).
Proof.
  intros Hf Hk d. unfold bind. specialize (Hf d).
  destruct (f d) as [d' [a|e]]; simpl in *; [|done].
  destruct (Hk a) as [H|H]; [by rewrite (H d')|apply H].
Qed.

Lemma assigns_for_of {A} (m : Mark) (v : bool) (xs : list A)
    (body : A → Eff Deco unit) (x : A) :
  NoDup xs → x ∈ xs →
  (∀ y, y ∈ xs → never_throws (body y)) →
  assigns m v (body x) →
  (∀ y, y ∈ xs → y ≠ x → preserves m (body y)) →
  assigns m v (for_of xs body).
Proof.
  intros Hnd Hx Hret Hassign Hpres.
  induction xs as [|y xs IH]; [by apply elem_of_nil in Hx|].
  apply NoDup_cons in Hnd as [Hy Hnd]. cbn [for_of].
  apply elem_of_cons in Hx as [->|Hx].
  - apply assigns_bind_l; [done|]. intros _. left.
    apply preserves_for_of. intros z Hz. apply Hpres; [by right|].
    by intros ->.
  - apply assigns_bind_r; [apply Hret; left|]. intros _.
    apply IH; try done.
    + intros z Hz. apply Hret. by right.
    + intros z Hz. apply Hpres. by right.
Qed.

(** On a block that has the field, [apply_valid] and [apply_invalid] switch
    the invalid class of that field of that block off and on. *)
Lemma apply_mark (s : Side) (b : Block) (key : string) (cls_on : bool) :
  is_Some (getField b key) →
  assigns (HasClass (FieldRect s (block_id b) key) invalid_input) cls_on
    (if cls_on then apply_invalid (Some (s, b)) key
     else apply_valid (Some (s, b)) key).
Proof.
  intros [f Hf].
  assert (Hname : field_name f = key).
  { unfold getField in Hf. apply find_some in Hf as [_ Hf].
    by apply bool_decide_eq_true in Hf. }
  unfold apply_valid, apply_invalid.
  rewrite !bind_member_of. cbn [fst snd]. rewrite Hf, !bind_member_of, Hname.
  intros d; destruct cls_on; simpl.
  - rewrite elem_of_union, elem_of_singleton. by split; [|left].
  - rewrite elem_of_difference, elem_of_singleton. split; [|done].
    by intros [_ ?].
Qed.

Lemma bind_throw {S A B} (e : string) (k : A → Eff S B) :
  bind (throw e) k = throw e.
Proof. reflexivity. Qed.

(** They change nothing but that class of that field. *)
Lemma changes_only_apply (h : option BlockHandle) (key : string) (cls_on : bool) :
  changes_only
    (fun m => ∃ s b, h = Some (s, b) ∧
                     m = HasClass (FieldRect s (block_id b) key) invalid_input)
    (if cls_on then apply_invalid h key else apply_valid h key).
Proof.
  destruct h as [[s b]|].
  - destruct (getField b key) as [f|] eqn:Hf.
    + assert (Hname : field_name f = key).
      { unfold getField in Hf. apply find_some in Hf as [_ Hf].
        by apply bool_decide_eq_true in Hf. }
      destruct cls_on; unfold apply_valid, apply_invalid;
        rewrite !bind_member_of; cbn [fst snd]; rewrite Hf, !bind_member_of, Hname;
        [apply changes_only_addClass|apply changes_only_removeClass];
        by exists s, b.
    + destruct cls_on; unfold apply_valid, apply_invalid;
        rewrite !bind_member_of; cbn [fst snd]; rewrite Hf;
        apply changes_only_throw.
  - destruct cls_on; apply changes_only_throw.
Qed.

Lemma apply_preserves_key (h : option BlockHandle) (key key' : string) (s : Side)
    (id : string) (cls_on : bool) :
  key' ≠ key →
  preserves (HasClass (FieldRect s id key) invalid_input)
    (if cls_on then apply_invalid h key' else apply_valid h key').
Proof.
  intros Hne. eapply changes_only_preserves; [apply changes_only_apply|].
  intros (s' & b & _ & [= _ _ ?]). done.
Qed.

Lemma apply_preserves_block (w : Workspace) (id id' key key' : string) (s : Side)
    (cls_on : bool) :
  id' ≠ id →
  preserves (HasClass (FieldRect s id key) invalid_input)
    (if cls_on then apply_invalid (blockById w id') key'
     else apply_valid (blockById w id') key').
Proof.
  intros Hne. eapply changes_only_preserves; [apply changes_only_apply|].
  intros (s' & b & Hb & [= _ Hid _]).
  apply blockById_getBlockById, getBlockById_Some in Hb as [_ Hb]. congruence.
Qed.

(** The body of the field loop of [show_diffs]. *)
Abbreviation field_loop_body mine previous :=
  (fun id : string =>
     let previous_block := blockById previous id in
     let mine_block := blockById mine id in
     let* mine_state := (let* b := member_of mine_block in ret (saveFields b.2)) in
     let* previous_state :=
       (let* b := member_of previous_block in ret (saveFields b.2)) in
     for_of (Object_entries mine_state) (fun '(key, value) =>
       if field_equal previous_state key value then
         apply_valid mine_block key >>
         apply_valid previous_block key
       else
         apply_invalid mine_block key >>
         apply_invalid previous_block key)) (only parsing).

Lemma field_loop_body_preserves (mine previous : Workspace) (id id' key : string)
    (s : Side) :
  id' ≠ id →
  preserves (HasClass (FieldRect s id key) invalid_input)
            (field_loop_body mine previous id').
Proof.
  intros Hne. cbv zeta.
  apply preserves_bind; [|intros mine_state].
  { eapply changes_only_preserves with (P := fun _ => False); [|tauto].
    repeat changes_only_step. }
  apply preserves_bind; [|intros previous_state].
  { eapply changes_only_preserves with (P := fun _ => False); [|tauto].
    repeat changes_only_step. }
  apply preserves_for_of. intros [key' value'] _.
  destruct (field_equal previous_state key' value');
    (apply preserves_bind; [|intros _]);
    first [ by apply (apply_preserves_block _ _ _ _ _ _ true)
          | by apply (apply_preserves_block _ _ _ _ _ _ false) ].
Qed.

Lemma NoDup_Object_entries_saveFields (block : Block) :
  NoDup (Object_entries (saveFields block)) ∧
  ∀ key v v', (key, v) ∈ Object_entries (saveFields block) →
              (key, v') ∈ Object_entries (saveFields block) → v = v'.
Proof.
  pose proof (NoDup_keys_saveFields block) as Hk. split.
  - rewrite Object_entries_perm. by apply NoDup_fmap_1 in Hk.
  - intros key v v' Hv Hv'. apply elem_of_Object_entries in Hv, Hv'.
    apply (lookup_own_Some _ _ _ Hk) in Hv, Hv'. congruence.
Qed.

Lemma field_loop_body_never_throws (mine previous : Workspace) (id : string) :
  fields_resolve mine previous = true →
  id ∈ intersection (get_ids (getAllBlocks mine)) (get_ids (getAllBlocks previous)) →
  never_throws (field_loop_body mine previous id).
Proof.
  intros Hf Hid. pose proof Hid as [Him Hip]%elem_of_js_intersection.
  destruct (blockById_of_id mine id Him) as (bm & Hbm & _).
  destruct (blockById_of_id previous id Hip) as (bp & Hbp & _).
  cbv zeta. rewrite Hbm, Hbp, !bind_member_of, !bind_ret. cbn [snd].
  apply never_throws_for_of. intros [key value] Hentry.
  apply entry_key_saved in Hentry as [Hkey Hown].
  assert (Hkm : is_Some (getField bm key)).
  { destruct (getField_of_saved_name bm key Hown) as (f & -> & _). by eexists. }
  assert (Hkp : is_Some (getField bp key)).
  { apply (fields_resolve_elem mine previous id key bm bp); try done;
      by eapply blockById_getBlockById. }
  destruct (field_equal (saveFields bp) key value);
    (apply never_throws_bind; [|intros _]);
    first [ by apply (never_throws_apply_valid (_, _))
          | by apply (never_throws_apply_invalid (_, _)) ].
Qed.

(** For the block of identity [id] and a name of its mine-side state, the
    body leaves the invalid class on both sides exactly when the test
    fails. *)
Lemma field_loop_body_assigns (mine previous : Workspace) (id key : string)
    (bm bp : Block) (value : JsValue) (s : Side) :
  fields_resolve mine previous = true →
  getBlockById mine id = Some bm →
  getBlockById previous id = Some bp →
  (key, value) ∈ Object_entries (saveFields bm) →
  s = ws_side mine ∨ s = ws_side previous →
  assigns (HasClass (FieldRect s id key) invalid_input)
          (negb (field_equal (saveFields bp) key value))
          (field_loop_body mine previous id).
Proof.
  intros Hf Hbm Hbp Hentry Hs.
  assert (Hid : id ∈ intersection (get_ids (getAllBlocks mine))
                                  (get_ids (getAllBlocks previous))).
  { apply elem_of_js_intersection.
    apply getBlockById_Some in Hbm as [? ?], Hbp as [? ?].
    split; apply elem_of_get_ids; by eexists. }
  pose proof (getBlockById_Some _ _ _ Hbm) as [_ Hidm].
  pose proof (getBlockById_Some _ _ _ Hbp) as [_ Hidp].
  destruct (NoDup_Object_entries_saveFields bm) as [Hnd Hfun].
  assert (Hres : ∀ k v, (k, v) ∈ Object_entries (saveFields bm) →
                        is_Some (getField bm k) ∧ is_Some (getField bp k)).
  { intros k v [Hk Hown]%entry_key_saved. split.
    - destruct (getField_of_saved_name bm k Hown) as (f & -> & _). by eexists.
    - by apply (fields_resolve_elem mine previous id k bm bp). }
  cbv zeta. unfold blockById. rewrite Hbm, Hbp, !bind_member_of, !bind_ret.
  cbn [snd].
  apply (assigns_for_of _ _ _ _ (key, value)); [done|done| | |].
  - intros [k v] Hkv. destruct (Hres k v Hkv) as [Hkm Hkp].
    destruct (field_equal (saveFields bp) k v);
      (apply never_throws_bind; [|intros _]);
      first [ by apply (never_throws_apply_valid (_, _))
            | by apply (never_throws_apply_invalid (_, _)) ].
  - destruct (Hres key value Hentry) as [Hkm Hkp].
    pose proof (apply_mark (ws_side mine) bm key) as Am.
    pose proof (apply_mark (ws_side previous) bp key) as Ap.
    rewrite Hidm in Am. rewrite Hidp in Ap.
    destruct (field_equal (saveFields bp) key value); cbn [negb];
      destruct Hs as [-> | ->].
    + apply assigns_bind_l; [by apply (Am false)|]. intros _.
      destruct (decide (ws_side mine = ws_side previous)) as [E|E].
      * right. rewrite E. by apply (Ap false).
      * left. eapply changes_only_preserves;
          [apply (changes_only_apply _ _ false)|].
        intros (s' & b & [= <- <-] & [= ? _]). done.
    + apply assigns_bind_r; [by apply (never_throws_apply_valid (_, _))|].
      intros _. by apply (Ap false).
    + apply assigns_bind_l; [by apply (Am true)|]. intros _.
      destruct (decide (ws_side mine = ws_side previous)) as [E|E].
      * right. rewrite E. by apply (Ap true).
      * left. eapply changes_only_preserves;
          [apply (changes_only_apply _ _ true)|].
        intros (s' & b & [= <- <-] & [= ? _]). done.
    + apply assigns_bind_r; [by apply (never_throws_apply_invalid (_, _))|].
      intros _. by apply (Ap true).
  - intros [k v] Hkv Hne.
    assert (Hk : k ≠ key).
    { intros ->. apply Hne. f_equal. by apply (Hfun key). }
    destruct (field_equal (saveFields bp) k v);
      (apply preserves_bind; [|intros _]);
      first [ by apply (apply_preserves_key _ _ _ _ _ true)
            | by apply (apply_preserves_key _ _ _ _ _ false) ].
Qed.

(** X11. When [show_diffs] returns (no identity with a space, every name of
    a shared block found on the previous side), then for every block the two
    workspaces share and every name in its mine-side field state, the field
    of that name carries the invalid class, on the mine side and on the
    previous side, exactly when its verdict is unequal. *)
Theorem show_diffs_field_marks (event : Event) (mine previous : Workspace) (d : Deco)
    (id key : string) (mine_block previous_block : Block) (verdict : bool) :
  ids_without_space mine = true →
  ids_without_space previous = true →
  fields_resolve mine previous = true →
  getBlockById mine id = Some mine_block →
  getBlockById previous id = Some previous_block →
  (key, verdict) ∈ field_verdicts mine_block previous_block →
  let final := (show_diffs event mine previous d).1 in
  (HasClass (FieldRect (ws_side mine) id key) invalid_input ∈ final
   ↔ verdict = false) ∧
  (HasClass (FieldRect (ws_side previous) id key) invalid_input ∈ final
   ↔ verdict = false).
Proof.
  intros Hm Hp Hf Hbm Hbp Hv final.
  apply elem_of_field_verdicts in Hv as (value & Hl & ->).
  assert (Hentry : (key, value) ∈ Object_entries (saveFields mine_block)).
  { apply elem_of_Object_entries.
    by apply lookup_own_Some; [apply NoDup_keys_saveFields|]. }
  assert (Hid : id ∈ intersection (get_ids (getAllBlocks mine))
                                  (get_ids (getAllBlocks previous))).
  { apply elem_of_js_intersection.
    apply getBlockById_Some in Hbm as [? ?], Hbp as [? ?].
    split; apply elem_of_get_ids; by eexists. }
  assert (H : ∀ s, s = ws_side mine ∨ s = ws_side previous →
                   assigns (HasClass (FieldRect s id key) invalid_input)
                           (negb (field_equal (saveFields previous_block) key value))
                           (show_diffs event mine previous)).
  { intros s Hs.
    show_diffs_prefix
      (@assigns_bind_r unit unit (HasClass (FieldRect s id key) invalid_input)
         (negb (field_equal (saveFields previous_block) key value))) Hm Hp.
    apply (assigns_for_of _ _ _ _ id); [apply NoDup_intersection|done| | |].
    - intros id' Hid'. by apply field_loop_body_never_throws.
    - by apply (field_loop_body_assigns mine previous id key mine_block previous_block).
    - intros id' _ Hne. by apply field_loop_body_preserves. }
  unfold final. split.
  - rewrite (H (ws_side mine) (or_introl eq_refl) d).
    by destruct (field_equal _ _ _).
  - rewrite (H (ws_side previous) (or_intror eq_refl) d).
    by destruct (field_equal _ _ _).
Qed.

Lemma show_diffs_field_marks_witness :
  let block state :=
    {| block_id := "2"; getConnections_ := [];
       inputList := [{| input_name := "IN";
                        fieldRow := [{| field_name := "NAME"; isSerializable := true;
                                        saveState := VString state |}] |}];
       getRelativeToSurfaceXY := (0, 0)%Z |} in
  let workspace side id blocks :=
    {| ws_side := side; ws_id := id; getAllBlocks := blocks; scrollY := 0;
       scale := 1; getMetrics := {| scrollLeft := 0; scrollTop := 0 |} |} in
  let event := {| ev_type := "change"; workspaceId := "mine";
                  blockId := Some "2"; newElementId := None |} in
  let mine := workspace Mine "mine" [block "x"] in
  let previous := workspace Previous "previous" [block "y"] in
  HasClass (FieldRect Mine "2" "NAME") invalid_input
    ∈ (show_diffs event mine previous ∅).1 ∧
  HasClass (FieldRect Previous "2" "NAME") invalid_input
    ∈ (show_diffs event mine previous ∅).1.
Proof.
  intros block workspace event mine previous.
  assert (Hv : ("NAME", false) ∈ field_verdicts (block "x") (block "y")).
  { vm_compute. left. }
  pose proof (show_diffs_field_marks event mine previous ∅ "2" "NAME"
                (block "x") (block "y") false
                eq_refl eq_refl eq_refl eq_refl eq_refl Hv) as [H1 H2].
  split; [by apply H1|by apply H2].
Defined.

(** ** Highlighting and unhighlighting connections *)

Lemma mirrored_ret {A} (a : A) : mirrored (ret a) (ret a).
Proof.
  exists ∅, (Return a). split; intros d; unfold ret; f_equal; set_solver.
Qed.

Lemma mirrored_member_of {A} (o : option A) : mirrored (member_of o) (member_of o).
Proof.
  destruct o as [a|]; [apply mirrored_ret|].
  exists ∅, (Throw TypeError). split; intros d; unfold member_of, throw; f_equal;
    set_solver.
Qed.

Lemma mirrored_bind {A B} (f g : Eff Deco A) (k k' : A → Eff Deco B) :
  mirrored f g → (∀ a, mirrored (k a) (k' a)) → mirrored (bind f k) (bind g k').
Proof.
  intros (M & [a|e] & Hf & Hg) Hk.
  - destruct (Hk a) as (M' & r & Hka & Hka'). exists (M ∪ M'), r.
    split; intros d; unfold bind.
    + rewrite Hf, Hka. f_equal. set_solver.
    + rewrite Hg, Hka'. f_equal. set_solver.
  - exists M, (Throw e). split; intros d; unfold bind; by rewrite ?Hf, ?Hg.
Qed.

Lemma mirrored_for_of {A} (xs : list A) (body body' : A → Eff Deco unit) :
  (∀ x, mirrored (body x) (body' x)) → mirrored (for_of xs body) (for_of xs body').
Proof.
  intros Hbody. induction xs as [|x xs IH]; simpl.
  - apply mirrored_ret.
  - apply mirrored_bind; [apply Hbody|]. by intros _.
Qed.

Lemma mirrored_guarded (w : Side) (block : string) (j : nat) :
  mirrored
    (let* lit := highlightPath w block j in
     if negb lit then highlight w block j else ret tt)
    (let* lit := highlightPath w block j in
     if lit then unhighlight w block j else ret tt).
Proof.
  exists {[Highlighted w block j]}, (Return tt). split; intros d;
    unfold bind, highlightPath, highlight, unhighlight, ret;
    destruct (decide (Highlighted w block j ∈ d)) as [Hin|Hnin];
    rewrite ?(bool_decide_eq_true_2 _ Hin), ?(bool_decide_eq_false_2 _ Hnin);
    cbn [negb]; f_equal; set_solver.
Qed.

Lemma mirrored_connections (keys : list string) (w : Workspace) :
  mirrored (highlight_connections keys w) (unhighlight_connections keys w).
Proof.
  unfold highlight_connections, unhighlight_connections.
  apply mirrored_for_of. intros key. cbv zeta.
  apply mirrored_bind; [apply mirrored_member_of|]. intros block.
  apply mirrored_for_of. intros [j connection].
  destruct (decide (conn_type connection = NEXT_STATEMENT)); [|apply mirrored_ret].
  destruct (getParentInput connection) as [input|];
    match goal with
    | |- context [is_name ?a ?b] => destruct (is_name a b)
    end; first [apply mirrored_guarded | apply mirrored_ret].
Qed.

(** X12. [unhighlight_connections] undoes [highlight_connections], and the
    other way round: run on the same keys and workspace after the other,
    either one ends as if the other had not run, in the decoration it leaves
    and in the way it ends, also when a key names no block and both throw. *)
Theorem highlight_unhighlight_absorb (keys : list string) (w : Workspace) (d : Deco) :
  unhighlight_connections keys w (highlight_connections keys w d).1
  = unhighlight_connections keys w d ∧
  highlight_connections keys w (unhighlight_connections keys w d).1
  = highlight_connections keys w d.
Proof.
  destruct (mirrored_connections keys w) as (M & r & Hh & Hu).
  rewrite !Hh, !Hu. cbn [fst]. split; f_equal; apply set_eq; intros m;
    rewrite ?elem_of_difference, ?elem_of_union, ?elem_of_difference;
    destruct (decide (m ∈ M)); tauto.
Qed.

Lemma only_adds_ret {A} (a : A) : only_adds (ret a).
Proof. by intros d m. Qed.

Lemma only_adds_member_of {A} (o : option A) : only_adds (member_of o).
Proof. by destruct o; intros d m. Qed.

Lemma only_adds_bind {A B} (f : Eff Deco A) (k : A → Eff Deco B) :
  only_adds f → (∀ a, only_adds (k a)) → only_adds (bind f k).
Proof.
  intros Hf Hk d m Hm. unfold bind. specialize (Hf d m Hm).
  destruct (f d) as [d' [a|e]]; simpl in *; [|done]. by apply Hk.
Qed.

Lemma only_adds_for_of {A} (xs : list A) (body : A → Eff Deco unit) :
  (∀ x, only_adds (body x)) → only_adds (for_of xs body).
Proof.
  intros Hbody. induction xs as [|x xs IH]; simpl; [apply only_adds_ret|].
  apply only_adds_bind; [apply Hbody|]. by intros _.
Qed.

Lemma only_adds_guarded (w : Side) (block : string) (j : nat) :
  only_adds (let* lit := highlightPath w block j in
             if negb lit then highlight w block j else ret tt).
Proof.
  intros d m Hm. unfold bind, highlightPath, highlight, ret. simpl.
  destruct (negb _); simpl; [|done]. apply elem_of_union. by right.
Qed.

Lemma sets_guarded (w : Side) (block : string) (j : nat) (d : Deco) :
  Highlighted w block j
  ∈ ((let* lit := highlightPath w block j in
      if negb lit then highlight w block j else ret tt) d).1.
Proof.
  unfold bind, highlightPath, highlight, ret.
  destruct (decide (Highlighted w block j ∈ d)) as [Hin|Hnin];
    rewrite ?(bool_decide_eq_true_2 _ Hin), ?(bool_decide_eq_false_2 _ Hnin);
    cbn [negb fst]; [done|]. apply elem_of_union. left. by apply elem_of_singleton.
Qed.

(** The part of [highlight_connections] that handles the connection number
    [j] of a block. *)
Abbreviation highlight_connection block input_name :=
  (fun '(j, connection) =>
     if decide (conn_type connection = NEXT_STATEMENT) then
       match getParentInput connection with
       | Some input =>
           if is_name input_name input then
             let* lit := highlightPath block.1 (block_id block.2) j in
             if negb lit then highlight block.1 (block_id block.2) j else ret tt
           else ret tt
       | None =>
           if is_name input_name "next" then
             let* lit := highlightPath block.1 (block_id block.2) j in
             if negb lit then highlight block.1 (block_id block.2) j else ret tt
           else ret tt
       end
     else ret tt) (only parsing).

Lemma highlight_connection_facts (block : BlockHandle) (input_name : option string)
    (jc : nat * Connection) :
  only_adds (highlight_connection block input_name jc) ∧
  never_throws (highlight_connection block input_name jc).
Proof.
  destruct jc as [j c].
  destruct (decide (conn_type c = NEXT_STATEMENT));
    [|split; [apply only_adds_ret|apply never_throws_ret]].
  destruct (getParentInput c);
    match goal with
    | |- context [is_name ?a ?b] => destruct (is_name a b)
    end;
    (split; [first [apply only_adds_guarded|apply only_adds_ret]
            |repeat never_throws_step]).
Qed.

Lemma only_adds_highlight_connections (keys : list string) (w : Workspace) :
  only_adds (highlight_connections keys w).
Proof.
  unfold highlight_connections. apply only_adds_for_of. intros key. cbv zeta.
  apply only_adds_bind; [apply only_adds_member_of|]. intros block.
  apply only_adds_for_of. intros jc.
  apply (highlight_connection_facts block _ jc).
Qed.

Lemma for_of_sets {A} (m : Mark) (xs : list A) (body : A → Eff Deco unit) (x : A) :
  x ∈ xs →
  (∀ y, y ∈ xs → never_throws (body y)) →
  (∀ y, only_adds (body y)) →
  (∀ d, m ∈ (body x d).1) →
  ∀ d, m ∈ (for_of xs body d).1.
Proof.
  intros Hx Hret Hadd Hset. induction xs as [|y xs IH]; [by apply elem_of_nil in Hx|].
  intros d. cbn [for_of]. unfold bind.
  destruct (Hret y (ltac:(left)) d) as [[] Hy].
  destruct (body y d) as [d' r] eqn:E. simpl in Hy. subst r.
  apply elem_of_cons in Hx as [->|Hx].
  - apply only_adds_for_of; [done|]. specialize (Hset d). by rewrite E in Hset.
  - apply IH; [done|]. intros z Hz. apply Hret. by right.
Qed.

Lemma connection_key_slot (source : string) (connection : Connection) :
  occurs " " source = false →
  (∀ input, getParentInput connection = Some input → occurs " " input = false) →
  split " " (connection_key source connection) !! 1%nat
  = Some (default "next" (getParentInput connection)).
Proof.
  intros Hs Hi. unfold connection_key, edge_key.
  change (" " +:+ ?name +:+ " " +:+ ?t) with (String " " (name +:+ String " " t)).
  rewrite split_append by done.
  change ((?x :: ?l) !! 1%nat) with (l !! 0%nat).
  destruct (getParentInput connection) as [input|]; cbn [default];
    apply split_head; auto.
Qed.

(** X13. In a workspace whose block identities hold no space, when the
    keys passed to [highlight_connections] come from that workspace, the call
    returns and every next-statement connection whose key is among them is
    highlighted afterwards, provided the name of its input holds no space;
    no highlight that was on is switched off. *)
Theorem highlight_connections_marks (keys : list string) (w : Workspace) (d : Deco)
    (b : Block) (j : nat) (c : Connection) :
  ids_without_space w = true →
  (∀ key, key ∈ keys → key ∈ get_connections (getAllBlocks w)) →
  getBlockById w (block_id b) = Some b →
  getConnections_ b !! j = Some c →
  conn_type c = NEXT_STATEMENT →
  (∀ input, getParentInput c = Some input → occurs " " input = false) →
  connection_key (block_id b) c ∈ keys →
  (highlight_connections keys w d).2 = Return tt ∧
  Highlighted (ws_side w) (block_id b) j ∈ (highlight_connections keys w d).1 ∧
  (∀ m, m ∈ d → m ∈ (highlight_connections keys w d).1).
Proof.
  intros Hw Hkeys Hb Hc Ht Hinput Hkey.
  assert (Hsp : occurs " " (block_id b) = false).
  { apply (ids_without_space_elem w); [done|]. by apply getBlockById_Some in Hb as [? _]. }
  split_and!.
  - destruct (never_throws_highlight_connections keys w Hw Hkeys d) as [[] H]. exact H.
  - revert d. unfold highlight_connections.
    apply (for_of_sets _ _ _ (connection_key (block_id b) c) Hkey).
    + intros key Hin. cbv zeta.
      destruct (key_block_found w key Hw (Hkeys key Hin)) as [b' ->].
      repeat never_throws_step.
    + intros key. cbv zeta.
      apply only_adds_bind; [apply only_adds_member_of|]. intros block.
      apply only_adds_for_of. intros jc.
      apply (highlight_connection_facts block _ jc).
    + intros d. cbv zeta.
      rewrite connection_key_head, connection_key_slot by done.
      cbn [mbind option_bind]. unfold blockById. rewrite Hb, bind_member_of.
      cbn [fst snd]. revert d.
      apply (for_of_sets _ _ _ (j, c)).
      * unfold indexed. by apply (elem_of_lookup_imap_2 (fun j a => (j, a))).
      * intros jc _. apply (highlight_connection_facts (ws_side w, b) _ jc).
      * intros jc. apply (highlight_connection_facts (ws_side w, b) _ jc).
      * intros d. rewrite decide_True by done.
        destruct (getParentInput c) as [input|]; cbn [default];
          unfold is_name; rewrite bool_decide_eq_true_2 by done;
          apply sets_guarded.
  - intros m Hm. by apply only_adds_highlight_connections.
Qed.

Lemma highlight_connections_marks_witness :
  let statement target :=
    {| conn_type := NEXT_STATEMENT; getParentInput := Some "DO";
       targetBlock := target |} in
  let a := {| block_id := "a"; getConnections_ := [statement (Some "b")];
              inputList := []; getRelativeToSurfaceXY := (0, 0)%Z |} in
  let w := {| ws_side := Mine; ws_id := "mine"; getAllBlocks := [a]; scrollY := 0;
              scale := 1; getMetrics := {| scrollLeft := 0; scrollTop := 0 |} |} in
  Highlighted Mine "a" 0 ∈ (highlight_connections ["a DO b"] w ∅).1.
Proof.
  intros statement a w.
  refine (proj1 (proj2 (highlight_connections_marks ["a DO b"] w ∅ a 0
                          (statement (Some "b")) eq_refl _ eq_refl eq_refl eq_refl _ _))).
  - intros key ->%list_elem_of_singleton. by apply (bool_decide_unpack _).
  - simpl. intros input [= <-]. reflexivity.
  - left.
Defined.

(** ** More on the scroll synchronizer *)

Lemma scroll_returns (event : Event) (mine previous : Workspace) (s : Sync) :
  (scroll event mine previous s).2 = Return tt.
Proof.
  unfold scroll. case_bool_decide; [|done].
  unfold bind, get_busy, set_busy. simpl. destruct (busy s); [done|]. simpl.
  destruct (bool_decide (workspaceId event = ws_id mine));
    (match goal with
     | |- context [find ?p ?l] => destruct (find p l) as [block|]
     end; simpl; [|done]);
    (match goal with
     | |- context [getBlockById ?w ?i] => destruct (getBlockById w i) as [other|]
     end; simpl; done).
Qed.

Lemma scroll_busy_flips (event : Event) (mine previous : Workspace) (s : Sync) :
  busy (scroll event mine previous s).1
  = if bool_decide (ev_type event = "viewport_change") then negb (busy s) else busy s.
Proof.
  case_bool_decide as Ht.
  - destruct (busy s) eqn:Hb.
    + by rewrite scroll_when_busy.
    + by destruct (scroll_when_idle event mine previous s Ht Hb) as [-> _].
  - by rewrite scroll_other_event.
Qed.

Lemma scroll_calls_grow (event : Event) (mine previous : Workspace) (s : Sync) :
  let s' := (scroll event mine previous s).1 in
  (length (scrollbar_calls s') ≤
   length (scrollbar_calls s)
   + if bool_decide (ev_type event = "viewport_change") && negb (busy s) then 1 else 0)%nat.
Proof.
  intros s'. unfold s'. case_bool_decide as Ht; cbn [andb].
  - destruct (busy s) eqn:Hb; cbn [negb].
    + rewrite scroll_when_busy by done. cbn [fst scrollbar_calls]. lia.
    + destruct (scroll_when_idle event mine previous s Ht Hb) as [_ [->|[c ->]]];
        cbn [length]; lia.
  - rewrite scroll_other_event by done. cbn [fst]. lia.
Qed.

(** X14. Starting from any state, the flag [busy] flips at every viewport
    change and at no other event; a viewport change that finds the flag set
    issues no scroll command. So from a clear flag the listener acts on the
    first, third, fifth... viewport change only, whatever caused the ones in
    between: after [n] of them at most (n + 1) / 2 commands were issued. *)
Theorem scroll_every_other (steps : list (Event * Workspace * Workspace)) (s : Sync) :
  let final := (scroll_all steps s).1 in
  (scroll_all steps s).2 = Return tt ∧
  busy final = xorb (busy s) (Nat.odd (viewport_changes steps)) ∧
  (length (scrollbar_calls final) ≤
   length (scrollbar_calls s)
   + (viewport_changes steps + if busy s then 0 else 1) / 2)%nat.
Proof.
  revert s. unfold scroll_all, viewport_changes.
  induction steps as [|[[event mine] previous] steps IH]; intros s.
  - simpl. split_and!; [done|by destruct (busy s)|].
    destruct (busy s); simpl; lia.
  - cbn [for_of]. unfold bind.
    pose proof (scroll_returns event mine previous s) as Hr.
    pose proof (scroll_busy_flips event mine previous s) as Hb.
    pose proof (scroll_calls_grow event mine previous s) as Hc.
    destruct (scroll event mine previous s) as [s1 r]. simpl in Hr, Hb, Hc. subst r.
    destruct (IH s1) as (IH1 & IH2 & IH3). cbn [fst snd]. rewrite filter_cons.
    cbn [fst].
    split_and!; [done| |].
    + rewrite IH2, Hb. case_bool_decide as Ht.
      * rewrite decide_True by done. cbn [length]. rewrite Nat.odd_succ.
        rewrite <- Nat.negb_odd. by destruct (busy s), (Nat.odd _).
      * by rewrite decide_False by done.
    + revert IH3 Hc. rewrite Hb. case_bool_decide as Ht.
      * rewrite decide_True by done. cbn [length andb].
        set (n := length (filter _ steps)).
        set (L := length (scrollbar_calls (for_of steps _ s1).1)).
        set (L1 := length (scrollbar_calls s1)).
        set (L0 := length (scrollbar_calls s)).
        clearbody L L1 L0 n. destruct (busy s); cbn [negb]; cbv iota; intros IH3 Hc.
        -- replace (S n + 0)%nat with (n + 1)%nat by lia.
           lia.
        -- replace (S n + 1)%nat with (n + 0 + 1 * 2)%nat by lia.
           rewrite Nat.div_add by lia.
           lia.
      * rewrite decide_False by done. cbn [andb]. cbv iota. intros IH3 Hc. lia.
Qed.

Lemma scroll_idle_calls (event : Event) (mine previous : Workspace) (s : Sync) :
  ev_type event = "viewport_change" →
  busy s = false →
  scroll_counterpart event mine previous = None →
  scrollbar_calls (scroll event mine previous s).1 = scrollbar_calls s.
Proof.
  intros Ht Hb. unfold scroll_counterpart, scroll, bind, get_busy, set_busy.
  rewrite Ht. simpl. rewrite Hb.
  destruct (bool_decide (workspaceId event = ws_id mine));
    (match goal with
     | |- context [find ?p ?l] => destruct (find p l) as [block|]
     end; simpl; [|done]);
    (match goal with
     | |- context [getBlockById ?w ?i] => destruct (getBlockById w i) as [other|]
     end; simpl; done).
Qed.

(** X15. When the first block below the scroll offset has no counterpart
    in the other workspace (or there is no such block), a viewport change
    issues no scroll command and still sets the flag: the next viewport
    change, though it is no echo, is ignored as well. *)
Theorem scroll_without_counterpart (first next : Event)
    (mine previous mine' previous' : Workspace) (calls : list ScrollbarSet) :
  ev_type first = "viewport_change" →
  ev_type next = "viewport_change" →
  scroll_counterpart first mine previous = None →
  let start := {| busy := false; scrollbar_calls := calls |} in
  let after_first := (scroll first mine previous start).1 in
  let after_next := (scroll next mine' previous' after_first).1 in
  busy after_first = true ∧
  scrollbar_calls after_first = calls ∧
  scrollbar_calls after_next = calls ∧
  busy after_next = false.
Proof.
  intros Hf Hn Hnone start after_first after_next.
  destruct (scroll_when_idle first mine previous start Hf eq_refl) as [Hbusy _].
  fold after_first in Hbusy.
  assert (Hcalls : scrollbar_calls after_first = calls).
  { unfold after_first. by rewrite scroll_idle_calls. }
  unfold after_next. rewrite scroll_when_busy by done. cbn [fst]. by split_and!.
Qed.

Lemma scroll_without_counterpart_witness :
  let block id y := {| block_id := id; getConnections_ := []; inputList := [];
                       getRelativeToSurfaceXY := (10, y)%Z |} in
  let workspace side id blocks :=
    {| ws_side := side; ws_id := id; getAllBlocks := blocks;
       scrollY := 0; scale := 1;
       getMetrics := {| scrollLeft := 0; scrollTop := 0 |} |} in
  let event id := {| ev_type := "viewport_change"; workspaceId := id;
                     blockId := None; newElementId := None |} in
  let mine := workspace Mine "A" [block "only-mine" 5%Z; block "shared" 9%Z] in
  let previous := workspace Previous "B" [block "shared" 9%Z] in
  let start := {| busy := false; scrollbar_calls := [] |} in
  scrollbar_calls
    (scroll (event "A") mine previous (scroll (event "A") mine previous start).1).1
  = [].
Proof.
  intros block workspace event mine previous start.
  exact (proj1 (proj2 (proj2
           (scroll_without_counterpart (event "A") (event "A") mine previous
              mine previous [] eq_refl eq_refl eq_refl)))).
Defined.

(** ** The unused [highLight] *)

(** X16. [highLight] returns and leaves every next-statement connection of
    every block of the workspace highlighted; it switches no mark off. *)
Theorem highLight_all (event : Event) (w : Workspace) (d : Deco)
    (b : Block) (j : nat) (c : Connection) :
  b ∈ getAllBlocks w →
  getConnections_ b !! j = Some c →
  conn_type c = NEXT_STATEMENT →
  (highLight event w d).2 = Return tt ∧
  Highlighted (ws_side w) (block_id b) j ∈ (highLight event w d).1 ∧
  (∀ m, m ∈ d → m ∈ (highLight event w d).1).
Proof.
  intros Hb Hc Ht.
  assert (Hinner : ∀ (block : Block) (jc : nat * Connection),
            only_adds ((fun '(j, connection) =>
                          if decide (conn_type connection = NEXT_STATEMENT)
                          then highlight (ws_side w) (block_id block) j
                          else ret tt) jc) ∧
            never_throws ((fun '(j, connection) =>
                             if decide (conn_type connection = NEXT_STATEMENT)
                             then highlight (ws_side w) (block_id block) j
                             else ret tt) jc)).
  { intros block [j' c']. destruct (decide _).
    - split; [|never_throws_step]. intros d' m Hm. unfold highlight. simpl.
      apply elem_of_union. by right.
    - split; [apply only_adds_ret|apply never_throws_ret]. }
  assert (Hadd : ∀ block, only_adds ((fun block =>
            let connections := getConnections_ block in
            for_of (indexed connections) (fun '(j, connection) =>
              if decide (conn_type connection = NEXT_STATEMENT)
              then highlight (ws_side w) (block_id block) j
              else ret tt)) block)).
  { intros block. cbv zeta. apply only_adds_for_of. intros jc. apply Hinner. }
  assert (Hret : ∀ block, never_throws ((fun block =>
            let connections := getConnections_ block in
            for_of (indexed connections) (fun '(j, connection) =>
              if decide (conn_type connection = NEXT_STATEMENT)
              then highlight (ws_side w) (block_id block) j
              else ret tt)) block)).
  { intros block. cbv zeta. apply never_throws_for_of. intros jc _. apply Hinner. }
  assert (Hnt : never_throws (highLight event w)).
  { unfold highLight. cbv zeta. apply never_throws_for_of. intros x _. apply Hret. }
  split_and!.
  - destruct (Hnt d) as [[] H]. exact H.
  - unfold highLight. cbv zeta. revert d. apply (for_of_sets _ _ _ b Hb); [by intros|done|].
    apply (for_of_sets _ _ _ (j, c)).
    + unfold indexed. by apply (elem_of_lookup_imap_2 (fun j a => (j, a))).
    + intros jc _. apply Hinner.
    + intros jc. apply Hinner.
    + intros d. rewrite decide_True by done. unfold highlight. simpl.
      apply elem_of_union. left. by apply elem_of_singleton.
  - intros m Hm. unfold highLight. cbv zeta. by apply (only_adds_for_of _ _ Hadd).
Qed.

Lemma highLight_all_witness :
  let next := {| conn_type := NEXT_STATEMENT; getParentInput := None;
                 targetBlock := None |} in
  let previous_of := {| conn_type := PREVIOUS_STATEMENT; getParentInput := None;
                        targetBlock := None |} in
  let a := {| block_id := "a"; getConnections_ := [previous_of; next];
              inputList := []; getRelativeToSurfaceXY := (0, 0)%Z |} in
  let w := {| ws_side := Mine; ws_id := "mine"; getAllBlocks := [a]; scrollY := 0;
              scale := 1; getMetrics := {| scrollLeft := 0; scrollTop := 0 |} |} in
  let event := {| ev_type := "click"; workspaceId := "mine";
                  blockId := None; newElementId := None |} in
  Highlighted Mine "a" 1 ∈ (highLight event w ∅).1.
Proof.
  intros next previous_of a w event.
  refine (proj1 (proj2 (highLight_all event w ∅ a 1 next _ eq_refl eq_refl))).
  left.
Defined.

(** ** The selection bridge when the block is there *)

Lemma unhighlightSearchGroup_spec (blocks : list BlockHandle) (s : Search) :
  unhighlightSearchGroup_ blocks s
  = ({| search_classes :=
          search_classes s
          ∖ list_to_set ((fun b => HasClass (BlockPath b.1 (block_id b.2)) search_highlight)
                           <$> blocks);
        scrolled_to := scrolled_to s |},
     Return tt).
Proof.
  revert s. induction blocks as [|b blocks IH]; intros s.
  - destruct s as [classes scrolled]. cbn [fmap list_fmap list_to_set foldr].
    assert (E : classes ∖ (∅ : gset Mark) = classes).
    { apply set_eq. intros m. rewrite elem_of_difference, elem_of_empty. tauto. }
    cbn [search_classes scrolled_to]. by rewrite E.
  - unfold unhighlightSearchGroup_ in *. cbn [for_of].
    erewrite bind_Return by reflexivity. rewrite IH. cbn [search_classes scrolled_to].
    rewrite fmap_cons, list_to_set_cons.
    match goal with
    | |- ({| search_classes := ?x; scrolled_to := _ |}, _)
         = ({| search_classes := ?y; scrolled_to := _ |}, _) =>
        assert (E : x = y); [|by rewrite E]
    end.
    apply set_eq. intros m.
    rewrite !elem_of_difference, elem_of_union. tauto.
Qed.

Lemma selection_found (event : Event) (other : Workspace) (s : Search)
    (id : string) (b : Block) :
  ev_type event = "selected" →
  newElementId event = Some id →
  id ≠ "" →
  getBlockById other id = Some b →
  let after :=
    {| search_classes :=
         {[HasClass (BlockPath (ws_side other) id) search_current]}
         ∪ ({[HasClass (BlockPath (ws_side other) id) search_highlight]}
            ∪ search_classes s
              ∖ list_to_set ((fun b => HasClass (BlockPath b.1 (block_id b.2))
                                                search_highlight)
                               <$> allBlocks other));
       scrolled_to := (ws_side other, id) :: scrolled_to s |} in
  myMineSelection event other s = (after, Return tt) ∧
  myPreviousSelection event other s = (after, Return tt).
Proof.
  intros Ht Hn Hne Hb after.
  assert (Hid : block_id b = id) by (by apply getBlockById_Some in Hb as [_ ?]).
  assert (Hbody :
    (if bool_decide (ev_type event = "selected") then
       if truthy (newElementId event) then
         let block := newElementId event ≫= blockById other in
         let* b := member_of block in
         unhighlightSearchGroup_ (allBlocks other) >>
         highlightSearchGroup_ [b] >>
         highlightCurrentSelection_ b >>
         scrollToVisible_ b
       else ret tt
     else ret tt) s = (after, Return tt)).
  { rewrite Ht, Hn. cbn [truthy mbind option_bind]. rewrite bool_decide_eq_true_2 by done.
    rewrite bool_decide_eq_false_2 by done. cbn [negb]. cbv zeta.
    unfold blockById. rewrite Hb, bind_member_of.
    erewrite bind_Return by apply unhighlightSearchGroup_spec.
    unfold highlightSearchGroup_, highlightCurrentSelection_, scrollToVisible_,
      on_classes, addClass, for_of, bind, ret. cbn. by rewrite Hid. }
  split.
  - unfold myMineSelection.
    rewrite (bool_decide_eq_false_2 (ev_type event = "click")) by (by rewrite Ht).
    cbn [andb]. rewrite bind_ret. exact Hbody.
  - exact Hbody.
Qed.

(** X17. When the block selected in one workspace exists in the other
    one, the selection handler returns; in that other workspace the block of
    that identity then carries the search-highlight and the search-current
    class, no block of another identity carries the search-highlight class,
    and the block is the last one scrolled into view. *)
Theorem selection_highlights_counterpart (event : Event) (other : Workspace)
    (s : Search) (id : string) (b : Block) :
  ev_type event = "selected" →
  newElementId event = Some id →
  id ≠ "" →
  getBlockById other id = Some b →
  myPreviousSelection event other s = myMineSelection event other s ∧
  let result := myMineSelection event other s in
  result.2 = Return tt ∧
  HasClass (BlockPath (ws_side other) id) search_highlight ∈ search_classes result.1 ∧
  HasClass (BlockPath (ws_side other) id) search_current ∈ search_classes result.1 ∧
  (∀ b', b' ∈ getAllBlocks other → block_id b' ≠ id →
         HasClass (BlockPath (ws_side other) (block_id b')) search_highlight
         ∉ search_classes result.1) ∧
  scrolled_to result.1 = (ws_side other, id) :: scrolled_to s.
Proof.
  intros Ht Hn Hne Hb.
  destruct (selection_found event other s id b Ht Hn Hne Hb) as [Hm Hp].
  rewrite Hm, Hp. split; [done|]. cbn [fst snd search_classes scrolled_to].
  split_and!; [done| | | |done].
  - apply elem_of_union. right. apply elem_of_union. left. by apply elem_of_singleton.
  - apply elem_of_union. left. by apply elem_of_singleton.
  - intros b' Hb' Hne'. rewrite !elem_of_union, !elem_of_singleton, elem_of_difference.
    intros [[=]|[[= ?]|[_ Hnot]]]; [done|]. apply Hnot.
    apply elem_of_list_to_set, list_elem_of_fmap. exists (ws_side other, b').
    split; [done|]. unfold allBlocks. apply list_elem_of_fmap. by exists b'.
Qed.

Lemma selection_highlights_counterpart_witness :
  let event := {| ev_type := "selected"; workspaceId := "mine";
                  blockId := None; newElementId := Some "x" |} in
  let block id := {| block_id := id; getConnections_ := []; inputList := [];
                     getRelativeToSurfaceXY := (0, 0)%Z |} in
  let previous :=
    {| ws_side := Previous; ws_id := "previous"; getAllBlocks := [block "y"; block "x"];
       scrollY := 0; scale := 1;
       getMetrics := {| scrollLeft := 0; scrollTop := 0 |} |} in
  let start :=
    {| search_classes := {[HasClass (BlockPath Previous "y") search_highlight]};
       scrolled_to := [] |} in
  scrolled_to (myMineSelection event previous start).1 = [(Previous, "x")].
Proof.
  intros event block previous start.
  assert (Hne : "x" ≠ "") by done.
  exact (proj2 (proj2 (proj2 (proj2 (proj2
           (selection_highlights_counterpart event previous start "x" (block "x")
              eq_refl eq_refl Hne eq_refl)))))).
Defined.

(** ** The mergeable format: what [replace_blocks] does to a state *)

Lemma JsTree_nested_ind (P : JsTree → Prop) :
  P TUndefined → P TNull →
  (∀ b, P (TBool b)) → (∀ n, P (TNumber n)) → (∀ s, P (TString s)) →
  (∀ elems, Forall P elems → P (TArray elems)) →
  (∀ props, Forall (fun p => P p.2) props → P (TObject props)) →
  ∀ t, P t.
Proof.
  intros Hu Hn Hb Hz Hs Harr Hobj. fix IH 1.
  intros [ | | b | n | s | elems | props]; [done..| |].
  - apply Harr. induction elems as [|e elems IHe]; constructor; [apply IH|apply IHe].
  - apply Hobj. induction props as [|[k v] props IHp]; constructor; [apply IH|apply IHp].
Qed.

Lemma replace_blocks_array (elems : list JsTree) :
  replace_blocks (TArray elems)
  = match replace_elems elems with
    | Throw e => Throw e
    | Return elems' => Return (TArray elems')
    end.
Proof. reflexivity. Qed.

Lemma replace_blocks_object (props : list (string * JsTree)) :
  replace_blocks (TObject props)
  = match replace_props props with
    | Throw e => Throw e
    | Return (kept, moved) => Return (TObject (kept ++ moved))
    end.
Proof. reflexivity. Qed.


Lemma replace_blocks_TypeError : ∀ t e, replace_blocks t = Throw e → e = TypeError.
Proof.
  induction t as [ | | b | n | s | elems IH | props IH] using JsTree_nested_ind;
    intros e; try (simpl; congruence).
  - rewrite replace_blocks_array.
    assert (H : ∀ e, replace_elems elems = Throw e → e = TypeError).
    { induction IH as [|v elems Hv _ IHl]; intros e'; [done|]. cbn [replace_elems].
      unfold replace_value. destruct (typeof_object v).
      - destruct (replace_blocks v) as [v'|e0] eqn:E.
        + destruct (replace_elems elems); [done|]. intros [= <-]. by apply IHl.
        + intros [= <-]. by apply Hv.
      - destruct (replace_elems elems); [done|]. intros [= <-]. by apply IHl. }
    destruct (replace_elems elems); [done|]. intros [= <-]. by apply H.
  - rewrite replace_blocks_object.
    assert (H : ∀ e, replace_props props = Throw e → e = TypeError).
    { induction IH as [|[name v] props Hv _ IHl]; intros e'; [done|].
      cbn [replace_props]. simpl in Hv. case_decide.
      - destruct v; simpl; try congruence;
          (destruct (replace_props props) as [[? ?]|]; [done|]);
          intros [= <-]; by apply IHl.
      - unfold replace_value. destruct (typeof_object v).
        + destruct (replace_blocks v) as [v'|e0] eqn:E.
          * destruct (replace_props props) as [[? ?]|]; [done|].
            intros [= <-]. by apply IHl.
          * intros [= <-]. by apply Hv.
        + destruct (replace_props props) as [[? ?]|]; [done|].
          intros [= <-]. by apply IHl. }
    destruct (replace_props props) as [[? ?]|]; [done|]. intros [= <-]. by apply H.
Qed.

Lemma replace_props_app (l1 l2 : list (string * JsTree)) :
  replace_props (l1 ++ l2)
  = match replace_props l1 with
    | Throw e => Throw e
    | Return (kept1, moved1) =>
        match replace_props l2 with
        | Throw e => Throw e
        | Return (kept2, moved2) => Return (kept1 ++ kept2, moved1 ++ moved2)
        end
    end.
Proof.
  induction l1 as [|[name v] l1 IH]; cbn [app replace_props].
  - by destruct (replace_props l2) as [[? ?]|].
  - rewrite IH. case_decide.
    + destruct (property_id v); [|done].
      destruct (replace_props l1) as [[? ?]|]; [|done].
      by destruct (replace_props l2) as [[? ?]|].
    + destruct (replace_value v); [|done].
      destruct (replace_props l1) as [[? ?]|]; [|done].
      by destruct (replace_props l2) as [[? ?]|].
Qed.

(** What the loop over the properties returns: the properties that are not
    named "block", in place, and stubs named "block". *)
Lemma replace_props_shape (props kept moved : list (string * JsTree)) :
  replace_props props = Return (kept, moved) →
  Forall2 (fun p q => p.1 = q.1 ∧ p.1 ≠ "block" ∧ replace_value p.2 = Return q.2)
          (filter (fun p => p.1 ≠ "block") props) kept ∧
  Forall2 (fun p q => q = ("block", id_stub (id_of p.2)) ∧
                      property_id p.2 = Return (id_of p.2))
          (filter (fun p => p.1 = "block") props) moved.
Proof.
  revert kept moved. induction props as [|[name v] props IH]; intros kept moved.
  - intros [= <- <-]. by split; constructor.
  - cbn [replace_props]. rewrite !filter_cons. cbn [fst]. case_decide as Hn.
    + rewrite decide_False by (intros H; by apply H).
      destruct (property_id v) as [id|] eqn:Hid; [|done].
      destruct (replace_props props) as [[kept' moved']|]; [|done].
      intros [= <- <-]. destruct (IH kept' moved' eq_refl) as [Hk Hm].
      split; [done|]. constructor; [|done]. unfold id_of. cbn [snd]. by rewrite Hid.
    + rewrite decide_True by done.
      destruct (replace_value v) as [v'|] eqn:Hv; [|done].
      destruct (replace_props props) as [[kept' moved']|]; [|done].
      intros [= <- <-]. destruct (IH kept' moved' eq_refl) as [Hk Hm].
      split; [|done]. by constructor.
Qed.

Lemma property_id_stub (id : JsTree) : property_id (id_stub id) = Return id.
Proof. reflexivity. Qed.

Lemma replace_value_stable (v v' : JsTree) :
  replace_stable v → replace_value v = Return v' → replace_value v' = Return v'.
Proof.
  unfold replace_value. intros Hv. destruct (typeof_object v) eqn:E.
  - intros H%Hv. by destruct (typeof_object v').
  - intros [= <-]. by rewrite E.
Qed.

Lemma Forall_filter_keep {A} (P Q : A → Prop) `{∀ x, Decision (Q x)} (l : list A) :
  Forall P l → Forall P (filter Q l).
Proof.
  rewrite !Forall_forall. intros HP x [_ Hx]%list_elem_of_filter. by apply HP.
Qed.

Lemma replace_props_kept (l kept : list (string * JsTree)) :
  Forall (fun p => replace_stable p.2) l →
  Forall2 (fun p q => p.1 = q.1 ∧ p.1 ≠ "block" ∧ replace_value p.2 = Return q.2)
          l kept →
  replace_props kept = Return (kept, []).
Proof.
  intros Hst H. induction H as [|[n v] [n' v'] l kept (Hn & Hb & Hv) _ IH]; [done|].
  apply Forall_cons in Hst as [Hs Hst]. simpl in *. subst n'.
  rewrite decide_False by done.
  rewrite (replace_value_stable v v' Hs Hv). by rewrite IH.
Qed.

Lemma replace_props_moved (l moved : list (string * JsTree)) :
  Forall2 (fun p q => q = ("block", id_stub (id_of p.2)) ∧
                      property_id p.2 = Return (id_of p.2))
          l moved →
  replace_props moved = Return ([], moved).
Proof.
  intros H. induction H as [|p q l moved (-> & _) _ IH]; [done|].
  cbn [replace_props]. rewrite decide_True by done.
  by rewrite property_id_stub, IH.
Qed.

Lemma replace_blocks_stable : ∀ t, replace_stable t.
Proof.
  induction t as [ | | b | n | s | elems IH | props IH] using JsTree_nested_ind;
    intros r; try (simpl; congruence); try (by intros [= <-]).
  - rewrite replace_blocks_array.
    destruct (replace_elems elems) as [elems'|] eqn:E; [|done]. intros [= <-].
    rewrite replace_blocks_array.
    assert (H : replace_elems elems' = Return elems'); [|by rewrite H].
    revert elems' E. induction IH as [|v elems Hv _ IHl]; intros elems'.
    + by intros [= <-].
    + cbn [replace_elems]. destruct (replace_value v) as [v'|] eqn:Ev; [|done].
      destruct (replace_elems elems) as [l'|]; [|done]. intros [= <-].
      cbn [replace_elems]. rewrite (replace_value_stable v v' Hv Ev).
      by rewrite (IHl l' eq_refl).
  - rewrite replace_blocks_object.
    destruct (replace_props props) as [[kept moved]|] eqn:E; [|done]. intros [= <-].
    apply replace_props_shape in E as [Hk Hm].
    rewrite replace_blocks_object, replace_props_app.
    rewrite (replace_props_kept _ _ (Forall_filter_keep _ _ _ IH) Hk).
    rewrite (replace_props_moved _ _ Hm). by rewrite app_nil_r.
Qed.

(** X18. [replace_blocks] is idempotent: applied to a state it has already
    flattened, it returns that state unchanged. *)
Theorem replace_blocks_idempotent (t r : JsTree) :
  replace_blocks t = Return r → replace_blocks r = Return r.
Proof. apply replace_blocks_stable. Qed.

Lemma replace_blocks_idempotent_witness :
  let child := TObject [("type", TString "text"); ("id", TString "b")] in
  let state :=
    TObject [("type", TString "loop"); ("id", TString "a");
             ("inputs", TObject [("DO", TObject [("block", child)])])] in
  let flat :=
    TObject [("type", TString "loop"); ("id", TString "a");
             ("inputs", TObject [("DO", TObject [("block", id_stub (TString "b"))])])] in
  replace_blocks state = Return flat ∧ replace_blocks flat = Return flat.
Proof.
  intros child state flat. split; [reflexivity|].
  exact (replace_blocks_idempotent state flat eq_refl).
Defined.

Lemma replace_value_null_free (v : JsTree) :
  (null_free v = true → ∃ r, replace_blocks v = Return r) →
  null_free v = true → ∃ r, replace_value v = Return r.
Proof.
  intros IH Hv. unfold replace_value. destruct (typeof_object v); [by apply IH|].
  by eexists.
Qed.

(** X19. On a state that holds no [null] and no [undefined] at all,
    [replace_blocks] returns. *)
Theorem replace_blocks_null_free : ∀ t,
  null_free t = true → ∃ r, replace_blocks t = Return r.
Proof.
  induction t as [ | | b | n | s | elems IH | props IH] using JsTree_nested_ind;
    try done; try (by eexists).
  - cbn [null_free]. intros Hnf. rewrite replace_blocks_array.
    assert (H : ∃ l, replace_elems elems = Return l).
    { induction IH as [|v elems Hv _ IHl]; [by eexists|].
      cbn [forallb] in Hnf. apply andb_true_iff in Hnf as [Hv' Hl].
      destruct (replace_value_null_free v Hv Hv') as [v' Ev].
      destruct (IHl Hl) as [l' El]. cbn [replace_elems]. rewrite Ev, El. by eexists. }
    destruct H as [l ->]. by eexists.
  - cbn [null_free]. intros Hnf. rewrite replace_blocks_object.
    assert (H : ∃ km, replace_props props = Return km).
    { induction IH as [|[name v] props Hv _ IHl]; [by eexists|].
      cbn [forallb snd] in Hnf. apply andb_true_iff in Hnf as [Hv' Hl].
      destruct (IHl Hl) as [[kept moved] El]. cbn [replace_props]. rewrite El.
      case_decide.
      - destruct v; try done; by eexists.
      - destruct (replace_value_null_free v Hv Hv') as [v' ->]. by eexists. }
    destruct H as [[kept moved] ->]. by eexists.
Qed.

Lemma replace_blocks_null_free_witness :
  ∃ r, replace_blocks
         (TObject [("id", TString "a");
                   ("next", TObject [("block", TObject [("id", TString "b")])]);
                   ("fields", TObject [("NAME", TString "x")])])
       = Return r.
Proof.
  exact (replace_blocks_null_free
           (TObject [("id", TString "a");
                     ("next", TObject [("block", TObject [("id", TString "b")])]);
                     ("fields", TObject [("NAME", TString "x")])]) eq_refl).
Defined.

Lemma replace_props_null (props : list (string * JsTree)) (name : string) :
  (name, TNull) ∈ props → ∃ e, replace_props props = Throw e.
Proof.
  induction props as [|[n v] props IH]; [by intros ?%elem_of_nil|].
  intros [[= <- <-]|Hin]%elem_of_cons; cbn [replace_props].
  - case_decide; by eexists.
  - destruct (IH Hin) as [e ->]. case_decide.
    + destruct (property_id v); by eexists.
    + destruct (replace_value v); by eexists.
Qed.

(** X20. [replace_blocks] ends in a TypeError on an object one of whose
    properties is [null], whatever the name of the property and whatever the
    other properties are. *)
Theorem replace_blocks_null_property (props : list (string * JsTree)) (name : string) :
  (name, TNull) ∈ props →
  replace_blocks (TObject props) = Throw TypeError.
Proof.
  intros [e He]%replace_props_null.
  assert (H : replace_blocks (TObject props) = Throw e).
  { rewrite replace_blocks_object. by rewrite He. }
  rewrite H. f_equal. by apply (replace_blocks_TypeError (TObject props)).
Qed.

Lemma replace_blocks_null_property_witness :
  replace_blocks
    (TObject [("id", TString "a"); ("fields", TObject [("NAME", TNull)])])
  = Throw TypeError ∧
  replace_blocks (TObject [("NAME", TNull)]) = Throw TypeError.
Proof.
  split; [reflexivity|].
  apply (replace_blocks_null_property [("NAME", TNull)] "NAME"). left.
Defined.

Lemma replace_value_block_free (v : JsTree) :
  (null_free v = true → block_free v = true → replace_blocks v = Return v) →
  null_free v = true → block_free v = true → replace_value v = Return v.
Proof.
  intros IH Hn Hb. unfold replace_value. destruct (typeof_object v); [by apply IH|done].
Qed.

(** X21. A state that holds no [null], no [undefined] and no property
    named "block" is returned by [replace_blocks] as it is. *)
Theorem replace_blocks_without_blocks : ∀ t,
  null_free t = true → block_free t = true → replace_blocks t = Return t.
Proof.
  induction t as [ | | b | n | s | elems IH | props IH] using JsTree_nested_ind;
    try done.
  - cbn [null_free block_free]. intros Hnf Hbf. rewrite replace_blocks_array.
    assert (H : replace_elems elems = Return elems); [|by rewrite H].
    induction IH as [|v elems Hv _ IHl]; [done|].
    cbn [forallb] in Hnf, Hbf.
    apply andb_true_iff in Hnf as [Hv1 Hl1]. apply andb_true_iff in Hbf as [Hv2 Hl2].
    cbn [replace_elems]. rewrite (replace_value_block_free v Hv Hv1 Hv2).
    by rewrite (IHl Hl1 Hl2).
  - cbn [null_free block_free]. intros Hnf Hbf. rewrite replace_blocks_object.
    assert (H : replace_props props = Return (props, [])).
    { induction IH as [|[name v] props Hv _ IHl]; [done|].
      cbn [forallb fst snd] in Hnf, Hbf.
      apply andb_true_iff in Hnf as [Hv1 Hl1].
      apply andb_true_iff in Hbf as [[Hname Hv2]%andb_true_iff Hl2].
      apply negb_true_iff, bool_decide_eq_false in Hname.
      cbn [replace_props]. rewrite decide_False by done.
      rewrite (replace_value_block_free v Hv Hv1 Hv2). by rewrite (IHl Hl1 Hl2). }
    rewrite H. by rewrite app_nil_r.
Qed.

Lemma replace_blocks_without_blocks_witness :
  let state := TObject [("type", TString "text"); ("id", TString "b");
                        ("x", TNumber 10); ("fields", TObject [("TEXT", TString "hi")]);
                        ("list", TArray [TBool true; TObject []])] in
  replace_blocks state = Return state.
Proof.
  intros state. exact (replace_blocks_without_blocks state eq_refl eq_refl).
Defined.

Lemma replace_value_stubs (v : JsTree) :
  (∀ r, replace_blocks v = Return r → stubs_of v r) →
  ∀ r, replace_value v = Return r → stubs_of v r.
Proof.
  intros IH r. unfold replace_value. destruct (typeof_object v) eqn:E; [by apply IH|].
  intros [= <-]. destruct v; try done; by split.
Qed.

Lemma replace_elems_stubs (elems l : list JsTree) :
  Forall (λ v, ∀ r, replace_blocks v = Return r → stubs_of v r) elems →
  replace_elems elems = Return l →
  Forall is_stub (flat_map nested_blocks l) ∧
  id_of <$> flat_map nested_blocks l ≡ₚ id_of <$> flat_map nested_blocks elems.
Proof.
  intros IH. revert l. induction IH as [|v elems Hv _ IHl]; intros l.
  - by intros [= <-].
  - cbn [replace_elems]. destruct (replace_value v) as [v'|] eqn:Ev; [|done].
    destruct (replace_elems elems) as [l'|] eqn:El; [|done]. intros [= <-].
    destruct (replace_value_stubs v Hv v' Ev) as [Hs Hp].
    destruct (IHl l' eq_refl) as [Hs' Hp'].
    cbn [flat_map]. split; [by apply Forall_app|].
    by rewrite !fmap_app, Hp, Hp'.
Qed.

Lemma replace_props_stubs (props kept moved : list (string * JsTree)) :
  let blocks_of := flat_map (λ p : string * JsTree,
                     if decide (p.1 = "block") then [p.2] else nested_blocks p.2) in
  Forall (λ p, ∀ r, replace_blocks p.2 = Return r → stubs_of p.2 r) props →
  replace_props props = Return (kept, moved) →
  Forall is_stub (blocks_of (kept ++ moved)) ∧
  id_of <$> blocks_of (kept ++ moved) ≡ₚ id_of <$> blocks_of props.
Proof.
  intros blocks_of IH. revert kept moved.
  induction IH as [|[name v] props Hv _ IHl]; intros kept moved.
  - by intros [= <- <-].
  - cbn [replace_props]. case_decide as Hname.
    + destruct (property_id v) as [id|] eqn:Eid; [|done].
      destruct (replace_props props) as [[kept' moved']|] eqn:El; [|done].
      intros [= <- <-]. destruct (IHl kept' moved' eq_refl) as [Hs Hp].
      unfold blocks_of in *. rewrite flat_map_app in *.
      cbn [flat_map fst snd]. rewrite decide_True by done. rewrite decide_True by done.
      cbn [app]. split.
      * apply Forall_app in Hs as [Hs1 Hs2]. apply Forall_app. split; [done|].
        apply Forall_cons. split; [by eexists|done].
      * rewrite fmap_app, !fmap_cons, <- Permutation_middle, <- fmap_app, Hp.
        unfold id_of at 1 3. rewrite Eid. done.
    + destruct (replace_value v) as [v'|] eqn:Ev; [|done].
      destruct (replace_props props) as [[kept' moved']|] eqn:El; [|done].
      intros [= <- <-]. destruct (IHl kept' moved' eq_refl) as [Hs Hp].
      destruct (replace_value_stubs v Hv v' Ev) as [Hs' Hp'].
      unfold blocks_of in *. cbn [app flat_map fst snd].
      rewrite !decide_False by done. split; [by apply Forall_app|].
      by rewrite !fmap_app, Hp, Hp'.
Qed.

(** X22. In what [replace_blocks] returns, every value of a property named
    "block" is a stub holding an identity only, and these identities are
    those of the nested blocks of the state it was given, each as many
    times. *)
Theorem replace_blocks_stubs : ∀ t r,
  replace_blocks t = Return r → stubs_of t r.
Proof.
  induction t as [ | | b | n | s | elems IH | props IH] using JsTree_nested_ind;
    intros r; try done; try (intros [= <-]; by split).
  - rewrite replace_blocks_array.
    destruct (replace_elems elems) as [l|] eqn:El; [|done]. intros [= <-].
    by apply replace_elems_stubs.
  - rewrite replace_blocks_object.
    destruct (replace_props props) as [[kept moved]|] eqn:El; [|done]. intros [= <-].
    by apply (replace_props_stubs props kept moved).
Qed.

Lemma replace_blocks_stubs_witness :
  let child (id : string) := TObject [("type", TString "text"); ("id", TString id)] in
  let state :=
    TObject [("id", TString "a");
             ("inputs", TObject [("DO", TObject [("block", child "b")]);
                                 ("ELSE", TObject [("block", child "c")])]);
             ("next", TObject [("block", child "d")])] in
  ∃ r, replace_blocks state = Return r ∧ stubs_of state r.
Proof.
  intros child state. eexists. split; [reflexivity|].
  exact (replace_blocks_stubs state _ eq_refl).
Defined.
